(** * Darwin: import extraction and usage location

    A shallow embedding of the scanning core of the Darwin extension:
    [BaseParser] (package identity), [PythonParser], [JsTsParser], the parser
    entry points and [PythonUsageTracker].

    JavaScript strings are sequences of UTF-16 code units; a code unit is a
    number [N].  The regular expressions of the sources are kept as syntax
    trees and run by one backtracking matcher that follows the ECMAScript
    priorities (leftmost, greedy, alternatives tried left to right).

    A [TextDocument] is modelled by its text.  The editor keeps the lines of
    a document apart from their terminators, which are line feeds in the
    whole document or carriage returns followed by line feeds: [lineAt] and
    [positionAt] leave the terminator out of a line, while the pieces of
    [text.split('\n')], which the parsers use as well, keep the carriage
    return of a CRLF terminator at their end. *)

From Stdlib Require Import List NArith ZArith Bool Ascii String Lia Arith.
Import ListNotations.

(** ** JavaScript strings *)

Module Js.

Definition char := N.
Definition jstring := list char.

(** A literal of the sources, written as a Rocq string. *)
Definition str (s : string) : jstring :=
  map N_of_ascii (list_ascii_of_string s).

Definition ch (a : ascii) : char := N_of_ascii a.

Definition LF : char := 10%N.
Definition CR : char := 13%N.

Definition eqc (a b : char) : bool := N.eqb a b.

Fixpoint eqs (a b : jstring) : bool :=
  match a, b with
  | [], [] => true
  | x :: a', y :: b' => eqc x y && eqs a' b'
  | _, _ => false
  end.

(** [\s] of a RegExp, which is also what [trim] strips: WhiteSpace and
    LineTerminator code units. *)
Definition isSpace (c : char) : bool :=
  ((9 <=? c) && (c <=? 13) || (c =? 32) || (c =? 160) || (c =? 5760)
   || (8192 <=? c) && (c <=? 8202) || (c =? 8232) || (c =? 8233)
   || (c =? 8239) || (c =? 8287) || (c =? 12288) || (c =? 65279))%N.

(** [\w] without the unicode flag: [A-Za-z0-9_]. *)
Definition isWord (c : char) : bool :=
  ((48 <=? c) && (c <=? 57) || (65 <=? c) && (c <=? 90)
   || (97 <=? c) && (c <=? 122) || (c =? 95))%N.

(** [.] of a RegExp matches everything but a line terminator. *)
Definition isLineTerminator (c : char) : bool :=
  ((c =? 10) || (c =? 13) || (c =? 8232) || (c =? 8233))%N.

Definition isUpperAZ (c : char) : bool := ((65 <=? c) && (c <=? 90))%N.

Fixpoint startsWith (p s : jstring) : bool :=
  match p, s with
  | [], _ => true
  | x :: p', y :: s' => eqc x y && startsWith p' s'
  | _ :: _, [] => false
  end.

Definition endsWith (p s : jstring) : bool :=
  startsWith (rev p) (rev s).

Definition includes (c : char) (s : jstring) : bool :=
  existsb (eqc c) s.

(** [s.indexOf(c)] counted from the head of [s]; [-1] when absent. *)
Fixpoint indexOf (c : char) (s : jstring) : Z :=
  match s with
  | [] => (-1)%Z
  | x :: s' =>
      if eqc x c then 0%Z
      else let r := indexOf c s' in
           if (r <? 0)%Z then (-1)%Z else (r + 1)%Z
  end.

Definition clamp (lo hi x : Z) : Z := Z.min (Z.max x lo) hi.

Definition zlen (s : jstring) : Z := Z.of_nat (List.length s).

(** [s.indexOf(c, from)]. *)
Definition indexOfFrom (c : char) (s : jstring) (from : Z) : Z :=
  let start := clamp 0 (zlen s) from in
  let r := indexOf c (skipn (Z.to_nat start) s) in
  if (r <? 0)%Z then (-1)%Z else (start + r)%Z.

(** The last index of [c] in [s] when indices start at [i]; [-1] when absent. *)
Fixpoint lastIndexIn (c : char) (s : jstring) (i : Z) : Z :=
  match s with
  | [] => (-1)%Z
  | x :: s' =>
      let r := lastIndexIn c s' (i + 1)%Z in
      if (0 <=? r)%Z then r else if eqc x c then i else (-1)%Z
  end.

(** [s.lastIndexOf(c, from)]: the search starts at [from] clamped to
    [0 .. length - 1] and runs towards the head. *)
Definition lastIndexOf (c : char) (s : jstring) (from : Z) : Z :=
  let start := clamp 0 (zlen s - 1) from in
  lastIndexIn c (firstn (Z.to_nat (start + 1)) s) 0%Z.

(** [s.substring(a, b)]: both ends clamped to [0 .. length], swapped when
    [a > b]. *)
Definition substring (s : jstring) (a b : Z) : jstring :=
  let a' := clamp 0 (zlen s) a in
  let b' := clamp 0 (zlen s) b in
  let lo := Z.min a' b' in
  let hi := Z.max a' b' in
  firstn (Z.to_nat (hi - lo)) (skipn (Z.to_nat lo) s).

(** [s.split(c)] for a one-character separator. *)
Fixpoint split (c : char) (s : jstring) : list jstring :=
  match s with
  | [] => [[]]
  | x :: s' =>
      if eqc x c then [] :: split c s'
      else match split c s' with
           | seg :: segs => (x :: seg) :: segs
           | [] => [[x]]
           end
  end.

(** [parts.join(sep)]. *)
Fixpoint join (sep : jstring) (parts : list jstring) : jstring :=
  match parts with
  | [] => []
  | [p] => p
  | p :: rest => p ++ sep ++ join sep rest
  end.

Fixpoint trimStart (s : jstring) : jstring :=
  match s with
  | [] => []
  | x :: s' => if isSpace x then trimStart s' else s
  end.

Definition trimEnd (s : jstring) : jstring := rev (trimStart (rev s)).

Definition trim (s : jstring) : jstring := trimEnd (trimStart s).

(** Truthiness of a string: the empty string is falsy. *)
Definition truthy (s : jstring) : bool :=
  match s with [] => false | _ :: _ => true end.

(** Truthiness of a possibly undefined string. *)
Definition truthyOpt (o : option jstring) : bool :=
  match o with Some s => truthy s | None => false end.

End Js.

Import Js.

(** ** BaseParser *)

Module BaseParser.

(** [isRelativeImport]: the path starts with a dot or a slash. *)
Definition isRelativeImport (packageName : jstring) : bool :=
  startsWith (str ".") packageName || startsWith (str "/") packageName.

(** [getTopLevelPackage]: scoped packages keep two segments, other paths
    are cut at a slash found at an index greater than zero. *)
Definition getTopLevelPackage (importPath : jstring) : jstring :=
  if startsWith (str "@") importPath then
    let parts := split (ch "/") importPath in
    if 2 <=? List.length parts then
      nth 0 parts [] ++ str "/" ++ nth 1 parts []
    else importPath
  else
    let slashIndex := indexOf (ch "/") importPath in
    if (slashIndex >? 0)%Z then substring importPath 0 slashIndex
    else importPath.

End BaseParser.

(** The resolver as the specification words it, for comparison with
    [BaseParser.getTopLevelPackage]: a scoped path keeps its first two
    segments (unchanged with fewer than two), any other path is cut before
    its first slash when it has one. *)
Definition resolver_as_specified (p : jstring) : jstring :=
  if startsWith (str "@") p then
    match split (ch "/") p with
    | a :: b :: _ => a ++ str "/" ++ b
    | _ => p
    end
  else if includes (ch "/") p then nth 0 (split (ch "/") p) []
  else p.

(** ** Regular expressions

    The patterns of the sources as syntax trees, and a backtracking matcher
    in continuation-passing style.  A continuation is what remains to be
    matched; returning [None] makes the caller try its next alternative,
    which is how ECMAScript backtracks into quantifiers and disjunctions. *)

Module RegExp.

Inductive regex : Type :=
| Eps                                   (* the empty pattern *)
| Cls (p : char -> bool)                (* one code unit of a class *)
| Seq (a b : regex)                     (* ab *)
| Alt (a b : regex)                     (* a|b *)
| Star (a : regex)                      (* a*, greedy *)
| Grp (n : nat) (a : regex)             (* capture group number n *)
| Bol                                   (* ^ *)
| Eol                                   (* $ *)
| WordB                                 (* \b *)
| NotBehind (p : char -> bool)          (* (?<![p]) *)
| Ahead (a : regex).                    (* (?=a) *)

Definition Chr (c : char) : regex := Cls (eqc c).
Definition Plus (a : regex) : regex := Seq a (Star a).
Definition Opt (a : regex) : regex := Alt a Eps.

Fixpoint Lit (s : jstring) : regex :=
  match s with
  | [] => Eps
  | c :: s' => Seq (Chr c) (Lit s')
  end.

Fixpoint Seqs (rs : list regex) : regex :=
  match rs with
  | [] => Eps
  | [r] => r
  | r :: rs' => Seq r (Seqs rs')
  end.

Definition space : regex := Cls isSpace.
Definition word : regex := Cls isWord.
Definition wordOrDot : regex := Cls (fun c => isWord c || eqc c (ch ".")).
Definition anyChar : regex := Cls (fun c => negb (isLineTerminator c)).
Definition quote : regex :=
  Cls (fun c => eqc c (ch "'") || eqc c 34%N).
Definition notQuote : regex :=
  Cls (fun c => negb (eqc c (ch "'") || eqc c 34%N)).
Definition notRBrace : regex := Cls (fun c => negb (eqc c (ch "}"))).

(** The matcher state: the code unit before the current position, the
    position, the text still to read and the captures made so far, the most
    recent first. *)
Record mstate : Type := MState {
  prev : option char;
  pos : nat;
  rest : jstring;
  caps : list (nat * jstring)
}.

Definition cont := mstate -> option mstate.

Definition advance (st : mstate) : mstate :=
  match rest st with
  | [] => st
  | c :: t => MState (Some c) (S (pos st)) t (caps st)
  end.

(** The text read between two states of one run. *)
Definition consumed (from to : mstate) : jstring :=
  firstn (pos to - pos from) (rest from).

Definition setCap (n : nat) (from to : mstate) : mstate :=
  MState (prev to) (pos to) (rest to) ((n, consumed from to) :: caps to).

Definition isWordOpt (o : option char) : bool :=
  match o with Some c => isWord c | None => false end.

Definition atWordBoundary (st : mstate) : bool :=
  xorb (isWordOpt (prev st)) (isWordOpt (hd_error (rest st))).

(** The iterations of [a*]: one more round of the body is tried first, and
    a round that reads nothing is rejected; when no further round leads to
    a match the continuation runs from the current state. *)
Fixpoint starLoop (body : mstate -> cont -> option mstate) (fuel : nat)
    (k : cont) (st : mstate) : option mstate :=
  match fuel with
  | O => k st
  | S fuel' =>
      match body st (fun st' =>
                       if pos st <? pos st' then starLoop body fuel' k st'
                       else None) with
      | Some r => Some r
      | None => k st
      end
  end.

Fixpoint run (r : regex) (st : mstate) (k : cont) {struct r} : option mstate :=
  match r with
  | Eps => k st
  | Cls p =>
      match rest st with
      | c :: _ => if p c then k (advance st) else None
      | [] => None
      end
  | Seq a b => run a st (fun st' => run b st' k)
  | Alt a b =>
      match run a st k with
      | Some e => Some e
      | None => run b st k
      end
  | Star a => starLoop (run a) (S (List.length (rest st))) k st
  | Grp n a => run a st (fun st' => k (setCap n st st'))
  | Bol => if pos st =? 0 then k st else None
  | Eol => match rest st with [] => k st | _ :: _ => None end
  | WordB => if atWordBoundary st then k st else None
  | NotBehind p =>
      match prev st with
      | Some c => if p c then None else k st
      | None => k st
      end
  | Ahead a =>
      match run a st Some with
      | Some e => k (MState (prev st) (pos st) (rest st) (caps e))
      | None => None
      end
  end.

(** A match: where it starts, where it ends, and the captures. *)
Record rmatch : Type := RMatch {
  mstart : mstate;
  mend : mstate
}.

Definition index (m : rmatch) : nat := pos (mstart m).
Definition lastIndex (m : rmatch) : nat := pos (mend m).

(** [match[0]] *)
Definition matched (m : rmatch) : jstring := consumed (mstart m) (mend m).

(** [match[n]], undefined when the group took no part in the match. *)
Fixpoint lookupCap (n : nat) (cs : list (nat * jstring)) : option jstring :=
  match cs with
  | [] => None
  | (i, s) :: cs' => if i =? n then Some s else lookupCap n cs'
  end.

Definition group (n : nat) (m : rmatch) : option jstring :=
  lookupCap n (caps (mend m)).

(** [match[n]] for a group that takes part in every match. *)
Definition groupStr (n : nat) (m : rmatch) : jstring :=
  match group n m with Some s => s | None => [] end.

(** The leftmost match at or after the position of the state. *)
Fixpoint searchFrom (r : regex) (p : option char) (i : nat) (s : jstring)
    : option rmatch :=
  let st := MState p i s [] in
  match run r st Some with
  | Some e => Some (RMatch st e)
  | None =>
      match s with
      | [] => None
      | c :: s' => searchFrom r (Some c) (S i) s'
      end
  end.

(** [s.match(r)] and [r.exec(s)] for a pattern without the global flag. *)
Definition exec (r : regex) (s : jstring) : option rmatch :=
  searchFrom r None 0 s.

(** The successive results of [r.exec(s)] for a global pattern: each search
    resumes where the previous match ended.  None of the patterns of the
    sources matches the empty string, so that [fuel] above the length of the
    text is never used up. *)
Fixpoint execLoop (r : regex) (fuel : nat) (p : option char) (i : nat)
    (s : jstring) : list rmatch :=
  match fuel with
  | O => []
  | S fuel' =>
      match searchFrom r p i s with
      | None => []
      | Some m =>
          m :: execLoop r fuel' (prev (mend m)) (pos (mend m)) (rest (mend m))
      end
  end.

Definition execAll (r : regex) (s : jstring) : list rmatch :=
  execLoop r (S (List.length s)) None 0 s.

(** [s.split(r)[0]]: the text before the first match, all of [s] without
    one.  The separators of the sources never match the empty string. *)
Definition splitHead (r : regex) (s : jstring) : jstring :=
  match exec r s with
  | Some m => firstn (index m) s
  | None => s
  end.

End RegExp.

Import RegExp.

(** ** Documents, positions and ranges (the editor interface) *)

Module Vscode.

Record Position : Type := mkPosition {
  line : nat;
  character : nat
}.

Definition isBefore (p q : Position) : bool :=
  (line p <? line q) || ((line p =? line q) && (character p <? character q)).

Definition isBeforeOrEqual (p q : Position) : bool := negb (isBefore q p).

(** The fields are spelled [rstart] and [rend]; [mkRange] is the
    constructor of the editor, which orders its two ends. *)
Record Range : Type := RangeOf {
  rstart : Position;
  rend : Position
}.

Definition mkRange (a b : Position) : Range :=
  if isBefore b a then RangeOf b a else RangeOf a b.

Definition containsPosition (r : Range) (p : Position) : bool :=
  negb (isBefore p (rstart r) || isBefore (rend r) p).

(** [range.contains(other)] *)
Definition contains (r other : Range) : bool :=
  containsPosition r (rstart other) && containsPosition r (rend other).

(** Two ranges overlap when they share a position. *)
Definition overlaps (r1 r2 : Range) : bool :=
  isBeforeOrEqual (rstart r1) (rend r2) && isBeforeOrEqual (rstart r2) (rend r1).

Record TextDocument : Type := mkDocument {
  languageId : jstring;
  uri : jstring;
  getText : jstring
}.

Definition docLines (d : TextDocument) : list jstring :=
  split LF (getText d).

(** A piece of [text.split('\n')] without the carriage return that ends it
    in a document with CRLF terminators. *)
Definition lineText (piece : jstring) : jstring :=
  match rev piece with
  | c :: r => if eqc c CR then rev r else piece
  | [] => piece
  end.

(** [document.lineAt(i).text]: the text of the line without its terminator.
    The editor raises for a line number outside of the document; the
    parsers only ask for lines below [text.split('\n').length], which is
    the number of lines here. *)
Definition lineAt (d : TextDocument) (i : nat) : jstring :=
  lineText (nth i (docLines d) []).

(** The position of an offset, counted from the line [ln] and the column
    [col] at the head of [s].  A line feed starts a line; the carriage
    return of a CRLF terminator is no column of its line, so that the
    offset between the two is at the end of the line. *)
Fixpoint positionFrom (s : jstring) (offset ln col : nat) : Position :=
  match offset, s with
  | O, _ => mkPosition ln col
  | S _, [] => mkPosition ln col
  | S n, c :: s' =>
      if eqc c LF then positionFrom s' n (S ln) 0
      else if eqc c CR && startsWith [LF] s' then positionFrom s' n ln col
      else positionFrom s' n ln (S col)
  end.

(** [document.positionAt(offset)]; an offset past the end gives the end. *)
Definition positionAt (d : TextDocument) (offset : nat) : Position :=
  positionFrom (getText d) offset 0 0.

End Vscode.

Import Vscode.

(** ** The data model (models/importInfo.ts, models/usageInfo.ts) *)

Inductive Language : Type := python | javascript | typescript.

Record ImportInfo : Type := mkImportInfo {
  packageName : jstring;
  importStatement : jstring;
  language : Language;
  range : Range;
  fileUri : jstring;
  namedImports : option (list jstring);
  isDefaultImport : option bool;
  isRequire : option bool
}.

Record ParseResult : Type := mkParseResult {
  imports : list ImportInfo;
  errors : list jstring
}.

Inductive UsageType : Type :=
| function_call | attribute_access | class_instantiation | reference.

Record UsageLocation : Type := mkUsageLocation {
  urange : Range;
  identifier : jstring;
  usageType : UsageType
}.

Record UsageInfo : Type := mkUsageInfo {
  importInfo : ImportInfo;
  usageLocations : list UsageLocation
}.

Record UsageTrackingResult : Type := mkUsageTrackingResult {
  usages : list UsageInfo;
  totalUsageCount : nat
}.

(** ** PythonParser *)

Module PythonParser.

(** [/^import\s+([\w.]+)(?:\s+as\s+\w+)?/] *)
Definition IMPORT_REGEX : regex :=
  Seqs [Bol; Lit (str "import"); Plus space; Grp 1 (Plus wordOrDot);
        Opt (Seqs [Plus space; Lit (str "as"); Plus space; Plus word])].

(** [/^from\s+([\w.]+)\s+import\s+(.+)/] *)
Definition FROM_IMPORT_REGEX : regex :=
  Seqs [Bol; Lit (str "from"); Plus space; Grp 1 (Plus wordOrDot);
        Plus space; Lit (str "import"); Plus space; Grp 2 (Plus anyChar)].

(** [/^import\s+([\w.\s,]+)/] *)
Definition MULTI_IMPORT_REGEX : regex :=
  Seqs [Bol; Lit (str "import"); Plus space;
        Grp 1 (Plus (Cls (fun c => isWord c || eqc c (ch ".")
                                   || isSpace c || eqc c (ch ","))))].

(** [/\s+as\s+/], the separator of [split] in the alias handling *)
Definition AS_SEPARATOR : regex :=
  Seqs [Plus space; Lit (str "as"); Plus space].

Definition getLineRange (d : TextDocument) (lineIndex : nat) : Range :=
  mkRange (mkPosition lineIndex 0)
          (mkPosition lineIndex (List.length (lineAt d lineIndex))).

Definition createRange (startLine startChar endLine endChar : nat) : Range :=
  mkRange (mkPosition startLine startChar) (mkPosition endLine endChar).

(** The name kept for one comma-separated item: [parts[0].trim()] where
    [parts = item.trim().split(/\s+as\s+/)]. *)
Definition itemName (item : jstring) : jstring :=
  trim (splitHead AS_SEPARATOR (trim item)).

Definition isParen (c : char) : bool := eqc c (ch "(") || eqc c (ch ")").

Definition parseNamedImports (content : jstring) : list jstring :=
  let content := filter (fun c => negb (isParen c)) content in
  filter (fun name => truthy name && negb (eqs name (str "*")))
         (map itemName (split (ch ",") content)).

(** The first continuation loop of [parseFromImport]: lines are taken in
    until one holds a closing parenthesis. *)
Fixpoint parenLoop (fuel : nat) (lines : list jstring) (endLine : nat)
    (importContent : jstring) : nat * jstring :=
  match fuel with
  | O => (endLine, importContent)
  | S fuel' =>
      if (endLine <? List.length lines - 1)
         && negb (includes (ch ")") (nth endLine lines []))
      then parenLoop fuel' lines (S endLine)
             (importContent ++ str " " ++ trim (nth (S endLine) lines []))
      else (endLine, importContent)
  end.

(** The second loop: a line ending in a backslash takes in the next one. *)
Fixpoint backslashLoop (fuel : nat) (lines : list jstring) (endLine : nat)
    (importContent : jstring) : nat * jstring :=
  match fuel with
  | O => (endLine, importContent)
  | S fuel' =>
      if endsWith (str "\") (trimEnd (nth endLine lines []))
         && (endLine <? List.length lines - 1)
      then backslashLoop fuel' lines (S endLine)
             (importContent ++ str " " ++ trim (nth (S endLine) lines []))
      else (endLine, importContent)
  end.

Definition slice (lines : list jstring) (a b : nat) : list jstring :=
  firstn (b - a) (skipn a lines).

Definition parseFromImport (d : TextDocument) (m : rmatch) (startLine : nat)
    (lines : list jstring) : option ImportInfo * nat :=
  let packagePath := groupStr 1 m in
  if startsWith (str ".") packagePath then (None, startLine + 1)
  else
    let importContent := groupStr 2 m in
    let '(endLine, importContent) :=
      if includes (ch "(") importContent
         && negb (includes (ch ")") importContent)
      then parenLoop (List.length lines) lines startLine importContent
      else (startLine, importContent) in
    let '(endLine, importContent) :=
      backslashLoop (List.length lines) lines endLine importContent in
    let named := parseNamedImports importContent in
    let fullStatement := join [LF] (slice lines startLine (endLine + 1)) in
    (Some (mkImportInfo packagePath fullStatement python
             (createRange startLine 0 endLine
                (List.length (nth endLine lines [])))
             (uri d) (Some named) None None),
     endLine + 1).

Definition parseMultiImport (d : TextDocument) (m : rmatch) (lineIndex : nat)
    : list ImportInfo :=
  let packagesStr := groupStr 1 m in
  let packages := map itemName (split (ch ",") packagesStr) in
  map (fun name =>
         mkImportInfo name (lineAt d lineIndex) python
           (getLineRange d lineIndex) (uri d) None None None)
      (filter (fun name => truthy name
                           && negb (BaseParser.isRelativeImport name))
              packages).

Definition simpleImport (d : TextDocument) (m : rmatch) (lineIndex : nat)
    (lines : list jstring) : list ImportInfo :=
  let name := groupStr 1 m in
  if BaseParser.isRelativeImport name then []
  else [mkImportInfo name (nth lineIndex lines []) python
          (getLineRange d lineIndex) (uri d) None None None].

(** One turn of the [while] loop of [parse] at [lineIndex]: the records it
    pushes and the next value of [lineIndex]. *)
Definition parseLine (d : TextDocument) (lines : list jstring)
    (lineIndex : nat) : list ImportInfo * nat :=
  let line := trim (nth lineIndex lines []) in
  if negb (truthy line) || startsWith (str "#") line then ([], S lineIndex)
  else
    match exec FROM_IMPORT_REGEX line with
    | Some fromMatch =>
        let '(imp, next) := parseFromImport d fromMatch lineIndex lines in
        (match imp with Some i => [i] | None => [] end, next)
    | None =>
        match exec MULTI_IMPORT_REGEX line with
        | Some multiMatch => (parseMultiImport d multiMatch lineIndex,
                              S lineIndex)
        | None =>
            match exec IMPORT_REGEX line with
            | Some importMatch =>
                (simpleImport d importMatch lineIndex lines, S lineIndex)
            | None => ([], S lineIndex)
            end
        end
    end.

(** The [while (lineIndex < lines.length)] loop.  Nothing in a turn raises in
    this model, so that the [catch] branch is never taken and no error is
    recorded. *)
Fixpoint parseLoop (fuel : nat) (d : TextDocument) (lines : list jstring)
    (lineIndex : nat) (acc : list ImportInfo) : list ImportInfo :=
  match fuel with
  | O => acc
  | S fuel' =>
      if lineIndex <? List.length lines then
        let '(found, next) := parseLine d lines lineIndex in
        parseLoop fuel' d lines next (acc ++ found)
      else acc
  end.

Definition parse (d : TextDocument) : ParseResult :=
  let lines := split LF (getText d) in
  mkParseResult (parseLoop (List.length lines) d lines 0 []) [].

End PythonParser.

(** ** JsTsParser *)

Module JsTsParser.

Definition commaSep : regex := Seqs [Star space; Chr (ch ","); Star space].

Definition quoted (n : nat) : regex :=
  Seqs [quote; Grp n (Plus notQuote); quote].

(** [/import\s+(?:(?:(\w+)(?:\s*,\s* )?)?(?:\{([^}]+)\})?(?:\s*,\s*(\w+))?\s+from\s+)?Q([^Q]+)Q/g]
    where Q stands for the class of the two quote characters, here and below;
    the blank after the second star is not part of the pattern *)
Definition ES6_IMPORT_REGEX : regex :=
  Seqs [Lit (str "import"); Plus space;
        Opt (Seqs [Opt (Seq (Grp 1 (Plus word)) (Opt commaSep));
                   Opt (Seqs [Chr (ch "{"); Grp 2 (Plus notRBrace);
                              Chr (ch "}")]);
                   Opt (Seq commaSep (Grp 3 (Plus word)));
                   Plus space; Lit (str "from"); Plus space]);
        quoted 4].

(** [/(?:const|let|var)\s+(?:(\w+)|\{([^}]+)\})\s*=\s*require\s*\(\s*Q([^Q]+)Q\s*\)/g] *)
Definition REQUIRE_REGEX : regex :=
  Seqs [Alt (Lit (str "const")) (Alt (Lit (str "let")) (Lit (str "var")));
        Plus space;
        Alt (Grp 1 (Plus word))
            (Seqs [Chr (ch "{"); Grp 2 (Plus notRBrace); Chr (ch "}")]);
        Star space; Chr (ch "="); Star space; Lit (str "require");
        Star space; Chr (ch "("); Star space; quoted 3; Star space;
        Chr (ch ")")].

(** [/import\s*\(\s*Q([^Q]+)Q\s*\)/g] *)
Definition DYNAMIC_IMPORT_REGEX : regex :=
  Seqs [Lit (str "import"); Star space; Chr (ch "("); Star space; quoted 1;
        Star space; Chr (ch ")")].

(** [/export\s+(?:\*|\{[^}]+\})\s+from\s+Q([^Q]+)Q/g] *)
Definition REEXPORT_REGEX : regex :=
  Seqs [Lit (str "export"); Plus space;
        Alt (Chr (ch "*"))
            (Seqs [Chr (ch "{"); Plus notRBrace; Chr (ch "}")]);
        Plus space; Lit (str "from"); Plus space; quoted 1].

Definition getLanguage (d : TextDocument) : Language :=
  let langId := languageId d in
  if eqs langId (str "typescript") || eqs langId (str "typescriptreact")
  then typescript else javascript.

(** [/\s+as\s+/] *)
Definition AS_SEPARATOR : regex :=
  Seqs [Plus space; Lit (str "as"); Plus space].

Definition itemName (item : jstring) : jstring :=
  trim (splitHead AS_SEPARATOR (trim item)).

Definition parseNamedImports (namedImportsStr : jstring) : list jstring :=
  filter (fun name => 0 <? List.length name)
         (map itemName (split (ch ",") namedImportsStr)).

Definition matchRange (d : TextDocument) (m : rmatch) : Range :=
  mkRange (positionAt d (index m))
          (positionAt d (index m + List.length (matched m))).

(** [namedImportsStr ? this.parseNamedImports(namedImportsStr) : undefined] *)
Definition namedOf (g : option jstring) : option (list jstring) :=
  match g with
  | Some s => if truthy s then Some (parseNamedImports s) else None
  | None => None
  end.

(** The record pushed for one match of the ES module pattern, none for a
    relative module path. *)
Definition es6Record (d : TextDocument) (m : rmatch) : list ImportInfo :=
  let defaultImport := group 1 m in
  let namedImportsStr := group 2 m in
  let namespaceImport := group 3 m in
  let modulePath := groupStr 4 m in
  if BaseParser.isRelativeImport modulePath then []
  else [mkImportInfo (BaseParser.getTopLevelPackage modulePath) (matched m)
          (getLanguage d) (matchRange d m) (uri d)
          (namedOf namedImportsStr)
          (Some (truthyOpt defaultImport || truthyOpt namespaceImport))
          (Some false)].

Definition requireRecord (d : TextDocument) (m : rmatch) : list ImportInfo :=
  let defaultImport := group 1 m in
  let namedImportsStr := group 2 m in
  let modulePath := groupStr 3 m in
  if BaseParser.isRelativeImport modulePath then []
  else [mkImportInfo (BaseParser.getTopLevelPackage modulePath) (matched m)
          (getLanguage d) (matchRange d m) (uri d)
          (namedOf namedImportsStr)
          (Some (truthyOpt defaultImport))
          (Some true)].

(** Dynamic imports and re-exports build the same record. *)
Definition plainRecord (d : TextDocument) (m : rmatch) : list ImportInfo :=
  let modulePath := groupStr 1 m in
  if BaseParser.isRelativeImport modulePath then []
  else [mkImportInfo (BaseParser.getTopLevelPackage modulePath) (matched m)
          (getLanguage d) (matchRange d m) (uri d) None None (Some false)].

Definition parseES6Imports (d : TextDocument) (text : jstring)
    : list ImportInfo :=
  flat_map (es6Record d) (execAll ES6_IMPORT_REGEX text).

Definition parseRequires (d : TextDocument) (text : jstring)
    : list ImportInfo :=
  flat_map (requireRecord d) (execAll REQUIRE_REGEX text).

Definition parseDynamicImports (d : TextDocument) (text : jstring)
    : list ImportInfo :=
  flat_map (plainRecord d) (execAll DYNAMIC_IMPORT_REGEX text).

Definition parseReexports (d : TextDocument) (text : jstring)
    : list ImportInfo :=
  flat_map (plainRecord d) (execAll REEXPORT_REGEX text).

(** [seen.has(key)] on the insertion-ordered [Map] *)
Definition has (key : jstring) (seen : list (jstring * ImportInfo)) : bool :=
  existsb (fun kv => eqs (fst kv) key) seen.

(** The [for] loop of [deduplicateImports]: a key is set once, when it is
    first met, and a [Map] lists its entries in the order they were set. *)
Fixpoint dedupLoop (imps : list ImportInfo)
    (seen : list (jstring * ImportInfo)) : list (jstring * ImportInfo) :=
  match imps with
  | [] => seen
  | imp :: imps' =>
      let key := packageName imp in
      if has key seen then dedupLoop imps' seen
      else dedupLoop imps' (seen ++ [(key, imp)])
  end.

Definition deduplicateImports (imps : list ImportInfo) : list ImportInfo :=
  map snd (dedupLoop imps []).

(** The records of the four passes, in the order they are pushed. *)
Definition allImports (d : TextDocument) : list ImportInfo :=
  let text := getText d in
  parseES6Imports d text ++ parseRequires d text
  ++ parseDynamicImports d text ++ parseReexports d text.

Definition parse (d : TextDocument) : ParseResult :=
  mkParseResult (deduplicateImports (allImports d)) [].

End JsTsParser.

(** ** The entry points (parsers/index.ts) *)

Inductive Parser : Type := PythonParserOf | JsTsParserOf.

Definition getParser (d : TextDocument) : option Parser :=
  let languageId := languageId d in
  if eqs languageId (str "python") then Some PythonParserOf
  else if eqs languageId (str "javascript")
          || eqs languageId (str "typescript")
          || eqs languageId (str "javascriptreact")
          || eqs languageId (str "typescriptreact")
  then Some JsTsParserOf
  else None.

Definition parseWith (p : Parser) (d : TextDocument) : ParseResult :=
  match p with
  | PythonParserOf => PythonParser.parse d
  | JsTsParserOf => JsTsParser.parse d
  end.

Definition parseImports (d : TextDocument) : ParseResult :=
  match getParser d with
  | None => mkParseResult [] [str "Unsupported language: " ++ languageId d]
  | Some parser => parseWith parser d
  end.

Definition supportedLanguages : list jstring :=
  [str "python"; str "javascript"; str "typescript"; str "javascriptreact";
   str "typescriptreact"].

Definition isSupportedLanguage (d : TextDocument) : bool :=
  existsb (eqs (languageId d)) supportedLanguages.

(** ** PythonUsageTracker *)

Module PythonUsageTracker.

(** The characters that [escapeRegex] protects: [.*+?^${}()|[\]\\] *)
Definition isSyntaxChar (c : char) : bool :=
  existsb (eqc c) (str ".*+?^${}()|[]\").

(** [str.replace(/[.*+?^${}()|[\]\\]/g, '\\$&')] *)
Fixpoint escapeRegex (s : jstring) : jstring :=
  match s with
  | [] => []
  | c :: s' =>
      if isSyntaxChar c then ch "\" :: c :: escapeRegex s'
      else c :: escapeRegex s'
  end.

(** The pattern that [new RegExp] builds from an escaped text: a backslash
    makes the next character literal, and any other character of an escaped
    text stands for itself. *)
Fixpoint patternOfEscaped (src : jstring) : regex :=
  match src with
  | [] => Eps
  | c :: src' =>
      if eqc c (ch "\") then
        match src' with
        | c' :: src'' => Seq (Chr c') (patternOfEscaped src'')
        | [] => Eps
        end
      else Seq (Chr c) (patternOfEscaped src')
  end.

(** [/import\s+[\w.]+\s+as\s+(\w+)/] *)
Definition ALIAS_REGEX : regex :=
  Seqs [Lit (str "import"); Plus space; Plus wordOrDot; Plus space;
        Lit (str "as"); Plus space; Grp 1 (Plus word)].

(** [new RegExp(`\\b${this.escapeRegex(namedImport)}\\s+as\\s+(\\w+)`)] *)
Definition namedAliasRegex (namedImport : jstring) : regex :=
  Seqs [WordB; patternOfEscaped (escapeRegex namedImport); Plus space;
        Lit (str "as"); Plus space; Grp 1 (Plus word)].

Definition namedIdentifier (statement namedImport : jstring) : jstring :=
  match exec (namedAliasRegex namedImport) statement with
  | Some namedAliasMatch => groupStr 1 namedAliasMatch
  | None => namedImport
  end.

Definition getIdentifiersFromImport (imp : ImportInfo) : list jstring :=
  match exec ALIAS_REGEX (importStatement imp) with
  | Some aliasMatch => [groupStr 1 aliasMatch]
  | None =>
      match namedImports imp with
      | Some (n :: ns) => map (namedIdentifier (importStatement imp)) (n :: ns)
      | _ => [last (split (ch ".") (packageName imp)) []]
      end
  end.

(** The class of the lookahead: [[.([\s,)\]:}=+\-*/<>!&|^%@]] *)
Definition isFollow (c : char) : bool :=
  isSpace c || existsb (eqc c) (str ".([,)]:}=+-*/<>!&|^%@").

(** [new RegExp(`(?<!\\w)${this.escapeRegex(identifier)}(?=\\s*[...])`, 'g')] *)
Definition usagePattern (identifier : jstring) : regex :=
  Seqs [NotBehind isWord; patternOfEscaped (escapeRegex identifier);
        Ahead (Seq (Star space) (Cls isFollow))].

Definition isWithinImportStatement (r : Range) (imp : ImportInfo) : bool :=
  contains (range imp) r.

(** [(s.match(r) || []).length] for a global pattern *)
Definition countMatches (r : regex) (s : jstring) : Z :=
  Z.of_nat (List.length (execAll r s)).

Definition DQUOTE : char := 34%N.
Definition SQUOTE : char := 39%N.

Definition isWithinCommentOrString (position : nat) (text : jstring) : bool :=
  let position := Z.of_nat position in
  let lineStart := (lastIndexOf LF text (position - 1) + 1)%Z in
  let lineEnd := indexOfFrom LF text position in
  let line := substring text lineStart
                (if (lineEnd =? -1)%Z then zlen text else lineEnd) in
  let posInLine := (position - lineStart)%Z in
  let commentStart := indexOf (ch "#") line in
  if negb (commentStart =? -1)%Z && (posInLine >? commentStart)%Z then true
  else
    let beforePos := substring line 0 posInLine in
    let singleQuotes := countMatches (Chr SQUOTE) beforePos in
    let doubleQuotes := countMatches (Chr DQUOTE) beforePos in
    let tripleDoubleQuotes :=
      countMatches (Lit [DQUOTE; DQUOTE; DQUOTE]) beforePos in
    let tripleSingleQuotes :=
      countMatches (Lit [SQUOTE; SQUOTE; SQUOTE]) beforePos in
    if negb (Z.rem (singleQuotes - tripleSingleQuotes * 3) 2 =? 0)%Z then true
    else if negb (Z.rem (doubleQuotes - tripleDoubleQuotes * 3) 2 =? 0)%Z
    then true
    else false.

(** [/(\w+)\s*$/] *)
Definition LAST_WORD_REGEX : regex :=
  Seqs [Grp 1 (Plus word); Star space; Eol].

(** [name[0] === name[0].toUpperCase() && name[0] !== name[0].toLowerCase()]
    for the first character of a [\w+] capture: of the word characters only
    the letters A to Z are their own upper case and differ from their lower
    case. *)
Definition startsUpper (name : jstring) : bool :=
  match name with
  | c :: _ => isUpperAZ c
  | [] => false
  end.

Definition determineUsageType (text : jstring) (posAfterIdentifier : nat)
    : UsageType :=
  let p := Z.of_nat posAfterIdentifier in
  let nextChars := trim (substring text p (p + 10)) in
  if startsWith (str "(") nextChars then
    let prevText := substring text (Z.max 0 (p - 50)) p in
    match exec LAST_WORD_REGEX prevText with
    | Some identifierMatch =>
        if startsUpper (groupStr 1 identifierMatch) then class_instantiation
        else function_call
    | None => function_call
    end
  else if startsWith (str ".") nextChars then attribute_access
  else reference.

(** The offsets of the matches of the pattern that survive the two filters
    of the [while] loop of [findIdentifierUsages]. *)
Definition keptOffset (d : TextDocument) (identifier : jstring)
    (imp : ImportInfo) (offset : nat) : bool :=
  let r := mkRange (positionAt d offset)
                   (positionAt d (offset + List.length identifier)) in
  negb (isWithinImportStatement r imp)
  && negb (isWithinCommentOrString offset (getText d)).

Definition usageOffsets (d : TextDocument) (identifier : jstring)
    (imp : ImportInfo) : list nat :=
  if negb (truthy identifier) then []
  else filter (keptOffset d identifier imp)
              (map index (execAll (usagePattern identifier) (getText d))).

Definition locationAt (d : TextDocument) (identifier : jstring)
    (offset : nat) : UsageLocation :=
  mkUsageLocation
    (mkRange (positionAt d offset)
             (positionAt d (offset + List.length identifier)))
    identifier
    (determineUsageType (getText d) (offset + List.length identifier)).

Definition findIdentifierUsages (d : TextDocument) (identifier : jstring)
    (imp : ImportInfo) : list UsageLocation :=
  map (locationAt d identifier) (usageOffsets d identifier imp).

Definition findUsagesForImport (d : TextDocument) (imp : ImportInfo)
    : list UsageLocation :=
  flat_map (fun identifier => findIdentifierUsages d identifier imp)
           (getIdentifiersFromImport imp).

(** The [for] loop of [trackUsages] with its two accumulators. *)
Fixpoint trackLoop (d : TextDocument) (imps : list ImportInfo)
    (usages : list UsageInfo) (totalUsageCount : nat)
    : list UsageInfo * nat :=
  match imps with
  | [] => (usages, totalUsageCount)
  | imp :: imps' =>
      let usageLocations := findUsagesForImport d imp in
      if 0 <? List.length usageLocations then
        trackLoop d imps' (usages ++ [mkUsageInfo imp usageLocations])
                  (totalUsageCount + List.length usageLocations)
      else trackLoop d imps' usages totalUsageCount
  end.

Definition trackUsages (d : TextDocument) (imps : list ImportInfo)
    : UsageTrackingResult :=
  let '(usages, totalUsageCount) := trackLoop d imps [] 0 in
  mkUsageTrackingResult usages totalUsageCount.

End PythonUsageTracker.

Definition trackPythonUsages (d : TextDocument) (imps : list ImportInfo)
    : UsageTrackingResult :=
  PythonUsageTracker.trackUsages d imps.

(** ** Notions used in the statements *)

(** The number of usage locations held by a list of usage records. *)
Definition locationCount (us : list UsageInfo) : nat :=
  list_sum (map (fun u => List.length (usageLocations u)) us).

(** The matcher state after reading [n] more code units. *)
Fixpoint advanceN (n : nat) (st : mstate) : mstate :=
  match n with
  | O => st
  | S n' => advanceN n' (advance st)
  end.

(** An identifier: a non-empty run of word characters. *)
Definition isIdentifier (w : jstring) : Prop :=
  w <> [] /\ forallb isWord w = true.

(** Two records of one multi-import line: the same range, the same
    statement text, on a single line. *)
Definition sameLineStatement (r1 r2 : ImportInfo) : Prop :=
  range r1 = range r2
  /\ importStatement r1 = importStatement r2
  /\ line (rstart (range r1)) = line (rend (range r1)).

(** The first record ends on a line above the one where the second starts;
    the ranges then share no position. *)
Definition endsAbove (r1 r2 : ImportInfo) : Prop :=
  line (rend (range r1)) < line (rstart (range r2))
  /\ overlaps (range r1) (range r2) = false.

Definition separated (r1 r2 : ImportInfo) : Prop :=
  sameLineStatement r1 r2 \/ endsAbove r1 r2.

(** [R] holds from every element of the list to every later one. *)
Fixpoint orderedPairs {A : Type} (R : A -> A -> Prop) (l : list A) : Prop :=
  match l with
  | [] => True
  | x :: l' => Forall (R x) l' /\ orderedPairs R l'
  end.

(** [st'] is [st] after reading [n] more code units of its text. *)
Definition reaches (st st' : mstate) : Prop :=
  exists n, n <= List.length (rest st)
            /\ pos st' = pos st + n
            /\ rest st' = skipn n (rest st).

(** A text that begins, after optional white space, with one of the
    usage-context characters of the usage pattern. *)
Definition followedByUsageContext (s : jstring) : Prop :=
  exists ws c tail, s = ws ++ c :: tail
                    /\ forallb isSpace ws = true
                    /\ PythonUsageTracker.isFollow c = true.

(** The usage locations that the tracker reports for the first import of a
    Python document. *)
Definition usages_of_first_import (d : TextDocument) : list UsageLocation :=
  match imports (PythonParser.parse d) with
  | imp :: _ => PythonUsageTracker.findUsagesForImport d imp
  | [] => []
  end.

(** The number of occurrences of a quote character in a text. *)
Definition quoteCount (q : char) (s : jstring) : Z :=
  Z.of_nat (count_occ N.eq_dec s q).

(** The number of triple quotes met when the text is read from the left,
    a triple being skipped once it is counted. *)
Fixpoint tripleCount (q : char) (s : jstring) : nat :=
  match s with
  | [] => 0
  | a :: s1 =>
      match s1 with
      | b :: c :: s3 =>
          if eqc q a && (eqc q b && (eqc q c && true))
          then S (tripleCount q s3)
          else tripleCount q s1
      | _ => 0
      end
  end.

(** The parity test on one kind of quote: the count of quotes, minus
    three per triple quote, is odd. *)
Definition oddQuotes (q : char) (s : jstring) : bool :=
  Z.odd (quoteCount q s - Z.of_nat (tripleCount q s) * 3).

(** The comment test as the specification words it: an unescaped hash
    sign outside of any string literal.  The text is read from the left
    with the quote that opened the current literal, if any, and a flag for
    a backslash just read. *)
Fixpoint hashOutsideString (inStr : option char) (escaped : bool)
    (s : jstring) : bool :=
  match s with
  | [] => false
  | c :: s' =>
      if escaped then hashOutsideString inStr false s'
      else if eqc c (ch "\") then hashOutsideString inStr true s'
      else
        match inStr with
        | Some q =>
            if eqc c q then hashOutsideString None false s'
            else hashOutsideString inStr false s'
        | None =>
            if eqc c (ch "#") then true
            else if eqc c PythonUsageTracker.SQUOTE
                    || eqc c PythonUsageTracker.DQUOTE
            then hashOutsideString (Some c) false s'
            else hashOutsideString None false s'
        end
  end.

(** The discard rule as the specification words it, on the part of the
    line that precedes the match. *)
Definition discarded_as_specified (before : jstring) : bool :=
  hashOutsideString None false before
  || oddQuotes PythonUsageTracker.SQUOTE before
  || oddQuotes PythonUsageTracker.DQUOTE before.

(** The two tests of [isWithinCommentOrString] once the line and the
    position in the line are known (the body of the function from
    [commentStart] on). *)
Definition lineVerdict (line : jstring) (posInLine : Z) : bool :=
  let commentStart := indexOf (ch "#") line in
  if negb (commentStart =? -1)%Z && (posInLine >? commentStart)%Z then true
  else
    let beforePos := substring line 0 posInLine in
    let singleQuotes :=
      PythonUsageTracker.countMatches (Chr PythonUsageTracker.SQUOTE) beforePos in
    let doubleQuotes :=
      PythonUsageTracker.countMatches (Chr PythonUsageTracker.DQUOTE) beforePos in
    let tripleDoubleQuotes :=
      PythonUsageTracker.countMatches
        (Lit [PythonUsageTracker.DQUOTE; PythonUsageTracker.DQUOTE;
              PythonUsageTracker.DQUOTE]) beforePos in
    let tripleSingleQuotes :=
      PythonUsageTracker.countMatches
        (Lit [PythonUsageTracker.SQUOTE; PythonUsageTracker.SQUOTE;
              PythonUsageTracker.SQUOTE]) beforePos in
    if negb (Z.rem (singleQuotes - tripleSingleQuotes * 3) 2 =? 0)%Z then true
    else if negb (Z.rem (doubleQuotes - tripleDoubleQuotes * 3) 2 =? 0)%Z
    then true
    else false.

(** A pattern every match of which reads at least one code unit. *)
Fixpoint consumes (r : regex) : bool :=
  match r with
  | Cls _ => true
  | Seq a b => consumes a || consumes b
  | Alt a b => consumes a && consumes b
  | Grp _ a => consumes a
  | _ => false
  end.

(** The earlier range ends where or before the later one starts: the two
    share at most that end point. *)
Definition endsBeforeStart (r1 r2 : ImportInfo) : Prop :=
  isBeforeOrEqual (rend (range r1)) (rstart (range r2)) = true.

(** The four passes of the JS/TS parser over the text of a document. *)
Definition jstsPasses : list (TextDocument -> jstring -> list ImportInfo) :=
  [JsTsParser.parseES6Imports; JsTsParser.parseRequires;
   JsTsParser.parseDynamicImports; JsTsParser.parseReexports].

(** Settles the comparisons of a code unit with constants, once the bounds
    of the code unit are among the hypotheses. *)
Ltac settle_comparisons :=
  repeat match goal with
         | |- context [(?a <=? ?b)%N] =>
             first [ replace (a <=? b)%N with true
                       by (symmetry; apply N.leb_le; lia)
                   | replace (a <=? b)%N with false
                       by (symmetry; apply N.leb_gt; lia) ]
         | |- context [(?a =? ?b)%N] =>
             first [ replace (a =? b)%N with false
                       by (symmetry; apply N.eqb_neq; lia)
                   | replace (a =? b)%N with true
                       by (symmetry; apply N.eqb_eq; lia) ]
         end.

(** ** The workspace scan command *)

Module ScanWorkspace.

(** The text of a language in a template string. *)
Definition languageText (l : Language) : jstring :=
  match l with
  | python => str "python"
  | javascript => str "javascript"
  | typescript => str "typescript"
  end.

(** [`${imp.language}:${imp.packageName}`] *)
Definition dedupKey (imp : ImportInfo) : jstring :=
  languageText (language imp) ++ str ":" ++ packageName imp.

(** The [for] loop of [deduplicateImports], on the insertion-ordered [Map]. *)
Fixpoint dedupLoop (imps : list ImportInfo)
    (seen : list (jstring * ImportInfo)) : list (jstring * ImportInfo) :=
  match imps with
  | [] => seen
  | imp :: imps' =>
      let key := dedupKey imp in
      if JsTsParser.has key seen then dedupLoop imps' seen
      else dedupLoop imps' (seen ++ [(key, imp)])
  end.

Definition deduplicateImports (imps : list ImportInfo) : list ImportInfo :=
  map snd (dedupLoop imps []).

End ScanWorkspace.

(** ** Further notions used in the statements *)

(** A text without white space at either end. *)
Definition tidy (s : jstring) : Prop :=
  (forall x r, s = x :: r -> isSpace x = false)
  /\ (forall r y, s = r ++ [y] -> isSpace y = false).

(** What every record of the Python parser looks like.  Its range starts
    at the head of a line of the document and ends on the same or a later
    line, it is tagged python, carries the uri of the document and leaves
    the JS/TS fields unset.  A from-import record, the one with named
    imports, holds the pieces of [text.split('\n')] from its first to its
    last line, joined by line feeds, and ends at the length of the last
    piece; a record of a multi-import line holds the text of its line as
    the editor gives it and ends at the length of that text. *)
Definition pythonRecordShape (d : TextDocument) (r : ImportInfo) : Prop :=
  let lines := split LF (getText d) in
  let s := line (rstart (range r)) in
  let e := line (rend (range r)) in
  s <= e < List.length lines
  /\ character (rstart (range r)) = 0
  /\ language r = python
  /\ fileUri r = uri d
  /\ isDefaultImport r = None
  /\ isRequire r = None
  /\ match namedImports r with
     | Some _ =>
         character (rend (range r)) = List.length (nth e lines [])
         /\ importStatement r = join [LF] (PythonParser.slice lines s (S e))
     | None =>
         s = e
         /\ character (rend (range r)) = List.length (lineAt d s)
         /\ importStatement r = lineAt d s
     end.

(** The statement of the record is the text of its lines, terminators
    within included, and the range ends at the end of the last line. *)
Definition holdsWholeLines (d : TextDocument) (r : ImportInfo) : Prop :=
  let lines := split LF (getText d) in
  let s := line (rstart (range r)) in
  let e := line (rend (range r)) in
  character (rend (range r)) = List.length (nth e lines [])
  /\ importStatement r = join [LF] (PythonParser.slice lines s (S e)).

(** The record starts on a line of the document whose text, white space at
    its ends aside, begins with one of the two keywords. *)
Definition startsOnImportLine (d : TextDocument) (r : ImportInfo) : Prop :=
  let l := trim (nth (line (rstart (range r))) (split LF (getText d)) []) in
  startsWith (str "from") l = true \/ startsWith (str "import") l = true.

(** What every record of the JS/TS parser looks like: its statement is the
    text of the document between two offsets, its range runs between the
    positions of these offsets, and it carries the language and the uri of
    the document. *)
Definition jstsRecordShape (d : TextDocument) (r : ImportInfo) : Prop :=
  exists i j,
    i < j <= List.length (getText d)
    /\ importStatement r = firstn (j - i) (skipn i (getText d))
    /\ range r = RangeOf (positionAt d i) (positionAt d j)
    /\ language r = JsTsParser.getLanguage d
    /\ fileUri r = uri d.

(** The matcher state sits in the text [s]: its position is an offset of
    [s], the text still to read is what follows the offset, and the code
    unit before the position is the one before the offset. *)
Definition aligned (s : jstring) (st : mstate) : Prop :=
  pos st <= List.length s
  /\ rest st = skipn (pos st) s
  /\ prev st = match pos st with
               | O => None
               | S n => nth_error s n
               end.

(** The kind of usage of an identifier that is followed in the text by
    [after]: read off the first of the next ten code units that is not
    white space, and, before an opening parenthesis, off the first of the
    last fifty code units of the identifier. *)
Definition usageTypeFor (identifier after : jstring) : UsageType :=
  let nextChars := trim (firstn 10 after) in
  if startsWith (str "(") nextChars then
    if PythonUsageTracker.startsUpper
         (skipn (List.length identifier - 50) identifier)
    then class_instantiation
    else function_call
  else if startsWith (str ".") nextChars then attribute_access
  else reference.

(** The text is empty or ends with a code unit that is not a word
    character. *)
Definition endsOutsideWord (s : jstring) : Prop :=
  s = [] \/ exists u c, s = u ++ [c] /\ isWord c = false.

(** The text begins with the keyword [import] followed by white space. *)
Definition importKeywordAt (s : jstring) : bool :=
  startsWith (str "import") s
  && match skipn 6 s with
     | c :: _ => isSpace c
     | [] => false
     end.

(** A non-empty run of white space. *)
Definition isBlank (ws : jstring) : Prop :=
  ws <> [] /\ forallb isSpace ws = true.

(** A dotted name: a non-empty run of word characters and dots. *)
Definition isDottedName (m : jstring) : Prop :=
  m <> [] /\ forallb (fun c => isWord c || eqc c (ch ".")) m = true.

(** The capture groups of a pattern. *)
Fixpoint hasGroup (n : nat) (r : regex) : bool :=
  match r with
  | Seq a b | Alt a b => hasGroup n a || hasGroup n b
  | Star a | Ahead a => hasGroup n a
  | Grp m a => (m =? n) || hasGroup n a
  | _ => false
  end.

(** Group [n] is a run [[p]+] that every match of the pattern goes through,
    and no later part of the pattern sets the group again. *)
Fixpoint setsGroup (n : nat) (p : char -> bool) (r : regex) : Prop :=
  match r with
  | Seq a b => (setsGroup n p a /\ hasGroup n b = false) \/ setsGroup n p b
  | Alt a b => setsGroup n p a /\ setsGroup n p b
  | Grp m a => m = n /\ a = Plus (Cls p)
  | _ => False
  end.

(** The state holds, for group [n], a non-empty text of the class [p]. *)
Definition captured (n : nat) (p : char -> bool) (st : mstate) : Prop :=
  exists ws, ws <> [] /\ forallb p ws = true
             /\ lookupCap n (caps st) = Some ws.

(** A package name that a record may carry: not empty, not relative. *)
Definition namesPackage (r : ImportInfo) : Prop :=
  packageName r <> []
  /\ BaseParser.isRelativeImport (packageName r) = false.

(** The text begins with one of the keywords. *)
Definition opensWith (kws : list jstring) (s : jstring) : bool :=
  existsb (fun kw => startsWith kw s) kws.

(** The statement of a JS/TS record begins with a keyword that goes with
    its [isRequire] flag, which is always set. *)
Definition keywordMatchesFlag (r : ImportInfo) : Prop :=
  match isRequire r with
  | Some true =>
      opensWith [str "const"; str "let"; str "var"] (importStatement r) = true
  | Some false =>
      opensWith [str "import"; str "export"] (importStatement r) = true
  | None => False
  end.

(** ** Import statements with named imports

    The statements that carry a list of named imports, written out with
    the white space that the patterns of the parsers allow. *)

















(** * Properties *)

(** ** Strings *)

Lemma eqc_true (a b : char) : eqc a b = true <-> a = b.
Proof. unfold eqc. apply N.eqb_eq. Qed.

Lemma eqc_false (a b : char) : eqc a b = false <-> a <> b.
Proof. unfold eqc. apply N.eqb_neq. Qed.

Lemma eqc_refl (a : char) : eqc a a = true.
Proof. apply eqc_true. reflexivity. Qed.

Lemma eqc_sym (a b : char) : eqc a b = eqc b a.
Proof. unfold eqc. apply N.eqb_sym. Qed.

Lemma eqs_true (a b : jstring) : eqs a b = true <-> a = b.
Proof.
  revert b. induction a as [|x a IH]; intros [|y b]; simpl; split;
    try congruence; try reflexivity.
  - intros H. apply andb_true_iff in H as [H1 H2].
    apply eqc_true in H1. apply IH in H2. congruence.
  - intros H. injection H as -> ->. rewrite eqc_refl. simpl. now apply IH.
Qed.

Lemma includes_false_app (c : char) (u v : jstring) :
  includes c (u ++ v) = includes c u || includes c v.
Proof. unfold includes. apply existsb_app. Qed.

(** Every text either lacks the separator or splits at its first
    occurrence. *)
Lemma first_occurrence (c : char) (s : jstring) :
  includes c s = false
  \/ exists u v, s = u ++ c :: v /\ includes c u = false.
Proof.
  induction s as [|x s IH]; [now left|].
  unfold includes in *. simpl. destruct (eqc c x) eqn:E.
  - right. exists [], s. apply eqc_true in E. subst. now split.
  - simpl. destruct IH as [IH | (u & v & -> & Hu)]; [now left|].
    right. exists (x :: u), v. split; [reflexivity|]. simpl. now rewrite E.
Qed.

Lemma split_absent (c : char) (s : jstring) :
  includes c s = false -> split c s = [s].
Proof.
  induction s as [|x s IH]; [reflexivity|].
  unfold includes. simpl. rewrite eqc_sym. destruct (eqc x c); [discriminate|].
  simpl. intros H. now rewrite (IH H).
Qed.

Lemma split_first (c : char) (u v : jstring) :
  includes c u = false -> split c (u ++ c :: v) = u :: split c v.
Proof.
  induction u as [|x u IH]; simpl.
  - now rewrite eqc_refl.
  - unfold includes. simpl. rewrite eqc_sym.
    destruct (eqc x c); [discriminate|]. simpl. intros H.
    now rewrite (IH H).
Qed.

Lemma indexOf_absent (c : char) (s : jstring) :
  includes c s = false -> indexOf c s = (-1)%Z.
Proof.
  induction s as [|x s IH]; [reflexivity|].
  unfold includes. simpl. rewrite eqc_sym. destruct (eqc x c); [discriminate|].
  simpl. intros H. now rewrite (IH H).
Qed.

Lemma indexOf_first (c : char) (u v : jstring) :
  includes c u = false -> indexOf c (u ++ c :: v) = Z.of_nat (List.length u).
Proof.
  induction u as [|x u IH]; simpl.
  - now rewrite eqc_refl.
  - unfold includes. simpl. rewrite eqc_sym.
    destruct (eqc x c); [discriminate|]. simpl. intros H.
    rewrite (IH H). destruct (Z.ltb_spec (Z.of_nat (List.length u)) 0); lia.
Qed.

Lemma substring_prefix (u v : jstring) :
  substring (u ++ v) 0 (Z.of_nat (List.length u)) = u.
Proof.
  unfold substring, clamp, zlen. rewrite length_app.
  replace (Z.min (Z.max 0 0) _) with 0%Z by lia.
  replace (Z.min (Z.max (Z.of_nat (List.length u)) 0) _)
    with (Z.of_nat (List.length u)) by lia.
  replace (Z.min 0 _) with 0%Z by lia.
  replace (Z.max 0 _) with (Z.of_nat (List.length u)) by lia.
  rewrite Z.sub_0_r, Nat2Z.id. simpl.
  rewrite firstn_app, firstn_all, Nat.sub_diag. simpl. apply app_nil_r.
Qed.

Lemma startsWith_app (p u v : jstring) :
  u <> [] -> List.length p = 1 -> startsWith p (u ++ v) = startsWith p u.
Proof.
  destruct p as [|x [|? ?]]; try discriminate.
  destruct u; [congruence|]. intros _ _. simpl.
  now rewrite !andb_true_r.
Qed.

(** ** The package identity resolver *)

Import BaseParser.

Lemma getTopLevelPackage_scoped (p a b : jstring) (more : list jstring) :
  startsWith (str "@") p = true ->
  split (ch "/") p = a :: b :: more ->
  getTopLevelPackage p = a ++ str "/" ++ b.
Proof.
  intros Hs Hp. unfold getTopLevelPackage. rewrite Hs, Hp. reflexivity.
Qed.

Lemma getTopLevelPackage_scoped_short (p a : jstring) :
  startsWith (str "@") p = true ->
  split (ch "/") p = [a] ->
  getTopLevelPackage p = p.
Proof.
  intros Hs Hp. unfold getTopLevelPackage. rewrite Hs, Hp. reflexivity.
Qed.

Lemma getTopLevelPackage_cut (u v : jstring) :
  startsWith (str "@") (u ++ ch "/" :: v) = false ->
  includes (ch "/") u = false -> u <> [] ->
  getTopLevelPackage (u ++ ch "/" :: v) = u.
Proof.
  intros Hs Hu Hne. unfold getTopLevelPackage. rewrite Hs.
  rewrite (indexOf_first _ _ v Hu).
  destruct u as [|x u]; [congruence|].
  replace (Z.of_nat (List.length (x :: u)) >? 0)%Z with true
    by (symmetry; apply Z.gtb_lt; simpl; lia).
  apply substring_prefix.
Qed.

Lemma getTopLevelPackage_leading_slash (p : jstring) :
  startsWith (str "/") p = true -> getTopLevelPackage p = p.
Proof.
  destruct p as [|x p]; [reflexivity|].
  change (startsWith (str "/") (x :: p)) with (eqc (ch "/") x && true).
  rewrite andb_true_r. intros H. apply eqc_true in H. subst x. reflexivity.
Qed.

Lemma getTopLevelPackage_no_slash (p : jstring) :
  startsWith (str "@") p = false -> includes (ch "/") p = false ->
  getTopLevelPackage p = p.
Proof.
  intros Hs Hp. unfold getTopLevelPackage. rewrite Hs.
  now rewrite (indexOf_absent _ _ Hp).
Qed.

Lemma split_two (c : char) (u b : jstring) :
  includes c u = false -> includes c b = false ->
  split c (u ++ c :: b) = [u; b].
Proof.
  intros Hu Hb. now rewrite (split_first c u b Hu), (split_absent c b Hb).
Qed.

Lemma getTopLevelPackage_scoped_two (u b : jstring) :
  startsWith (str "@") u = true ->
  includes (ch "/") u = false -> includes (ch "/") b = false ->
  getTopLevelPackage (u ++ ch "/" :: b) = u ++ ch "/" :: b.
Proof.
  intros Hs Hu Hb.
  assert (Hne : u <> []) by (intros ->; discriminate).
  apply (getTopLevelPackage_scoped _ u b []).
  - now rewrite startsWith_app.
  - now apply split_two.
Qed.

(** C9. Resolving a resolved name changes nothing: for every module path
    [p], [getTopLevelPackage (getTopLevelPackage p) = getTopLevelPackage p]. *)
Theorem getTopLevelPackage_idempotent (p : jstring) :
  getTopLevelPackage (getTopLevelPackage p) = getTopLevelPackage p.
Proof.
  destruct (startsWith (str "@") p) eqn:Hs.
  - destruct (first_occurrence (ch "/") p) as [Hno | (u & v & -> & Hu)].
    + rewrite (getTopLevelPackage_scoped_short p p Hs (split_absent _ _ Hno)).
      apply (getTopLevelPackage_scoped_short p p Hs (split_absent _ _ Hno)).
    + assert (Hne : u <> []) by (intros ->; discriminate).
      assert (Hsu : startsWith (str "@") u = true)
        by (now rewrite <- (startsWith_app (str "@") u (ch "/" :: v) Hne)).
      destruct (first_occurrence (ch "/") v) as [Hv | (b & w & -> & Hb)].
      * now rewrite !(getTopLevelPackage_scoped_two u v Hsu Hu Hv).
      * rewrite (getTopLevelPackage_scoped _ u b (split (ch "/") w) Hs).
        -- apply (getTopLevelPackage_scoped_two u b Hsu Hu Hb).
        -- now rewrite (split_first _ u _ Hu), (split_first _ b _ Hb).
  - destruct (first_occurrence (ch "/") p) as [Hno | (u & v & -> & Hu)].
    + now rewrite !(getTopLevelPackage_no_slash p Hs Hno).
    + destruct u as [|x u].
      * change ([] ++ ch "/" :: v) with (ch "/" :: v).
        now rewrite !(getTopLevelPackage_leading_slash (ch "/" :: v)).
      * assert (Hne : x :: u <> []) by discriminate.
        rewrite (getTopLevelPackage_cut (x :: u) v Hs Hu Hne).
        apply getTopLevelPackage_no_slash; [|exact Hu].
        now rewrite <- (startsWith_app (str "@") (x :: u) (ch "/" :: v) Hne).
Qed.

(** On every path that does not begin with a slash the code and the
    wording of the specification agree. *)
Lemma getTopLevelPackage_resolver (p : jstring) :
  startsWith (str "/") p = false ->
  getTopLevelPackage p = resolver_as_specified p.
Proof.
  intros Hslash. unfold resolver_as_specified.
  destruct (startsWith (str "@") p) eqn:Hs.
  - unfold getTopLevelPackage. rewrite Hs.
    destruct (split (ch "/") p) as [|a [|b more]]; reflexivity.
  - destruct (first_occurrence (ch "/") p) as [Hno | (u & v & -> & Hu)].
    + rewrite Hno. now apply getTopLevelPackage_no_slash.
    + destruct u as [|x u]; [discriminate|].
      rewrite (getTopLevelPackage_cut (x :: u) v Hs Hu) by discriminate.
      rewrite includes_false_app, (split_first _ _ _ Hu).
      replace (includes (ch "/") (ch "/" :: v)) with true
        by (unfold includes; cbn [existsb]; now rewrite eqc_refl).
      now rewrite orb_true_r.
Qed.

(** C7. For every module path that the resolver is given, that is, every
    path that is not a relative import, [getTopLevelPackage] returns what
    the specification says: for a path that begins with [@] the first two
    slash-delimited segments joined by a slash (the path unchanged when it
    has fewer than two segments); otherwise the text before the first
    slash if there is one, else the whole path. *)
Theorem getTopLevelPackage_as_specified (p : jstring) :
  isRelativeImport p = false ->
  getTopLevelPackage p = resolver_as_specified p.
Proof.
  intros H. apply getTopLevelPackage_resolver. unfold isRelativeImport in H.
  now apply orb_false_iff in H as [_ H].
Qed.

Lemma getTopLevelPackage_as_specified_witness :
  getTopLevelPackage (str "@angular/core") = str "@angular/core"
  /\ getTopLevelPackage (str "lodash/map") = str "lodash"
  /\ getTopLevelPackage (str "@solo") = str "@solo"
  /\ getTopLevelPackage (str "requests") = str "requests".
Proof.
  split; [|split; [|split]].
  - exact (getTopLevelPackage_as_specified (str "@angular/core") eq_refl).
  - exact (getTopLevelPackage_as_specified (str "lodash/map") eq_refl).
  - exact (getTopLevelPackage_as_specified (str "@solo") eq_refl).
  - exact (getTopLevelPackage_as_specified (str "requests") eq_refl).
Defined.

(** A path with a leading slash is returned whole, where the text before
    its first slash is empty; the extractors skip such a path, a relative
    import, before they resolve. *)
Remark leading_slash_kept :
  getTopLevelPackage (str "/lodash/map") = str "/lodash/map"
  /\ resolver_as_specified (str "/lodash/map") = []
  /\ isRelativeImport (str "/lodash/map") = true.
Proof. repeat split. Qed.

(** ** The entry point *)

Lemma getParser_unsupported (d : TextDocument) :
  isSupportedLanguage d = false -> getParser d = None.
Proof.
  unfold isSupportedLanguage, supportedLanguages, getParser. simpl existsb.
  intros H. repeat (apply orb_false_iff in H as [? H]).
  repeat match goal with E : eqs _ _ = false |- _ => rewrite E; clear E end.
  reflexivity.
Qed.

(** C8. A document whose language tag is none of the supported ones gets
    an empty import list and exactly one error string, which names the tag;
    [parseImports] is a total function, it has no failing path. *)
Theorem parseImports_unsupported (d : TextDocument) :
  isSupportedLanguage d = false ->
  imports (parseImports d) = []
  /\ errors (parseImports d) = [str "Unsupported language: " ++ languageId d].
Proof.
  intros H. unfold parseImports. rewrite (getParser_unsupported d H).
  split; reflexivity.
Qed.

Lemma parseImports_unsupported_witness :
  let d := mkDocument (str "ruby") (str "file:///a.rb") (str "require 'json'") in
  imports (parseImports d) = []
  /\ errors (parseImports d) = [str "Unsupported language: ruby"].
Proof.
  exact (parseImports_unsupported
           (mkDocument (str "ruby") (str "file:///a.rb") (str "require 'json'"))
           eq_refl).
Defined.

(** ** The usage tracker: counting *)

Import PythonUsageTracker.

Lemma locationCount_app (us vs : list UsageInfo) :
  locationCount (us ++ vs) = locationCount us + locationCount vs.
Proof. unfold locationCount. now rewrite map_app, list_sum_app. Qed.

Lemma trackLoop_invariant (d : TextDocument) (imps : list ImportInfo) :
  forall (us : list UsageInfo) (total : nat),
    total = locationCount us ->
    Forall (fun u => usageLocations u <> []) us ->
    snd (trackLoop d imps us total) = locationCount (fst (trackLoop d imps us total))
    /\ Forall (fun u => usageLocations u <> []) (fst (trackLoop d imps us total)).
Proof.
  induction imps as [|imp imps IH]; intros us total Ht Hne; simpl.
  - now split.
  - destruct (findUsagesForImport d imp) as [|l ls] eqn:E; simpl.
    + now apply IH.
    + apply IH.
      * rewrite locationCount_app, Ht. unfold locationCount. simpl. lia.
      * apply Forall_app. split; [exact Hne|].
        constructor; [simpl; discriminate | constructor].
Qed.

(** C10. For every document and import list, [totalUsageCount] is the sum
    of the lengths of the [usageLocations] of the returned records, and no
    returned record has an empty [usageLocations]. *)
Theorem trackUsages_count (d : TextDocument) (imps : list ImportInfo) :
  totalUsageCount (trackUsages d imps)
  = list_sum (map (fun u => List.length (usageLocations u))
                  (usages (trackUsages d imps)))
  /\ Forall (fun u => usageLocations u <> []) (usages (trackUsages d imps)).
Proof.
  unfold trackUsages.
  destruct (trackLoop_invariant d imps [] 0 eq_refl (Forall_nil _)) as [H1 H2].
  destruct (trackLoop d imps [] 0) as [us total]. simpl in *. now split.
Qed.

(** ** Deduplication in the JS/TS parser *)

Import JsTsParser.

Lemma has_In (key : jstring) (seen : list (jstring * ImportInfo)) :
  has key seen = true <-> In key (map fst seen).
Proof.
  unfold has. rewrite existsb_exists, in_map_iff. split.
  - intros (kv & Hin & E). apply eqs_true in E. now exists kv.
  - intros (kv & E & Hin). exists kv. split; [exact Hin|]. now apply eqs_true.
Qed.

Lemma has_not_In (key : jstring) (seen : list (jstring * ImportInfo)) :
  has key seen = false <-> ~ In key (map fst seen).
Proof.
  rewrite <- has_In. destruct (has key seen); split; congruence.
Qed.

(** What the loop keeps: the entries it starts from, then every record that
    is the first of its package name, among the records still to come and the
    keys already set. *)
Lemma dedupLoop_spec (imps : list ImportInfo) :
  forall seen : list (jstring * ImportInfo),
    NoDup (map fst seen) ->
    (forall kv, In kv seen -> fst kv = packageName (snd kv)) ->
    NoDup (map fst (dedupLoop imps seen))
    /\ (forall kv, In kv (dedupLoop imps seen) -> fst kv = packageName (snd kv))
    /\ (forall imp, In imp (map snd (dedupLoop imps seen)) <->
          In imp (map snd seen)
          \/ exists l1 l2, imps = l1 ++ imp :: l2
               /\ ~ In (packageName imp) (map packageName l1)
               /\ ~ In (packageName imp) (map fst seen)).
Proof.
  induction imps as [|x imps IH]; intros seen Hnd Hkey; simpl.
  - split; [exact Hnd|]. split; [exact Hkey|]. intros imp. split.
    + now left.
    + intros [H | (l1 & l2 & E & _)]; [exact H|]. now destruct l1.
  - destruct (has (packageName x) seen) eqn:Hhas.
    + destruct (IH seen Hnd Hkey) as (I1 & I2 & I3).
      split; [exact I1|]. split; [exact I2|]. intros imp. rewrite I3.
      apply has_In in Hhas. split.
      * intros [H | (l1 & l2 & -> & Hl1 & Hs)]; [now left|]. right.
        exists (x :: l1), l2. split; [reflexivity|]. split; [|exact Hs].
        simpl. intros [E | Hin]; [|now apply Hl1].
        apply Hs. now rewrite <- E.
      * intros [H | (l1 & l2 & E & Hl1 & Hs)]; [now left|].
        destruct l1 as [|y l1]; simpl in E; injection E as -> ->.
        -- contradiction.
        -- right. exists l1, l2. split; [reflexivity|]. split; [|exact Hs].
           intros Hin. apply Hl1. now right.
    + apply has_not_In in Hhas.
      assert (Hnd' : NoDup (map fst (seen ++ [(packageName x, x)]))).
      { rewrite map_app. simpl. apply NoDup_app; [exact Hnd | | ].
        - constructor; [intros []|constructor].
        - intros k Hk [<- | []]. contradiction. }
      assert (Hkey' : forall kv, In kv (seen ++ [(packageName x, x)]) ->
                                 fst kv = packageName (snd kv)).
      { intros kv Hin. apply in_app_or in Hin as [Hin | [<- | []]];
          [now apply Hkey | reflexivity]. }
      destruct (IH _ Hnd' Hkey') as (I1 & I2 & I3).
      split; [exact I1|]. split; [exact I2|]. intros imp. rewrite I3.
      rewrite !map_app. simpl. split.
      * intros [H | (l1 & l2 & -> & Hl1 & Hs)].
        -- apply in_app_or in H as [H | [<- | []]]; [now left|].
           right. exists [], imps. split; [reflexivity|]. now split.
        -- right. exists (x :: l1), l2. split; [reflexivity|].
           split.
           ++ simpl. intros [E | Hin]; [|now apply Hl1].
              apply Hs. apply in_or_app. right. now left.
           ++ intros Hin. apply Hs. apply in_or_app. now left.
      * intros [H | (l1 & l2 & E & Hl1 & Hs)].
        -- left. apply in_or_app. now left.
        -- destruct l1 as [|y l1]; simpl in E; injection E as -> ->.
           ++ left. apply in_or_app. right. now left.
           ++ right. exists l1, l2. split; [reflexivity|]. split.
              ** intros Hin. apply Hl1. now right.
              ** intros Hin. apply in_app_or in Hin as [Hin | [E | []]].
                 --- now apply Hs.
                 --- apply Hl1. now left.
Qed.

Lemma deduplicateImports_spec (imps : list ImportInfo) :
  NoDup (map packageName (deduplicateImports imps))
  /\ (forall imp, In imp (deduplicateImports imps) <->
        exists l1 l2, imps = l1 ++ imp :: l2
          /\ ~ In (packageName imp) (map packageName l1)).
Proof.
  destruct (dedupLoop_spec imps [] (NoDup_nil _)) as (I1 & I2 & I3).
  { intros kv []. }
  unfold deduplicateImports. split.
  - rewrite map_map.
    replace (map (fun kv => packageName (snd kv)) (dedupLoop imps []))
      with (map fst (dedupLoop imps [])); [exact I1|].
    apply map_ext_in. exact I2.
  - intros imp. rewrite I3. simpl. split.
    + intros [[] | (l1 & l2 & E & H & _)]. now exists l1, l2.
    + intros (l1 & l2 & E & H). right. exists l1, l2. tauto.
Qed.

Lemma jstring_eq_dec (a b : jstring) : {a = b} + {a <> b}.
Proof. apply list_eq_dec. apply N.eq_dec. Qed.

(** The first record of a given package name. *)
Lemma first_of_package (k : jstring) (l : list ImportInfo) :
  In k (map packageName l) ->
  exists l1 imp l2, l = l1 ++ imp :: l2 /\ packageName imp = k
                    /\ ~ In k (map packageName l1).
Proof.
  induction l as [|x l IH]; simpl; [intros []|].
  destruct (jstring_eq_dec (packageName x) k) as [E | NE].
  - intros _. exists [], x, l. now repeat split.
  - intros [E | Hin]; [contradiction|].
    destruct (IH Hin) as (l1 & imp & l2 & -> & Hk & Hl1).
    exists (x :: l1), imp, l2. repeat split; [exact Hk|].
    simpl. intros [E | H]; contradiction.
Qed.

(** C1, as the code has it (JS/TS). For every JS/TS document the records
    returned by the parser have pairwise distinct package names; a record
    is returned exactly when it is the first of its package name in the
    order the four passes pushed the records; and every package name that
    was pushed is still represented.  Two imports of one package give
    one record, the first one. *)
Theorem jsts_parse_deduplicated (d : TextDocument) :
  NoDup (map packageName (imports (JsTsParser.parse d)))
  /\ (forall imp, In imp (imports (JsTsParser.parse d)) <->
        exists l1 l2, allImports d = l1 ++ imp :: l2
          /\ ~ In (packageName imp) (map packageName l1))
  /\ (forall imp, In imp (allImports d) ->
        In (packageName imp) (map packageName (imports (JsTsParser.parse d))))
  /\ map importStatement
       (imports (parseImports
          (mkDocument (str "javascript") (str "file:///a.js")
             (str "import fs from 'os'" ++ LF :: str "import os from 'os'"))))
     = [str "import fs from 'os'"].
Proof.
  simpl imports at 1 2 3.
  destruct (deduplicateImports_spec (allImports d)) as [H1 H2].
  split; [exact H1|]. split; [exact H2|]. split; [|reflexivity].
  intros imp Hin.
  destruct (first_of_package (packageName imp) (allImports d))
    as (l1 & imp' & l2 & E & Hk & Hl1).
  { now apply in_map. }
  rewrite <- Hk. apply in_map. apply H2. exists l1, l2. split; [exact E|].
  now rewrite Hk.
Qed.

Lemma jsts_parse_deduplicated_witness :
  let d := mkDocument (str "typescript") (str "file:///a.ts")
             (str "import fs from 'os'" ++ LF :: str "const os = require('os')") in
  NoDup (map packageName (imports (JsTsParser.parse d)))
  /\ In (str "os") (map packageName (imports (JsTsParser.parse d))).
Proof.
  intros d. split; [exact (proj1 (jsts_parse_deduplicated d))|].
  assert (H : exists imp, In imp (allImports d) /\ packageName imp = str "os").
  { vm_compute. eexists. split; [right; left; reflexivity|reflexivity]. }
  destruct H as (imp & Hin & E). rewrite <- E.
  exact (proj1 (proj2 (proj2 (jsts_parse_deduplicated d))) imp Hin).
Defined.

(** C1 as worded fails for Python, whose parser has no deduplication
    step: two [import os] lines give two records. *)
Lemma python_import_os_twice :
  map packageName
    (imports (parseImports
       (mkDocument (str "python") (str "file:///a.py")
          (str "import os" ++ LF :: str "import os"))))
  = [str "os"; str "os"].
Proof. reflexivity. Qed.

(** ** The ES module pattern on namespace imports *)

(** C6 at its failing inputs: a namespace import, alone or after a default
    binding, matches nothing and gives no record; default and named
    bindings are recognised, and [isDefaultImport] follows the default
    binding. *)
Theorem es6_namespace_import_unrecognised :
  let ts (text : string) := mkDocument (str "typescript") (str "file:///a.ts") (str text) in
  imports (parseImports (ts "import * as ns from 'pkg'"%string)) = []
  /\ imports (parseImports (ts "import def, * as ns from 'pkg'"%string)) = []
  /\ map isDefaultImport (imports (parseImports (ts "import def from 'pkg'"%string)))
     = [Some true]
  /\ map isDefaultImport (imports (parseImports (ts "import { a } from 'pkg'"%string)))
     = [Some false]
  /\ map isDefaultImport
       (imports (parseImports (ts "import def, { a } from 'pkg'"%string)))
     = [Some true].
Proof. vm_compute. repeat split. Qed.

(** ** Character classes *)

Lemma isWord_range (c : char) :
  isWord c = true -> (48 <= c <= 122)%N.
Proof.
  unfold isWord. intros H.
  repeat (apply orb_true_iff in H as [H | H]);
    repeat (apply andb_true_iff in H as [? H]);
    repeat match goal with
           | E : (_ <=? _)%N = true |- _ => apply N.leb_le in E
           | E : (_ =? _)%N = true |- _ => apply N.eqb_eq in E
           end; lia.
Qed.

Lemma isWord_not_space (c : char) : isWord c = true -> isSpace c = false.
Proof.
  intros H. apply isWord_range in H. unfold isSpace. settle_comparisons.
  reflexivity.
Qed.


Lemma isWord_not_paren (c : char) :
  isWord c = true -> PythonParser.isParen c = false.
Proof.
  intros H. apply isWord_range in H. unfold PythonParser.isParen, eqc, ch.
  simpl N_of_ascii. settle_comparisons. reflexivity.
Qed.

(** ** The matcher on literals and on the alias separator *)

Lemma run_Lit (s : jstring) :
  forall (st : mstate) (k : cont),
    run (Lit s) st k
    = if startsWith s (rest st) then k (advanceN (List.length s) st) else None.
Proof.
  induction s as [|c s IH]; intros st k; [reflexivity|].
  change (Lit (c :: s)) with (Seq (Chr c) (Lit s)).
  cbn [run Chr]. destruct st as [p i [|x r] cs]; cbn [rest startsWith];
    [reflexivity|].
  destruct (eqc c x); [|reflexivity]. cbn [andb]. rewrite IH. reflexivity.
Qed.




(** ** Named imports keep the original names *)

Lemma forallb_weaken (p q : char -> bool) (s : jstring) :
  (forall c, p c = true -> q c = true) ->
  forallb p s = true -> forallb q s = true.
Proof.
  intros Hpq. induction s as [|c s IH]; simpl; [reflexivity|].
  intros H. apply andb_true_iff in H as [Hc Hs].
  now rewrite (Hpq c Hc), (IH Hs).
Qed.








Lemma split_nonempty (c : char) (s : jstring) : split c s <> [].
Proof.
  destruct s as [|x s]; simpl; [discriminate|].
  destruct (eqc x c); [discriminate|]. destruct (split c s); discriminate.
Qed.


Lemma word_no_paren (w : jstring) :
  forallb isWord w = true ->
  forallb (fun c => negb (PythonParser.isParen c)) w = true.
Proof.
  apply forallb_weaken. intros c Hc. now rewrite (isWord_not_paren c Hc).
Qed.




(** ** Ranges of the records of the Python parser *)

Import PythonParser.

Lemma orderedPairs_app (A : Type) (R : A -> A -> Prop) (l1 l2 : list A) :
  orderedPairs R l1 -> orderedPairs R l2 ->
  (forall x y, In x l1 -> In y l2 -> R x y) ->
  orderedPairs R (l1 ++ l2).
Proof.
  induction l1 as [|x l1 IH]; simpl; intros H1 H2 H12; [exact H2|].
  destruct H1 as [Hx H1]. split.
  - apply Forall_app. split; [exact Hx|].
    apply Forall_forall. intros y Hy. apply H12; [now left|exact Hy].
  - apply IH; [exact H1|exact H2|]. intros a b Ha Hb. apply H12; [now right|exact Hb].
Qed.

Lemma orderedPairs_split (A : Type) (R : A -> A -> Prop)
    (l1 l2 l3 : list A) (x y : A) :
  orderedPairs R (l1 ++ x :: l2 ++ y :: l3) -> R x y.
Proof.
  induction l1 as [|a l1 IH]; simpl.
  - intros [H _]. rewrite Forall_forall in H. apply H.
    apply in_or_app. right. now left.
  - intros [_ H]. now apply IH.
Qed.

Lemma lines_above_disjoint (r1 r2 : Range) :
  line (rend r1) < line (rstart r2) -> overlaps r1 r2 = false.
Proof.
  intros H. unfold overlaps, isBeforeOrEqual, isBefore.
  apply andb_false_iff. right. apply negb_false_iff.
  apply orb_true_iff. left. now apply Nat.ltb_lt.
Qed.

Lemma mkRange_ordered (l1 c1 l2 c2 : nat) :
  l1 < l2 \/ (l1 = l2 /\ c1 <= c2) ->
  mkRange (mkPosition l1 c1) (mkPosition l2 c2)
  = RangeOf (mkPosition l1 c1) (mkPosition l2 c2).
Proof.
  intros H. unfold mkRange, isBefore. simpl.
  replace ((l2 <? l1) || (l2 =? l1) && (c2 <? c1)) with false; [reflexivity|].
  symmetry. apply orb_false_iff. split.
  - apply Nat.ltb_ge. lia.
  - destruct H as [H | [-> H]].
    + apply andb_false_iff. left. apply Nat.eqb_neq. lia.
    + apply andb_false_iff. right. apply Nat.ltb_ge. lia.
Qed.

Lemma getLineRange_lines (d : TextDocument) (i : nat) :
  line (rstart (getLineRange d i)) = i /\ line (rend (getLineRange d i)) = i.
Proof.
  unfold getLineRange. rewrite mkRange_ordered by (right; split; lia).
  now split.
Qed.

Lemma parenLoop_grows (fuel : nat) (lines : list jstring) :
  forall (e : nat) (c : jstring), e <= fst (parenLoop fuel lines e c).
Proof.
  induction fuel as [|fuel IH]; intros e c; cbn [parenLoop fst]; [lia|].
  destruct (_ && _); cbn [fst]; [|lia].
  eapply Nat.le_trans; [|apply IH]. lia.
Qed.

Lemma backslashLoop_grows (fuel : nat) (lines : list jstring) :
  forall (e : nat) (c : jstring), e <= fst (backslashLoop fuel lines e c).
Proof.
  induction fuel as [|fuel IH]; intros e c; cbn [backslashLoop fst]; [lia|].
  destruct (_ && _); cbn [fst]; [|lia].
  eapply Nat.le_trans; [|apply IH]. lia.
Qed.

(** The record of a from-import starts on the line of the statement and
    ends on the last line taken in; the scan resumes below it. *)
Lemma parseFromImport_range (d : TextDocument) (m : rmatch) (startLine : nat)
    (lines : list jstring) :
  startLine < snd (parseFromImport d m startLine lines)
  /\ match fst (parseFromImport d m startLine lines) with
     | Some imp =>
         line (rstart (range imp)) = startLine
         /\ line (rend (range imp)) < snd (parseFromImport d m startLine lines)
     | None => True
     end.
Proof.
  unfold parseFromImport.
  destruct (startsWith (str ".") (groupStr 1 m)); [simpl; lia|].
  set (first := if _ && _ then _ else _).
  assert (H1 : startLine <= fst first).
  { subst first. destruct (_ && _); [apply parenLoop_grows | simpl; lia]. }
  destruct first as [e1 c1]. simpl in H1.
  pose proof (backslashLoop_grows (List.length lines) lines e1 c1) as H2.
  destruct (backslashLoop (List.length lines) lines e1 c1) as [e2 c2].
  simpl in H2. cbn [fst snd range]. unfold createRange.
  rewrite mkRange_ordered by lia. simpl. lia.
Qed.

Lemma orderedPairs_weaken (A : Type) (R S : A -> A -> Prop) (l : list A) :
  (forall x y, R x y -> S x y) -> orderedPairs R l -> orderedPairs S l.
Proof.
  intros HRS. induction l as [|x l IH]; simpl; [trivial|].
  intros [H1 H2]. split; [|now apply IH].
  revert H1. apply Forall_impl. apply HRS.
Qed.

Lemma multi_records_same_line (d : TextDocument) (i : nat)
    (names : list jstring) :
  let record name :=
    mkImportInfo name (lineAt d i) python (getLineRange d i) (uri d)
                 None None None in
  orderedPairs sameLineStatement (map record names)
  /\ forall r, In r (map record names) -> range r = getLineRange d i.
Proof.
  intros record. split.
  - induction names as [|n names IH]; simpl; [trivial|]. split; [|exact IH].
    apply Forall_forall. intros r Hr. apply in_map_iff in Hr as (n' & <- & _).
    unfold sameLineStatement. simpl.
    destruct (getLineRange_lines d i) as [-> ->]. now repeat split.
  - intros r Hr. apply in_map_iff in Hr as (n' & <- & _). reflexivity.
Qed.

(** One turn of the loop: the scan moves down, the records found start on
    the current line and end above the next one, and records found together
    are those of one multi-import line. *)
Lemma parseLine_ranges (d : TextDocument) (lines : list jstring) (i : nat) :
  i < snd (parseLine d lines i)
  /\ (forall r, In r (fst (parseLine d lines i)) ->
        line (rstart (range r)) = i
        /\ line (rend (range r)) < snd (parseLine d lines i))
  /\ orderedPairs sameLineStatement (fst (parseLine d lines i)).
Proof.
  unfold parseLine.
  destruct (negb _ || _); [simpl; repeat split; (lia || tauto)|].
  destruct (exec FROM_IMPORT_REGEX _) as [fromMatch|].
  - pose proof (parseFromImport_range d fromMatch i lines) as [H1 H2].
    destruct (parseFromImport d fromMatch i lines) as [[imp|] next];
      cbn [fst snd] in *.
    + split; [exact H1|]. split; [|simpl; split; [constructor|trivial]].
      intros r [<- | []]. exact H2.
    + split; [exact H1|]. split; [intros r []|exact I].
  - destruct (exec MULTI_IMPORT_REGEX _) as [multiMatch|].
    + unfold parseMultiImport. cbn [fst snd].
      destruct (multi_records_same_line d i
                  (filter (fun name => truthy name
                                       && negb (BaseParser.isRelativeImport name))
                          (map itemName
                               (split (ch ",") (groupStr 1 multiMatch)))))
        as [H1 H2].
      split; [lia|]. split; [|exact H1].
      intros r Hr. rewrite (H2 r Hr).
      destruct (getLineRange_lines d i) as [-> ->]. lia.
    + destruct (exec IMPORT_REGEX _) as [importMatch|];
        [|simpl; repeat split; (lia || tauto)].
      unfold simpleImport. cbn [fst snd].
      destruct (BaseParser.isRelativeImport _);
        [simpl; repeat split; (lia || tauto)|].
      split; [lia|]. split; [|simpl; split; [constructor|trivial]].
      intros r [<- | []]. cbn [range].
      destruct (getLineRange_lines d i) as [-> ->]. lia.
Qed.

Lemma parseLoop_separated (fuel : nat) (d : TextDocument)
    (lines : list jstring) :
  forall (i : nat) (acc : list ImportInfo),
    orderedPairs separated acc ->
    (forall r, In r acc -> line (rend (range r)) < i) ->
    orderedPairs separated (parseLoop fuel d lines i acc).
Proof.
  induction fuel as [|fuel IH]; intros i acc Hacc Hend; simpl; [exact Hacc|].
  destruct (i <? List.length lines); [|exact Hacc].
  destruct (parseLine_ranges d lines i) as (Hnext & Hfound & Hsame).
  destruct (parseLine d lines i) as [found next]. cbn [fst snd] in *.
  apply IH.
  - apply orderedPairs_app.
    + exact Hacc.
    + revert Hsame. apply orderedPairs_weaken. intros x y H. now left.
    + intros x y Hx Hy. right.
      assert (H : line (rend (range x)) < line (rstart (range y))).
      { destruct (Hfound y Hy) as [-> _]. now apply Hend. }
      split; [exact H|]. now apply lines_above_disjoint.
  - intros r Hr. apply in_app_or in Hr as [Hr | Hr].
    + specialize (Hend r Hr). lia.
    + now apply Hfound.
Qed.

(** The loop stops by itself: once the fuel covers the lines still to scan,
    more fuel changes nothing. *)
Lemma parseLoop_fuel (d : TextDocument) (lines : list jstring) (fuel : nat) :
  forall (fuel' i : nat) (acc : list ImportInfo),
    List.length lines - i <= fuel -> List.length lines - i <= fuel' ->
    parseLoop fuel d lines i acc = parseLoop fuel' d lines i acc.
Proof.
  induction fuel as [|fuel IH]; intros fuel' i acc H H'.
  - destruct fuel' as [|fuel']; [reflexivity|]. simpl.
    destruct (Nat.ltb_spec i (List.length lines)); [lia|reflexivity].
  - destruct fuel' as [|fuel']; simpl;
      destruct (Nat.ltb_spec i (List.length lines)); try reflexivity; try lia.
    pose proof (parseLine_ranges d lines i) as (Hnext & _).
    destruct (parseLine d lines i) as [found next]. cbn [snd] in Hnext.
    apply IH; lia.
Qed.

(** In the output of the Python parser, of any two records the earlier
    one ends on a line above the line where the later one starts, unless
    both come from one multi-import line. *)
Lemma python_pairs_separated (d : TextDocument)
    (l1 l2 l3 : list ImportInfo) (x y : ImportInfo) :
  imports (PythonParser.parse d) = l1 ++ x :: l2 ++ y :: l3 ->
  separated x y.
Proof.
  intros E. apply (orderedPairs_split _ separated l1 l2 l3). rewrite <- E.
  unfold PythonParser.parse. cbn [imports].
  apply parseLoop_separated; [exact I|intros r []].
Qed.


(** ** The matcher only moves forward *)

Lemma reaches_refl (st : mstate) : reaches st st.
Proof. exists 0. simpl. repeat split; lia. Qed.

Lemma reaches_trans (a b c : mstate) : reaches a b -> reaches b c -> reaches a c.
Proof.
  intros (n & Hn & Hp & Hr) (m & Hm & Hq & Hs). exists (n + m).
  rewrite Hr in Hm, Hs. rewrite length_skipn in Hm.
  rewrite skipn_skipn in Hs. repeat split; try lia.
  now rewrite (Nat.add_comm n m).
Qed.

Lemma reaches_advance (st : mstate) : reaches st (advance st).
Proof.
  destruct st as [p i [|c r] cs]; unfold advance; simpl.
  - apply reaches_refl.
  - exists 1. simpl. repeat split; lia.
Qed.

Lemma reaches_same_text (st st' : mstate) :
  pos st' = pos st -> rest st' = rest st -> reaches st st'.
Proof. intros Hp Hr. exists 0. simpl. repeat split; (lia || congruence). Qed.

Lemma starLoop_reaches (body : mstate -> cont -> option mstate) (k : cont) :
  (forall st k' e, body st k' = Some e ->
     exists st', reaches st st' /\ k' st' = Some e) ->
  forall (fuel : nat) (st e : mstate),
    starLoop body fuel k st = Some e ->
    exists st', reaches st st' /\ k st' = Some e.
Proof.
  intros Hbody. induction fuel as [|fuel IH]; intros st e; simpl.
  - intros H. exists st. split; [apply reaches_refl|exact H].
  - destruct (body st _) as [r|] eqn:E.
    + intros [= ->]. apply Hbody in E as (st1 & H1 & E).
      destruct (pos st <? pos st1); [|discriminate].
      apply IH in E as (st' & H2 & E). exists st'. split; [|exact E].
      now apply (reaches_trans st st1 st').
    + intros H. exists st. split; [apply reaches_refl|exact H].
Qed.

(** Whatever the pattern, the continuation is entered further along the text
    read so far. *)
Lemma run_reaches (r : regex) :
  forall (st : mstate) (k : cont) (e : mstate),
    run r st k = Some e -> exists st', reaches st st' /\ k st' = Some e.
Proof.
  induction r as [ | p | a IHa b IHb | a IHa b IHb | a IHa | n a IHa
                 | | | | p | a IHa ]; intros st k e; cbn [run].
  - intros H. exists st. split; [apply reaches_refl|exact H].
  - destruct (rest st) as [|c t] eqn:E; [discriminate|].
    destruct (p c); [|discriminate]. intros H. exists (advance st).
    split; [apply reaches_advance|exact H].
  - intros H. apply IHa in H as (st1 & H1 & H). apply IHb in H as (st2 & H2 & H).
    exists st2. split; [now apply (reaches_trans st st1 st2)|exact H].
  - destruct (run a st k) as [x|] eqn:E.
    + intros [= ->]. now apply IHa.
    + apply IHb.
  - apply starLoop_reaches. exact IHa.
  - intros H. apply IHa in H as (st1 & H1 & H). eexists. split; [|exact H].
    apply (reaches_trans st st1); [exact H1|]. now apply reaches_same_text.
  - destruct (pos st =? 0); [|discriminate]. intros H. exists st.
    split; [apply reaches_refl|exact H].
  - destruct (rest st); [|discriminate]. intros H. exists st.
    split; [apply reaches_refl|exact H].
  - destruct (atWordBoundary st); [|discriminate]. intros H. exists st.
    split; [apply reaches_refl|exact H].
  - destruct (prev st) as [c|]; [destruct (p c); [discriminate|]|];
      intros H; exists st; (split; [apply reaches_refl|exact H]).
  - destruct (run a st Some) as [x|]; [|discriminate]. intros H. eexists.
    split; [|exact H]. now apply reaches_same_text.
Qed.

Lemma searchFrom_spec (r : regex) (s : jstring) :
  forall (p : option char) (i : nat) (m : rmatch),
    searchFrom r p i s = Some m ->
    exists n, n <= List.length s
              /\ pos (mstart m) = i + n
              /\ rest (mstart m) = skipn n s
              /\ run r (mstart m) Some = Some (mend m).
Proof.
  induction s as [|c s IH]; intros p i m; cbn [searchFrom].
  - destruct (run r _ Some) as [e|] eqn:E; [|discriminate].
    intros [= <-]. exists 0. simpl. repeat split; (lia || exact E).
  - destruct (run r _ Some) as [e|] eqn:E.
    + intros [= <-]. exists 0. simpl. repeat split; (lia || exact E).
    + intros H. apply IH in H as (n & Hn & Hp & Hr & H). exists (S n).
      simpl. repeat split; (lia || assumption).
Qed.

(** Every result of the global loop is a match of the pattern at its index
    in the text. *)
Lemma execLoop_spec (r : regex) (fuel : nat) :
  forall (p : option char) (i : nat) (s : jstring) (m : rmatch),
    In m (execLoop r fuel p i s) ->
    exists n, n <= List.length s
              /\ pos (mstart m) = i + n
              /\ rest (mstart m) = skipn n s
              /\ run r (mstart m) Some = Some (mend m).
Proof.
  induction fuel as [|fuel IH]; intros p i s m; cbn [execLoop]; [intros []|].
  destruct (searchFrom r p i s) as [m0|] eqn:E; [|intros []].
  apply searchFrom_spec in E as (n0 & Hn0 & Hp0 & Hr0 & Hrun0).
  intros [<- | Hin]; [now exists n0|].
  pose proof Hrun0 as Hrun0'.
  apply run_reaches in Hrun0' as (st' & (k & Hk & Hpk & Hrk) & [= ->]).
  apply IH in Hin as (n & Hn & Hp & Hr & Hrun).
  rewrite Hrk, Hr0 in Hn, Hr. rewrite skipn_skipn in Hn, Hr.
  rewrite length_skipn in Hn. rewrite skipn_skipn in Hr.
  rewrite Hr0, length_skipn in Hk. rewrite <- Nat.add_assoc in Hr.
  exists (n + (k + n0)). repeat split; try lia; assumption.
Qed.

(** ** The usage pattern *)

Lemma patternOfEscaped_escapeRegex (s : jstring) :
  patternOfEscaped (escapeRegex s) = Lit s.
Proof.
  induction s as [|c s IH]; [reflexivity|]. cbn [escapeRegex].
  destruct (isSyntaxChar c) eqn:E.
  - cbn [patternOfEscaped]. rewrite eqc_refl, IH. reflexivity.
  - cbn [patternOfEscaped].
    assert (Hc : eqc c (ch "\") = false).
    { unfold isSyntaxChar in E. cbn [str list_ascii_of_string map existsb] in E.
      repeat (apply orb_false_iff in E as [? E]). assumption. }
    rewrite Hc, IH. reflexivity.
Qed.

Lemma rest_advanceN (n : nat) :
  forall st : mstate, rest (advanceN n st) = skipn n (rest st).
Proof.
  induction n as [|n IH]; intros st; [reflexivity|]. cbn [advanceN].
  rewrite IH. destruct st as [p i [|c r] cs]; unfold advance; simpl;
    [now destruct n|reflexivity].
Qed.

Lemma startsWith_firstn (p s : jstring) :
  startsWith p s = true -> firstn (List.length p) s = p.
Proof.
  revert s. induction p as [|x p IH]; intros [|y s]; simpl;
    try reflexivity; try discriminate.
  intros H. apply andb_true_iff in H as [Hx Hp]. apply eqc_true in Hx.
  subst y. now rewrite (IH s Hp).
Qed.

(** A greedy run over one class reads code units of the class only. *)
Lemma starLoop_class (p : char -> bool) (k : cont) (fuel : nat) :
  forall (st e : mstate),
    starLoop (run (Cls p)) fuel k st = Some e ->
    exists ws st', rest st = ws ++ rest st'
                   /\ forallb p ws = true /\ k st' = Some e.
Proof.
  induction fuel as [|fuel IH]; intros st e; cbn [starLoop].
  - intros H. exists [], st. now repeat split.
  - destruct (run (Cls p) st _) as [x|] eqn:E.
    + intros [= ->]. cbn [run] in E.
      destruct (rest st) as [|c t] eqn:Er; [discriminate|].
      destruct (p c) eqn:Ec; [|discriminate].
      destruct (pos st <? pos (advance st)); [|discriminate].
      apply IH in E as (ws & st' & Hr & Hws & Hk).
      exists (c :: ws), st'. unfold advance in Hr. rewrite Er in Hr.
      cbn [rest] in Hr. cbn [app forallb]. now rewrite <- Hr, Ec, Hws.
    + intros H. exists [], st. now repeat split.
Qed.

Lemma lookahead_followed (st e : mstate) :
  run (Seq (Star space) (Cls isFollow)) st Some = Some e ->
  followedByUsageContext (rest st).
Proof.
  cbn [run]. intros H.
  apply starLoop_class in H as (ws & st' & Hr & Hws & Hk).
  destruct (rest st') as [|c tail]; [discriminate|].
  destruct (isFollow c) eqn:Ec; [|discriminate].
  now exists ws, c, tail.
Qed.

(** A match of the usage pattern is an occurrence of the identifier that is
    followed, after optional white space, by a usage-context character. *)
Lemma usagePattern_match (identifier : jstring) (st e : mstate) :
  run (usagePattern identifier) st Some = Some e ->
  firstn (List.length identifier) (rest st) = identifier
  /\ followedByUsageContext (skipn (List.length identifier) (rest st)).
Proof.
  unfold usagePattern. rewrite patternOfEscaped_escapeRegex.
  cbn [Seqs run]. intros H.
  assert (H' : run (Lit identifier) st
                 (fun st' => match run (Seq (Star space) (Cls isFollow)) st' Some with
                             | Some e0 => Some (MState (prev st') (pos st')
                                                  (rest st') (caps e0))
                             | None => None
                             end) = Some e).
  { destruct (prev st) as [c|]; [destruct (isWord c); [discriminate|]|];
      exact H. }
  clear H. rewrite run_Lit in H'.
  destruct (startsWith identifier (rest st)) eqn:Es; [|discriminate].
  split; [now apply startsWith_firstn|].
  destruct (run (Seq (Star space) (Cls isFollow)) _ Some) as [e0|] eqn:E;
    [|discriminate].
  apply lookahead_followed in E. now rewrite rest_advanceN in E.
Qed.

Lemma usageOffsets_matches (d : TextDocument) (identifier : jstring)
    (imp : ImportInfo) (offset : nat) :
  In offset (usageOffsets d identifier imp) ->
  exists m, In m (execAll (usagePattern identifier) (getText d))
            /\ index m = offset.
Proof.
  unfold usageOffsets. destruct (negb (truthy identifier)); [intros []|].
  intros H. apply filter_In in H as [H _].
  apply in_map_iff in H as (m & E & Hm). now exists m.
Qed.

Lemma usageOffsets_followed (d : TextDocument) (identifier : jstring)
    (imp : ImportInfo) (offset : nat) :
  In offset (usageOffsets d identifier imp) ->
  firstn (List.length identifier) (skipn offset (getText d)) = identifier
  /\ followedByUsageContext
       (skipn (offset + List.length identifier) (getText d)).
Proof.
  intros H. apply usageOffsets_matches in H as (m & Hm & <-).
  unfold execAll in Hm.
  apply execLoop_spec in Hm as (n & Hn & Hp & Hr & Hrun).
  apply usagePattern_match in Hrun as [H1 H2].
  unfold index. rewrite Hp. simpl. rewrite Hr in H1, H2.
  split; [exact H1|]. rewrite skipn_skipn in H2.
  now rewrite Nat.add_comm.
Qed.

(** C5, as the code has it. Every offset kept by the usage locator is an
    occurrence of the identifier followed, after optional white space, by
    one of the usage-context characters, and every reported location is
    built from such an offset.  So an occurrence without a qualifying
    follow character is never reported; in particular an identifier that
    ends the text, with nothing after it, is not. *)
Theorem usage_needs_follow_character (d : TextDocument)
    (identifier : jstring) (imp : ImportInfo) :
  (forall loc, In loc (findIdentifierUsages d identifier imp) ->
     exists offset, In offset (usageOffsets d identifier imp)
                    /\ loc = locationAt d identifier offset)
  /\ (forall offset, In offset (usageOffsets d identifier imp) ->
        firstn (List.length identifier) (skipn offset (getText d)) = identifier
        /\ followedByUsageContext
             (skipn (offset + List.length identifier) (getText d)))
  /\ (forall offset,
        ~ followedByUsageContext
            (skipn (offset + List.length identifier) (getText d)) ->
        ~ In offset (usageOffsets d identifier imp))
  /\ (forall offset,
        List.length (getText d) <= offset + List.length identifier ->
        ~ In offset (usageOffsets d identifier imp)).
Proof.
  split; [|split; [|split]].
  - intros loc H. unfold findIdentifierUsages in H.
    apply in_map_iff in H as (offset & <- & H). now exists offset.
  - apply usageOffsets_followed.
  - intros offset Hno Hin. apply Hno.
    exact (proj2 (usageOffsets_followed d identifier imp offset Hin)).
  - intros offset Hend Hin.
    apply usageOffsets_followed in Hin as [_ (ws & c & tail & E & _)].
    rewrite skipn_all2 in E by exact Hend. now destruct ws.
Qed.

Lemma usage_needs_follow_character_witness :
  let d := mkDocument (str "python") (str "file:///a.py")
             (str "import os" ++ LF :: str "x = os.getcwd()" ++ LF :: str "os") in
  let imp := mkImportInfo (str "os") (str "import os") python
               (RangeOf (mkPosition 0 0) (mkPosition 0 9)) (uri d)
               None None None in
  usageOffsets d (str "os") imp = [14]
  /\ followedByUsageContext (skipn (14 + 2) (getText d))
  /\ (In 26 (usageOffsets d (str "os") imp) -> False).
Proof.
  intros d imp. split; [vm_compute; reflexivity|]. split.
  - apply (proj1 (proj2 (usage_needs_follow_character d (str "os") imp)) 14).
    vm_compute. left. reflexivity.
  - apply (proj2 (proj2 (proj2 (usage_needs_follow_character d (str "os") imp)))
             26).
    vm_compute. apply le_n.
Defined.

(** C5 as worded fails at the end of a line: white space is one of the
    follow characters and a line feed is white space, so that a bare
    identifier that ends a line which is not the last one is followed by a
    qualifying character, and it is reported. *)
Lemma bare_identifier_at_line_end_reported :
  let d := mkDocument (str "python") (str "file:///a.py")
             (str "import os" ++ LF :: str "os" ++ LF :: str "x = 1") in
  nth 1 (split LF (getText d)) [] = str "os"
  /\ map (fun l => (urange l, usageType l)) (usages_of_first_import d)
     = [(RangeOf (mkPosition 1 0) (mkPosition 1 2), reference)].
Proof. vm_compute. split; reflexivity. Qed.

(** ** Counting quotes with the matcher *)

Lemma execLoop_char_count (q : char) (s : jstring) :
  forall (fuel : nat) (p : option char) (i : nat),
    List.length s < fuel ->
    List.length (execLoop (Cls (eqc q)) fuel p i s) = count_occ N.eq_dec s q.
Proof.
  induction s as [|c s IH]; intros fuel p i Hf;
    (destruct fuel as [|fuel]; [simpl in Hf; lia|]).
  - reflexivity.
  - cbn [execLoop searchFrom run rest]. simpl in Hf.
    unfold eqc at 1. destruct (N.eqb_spec q c) as [<- | NE].
    + cbn [List.length mend prev pos rest advance].
      rewrite IH by lia. simpl. destruct (N.eq_dec q q); congruence.
    + change (match searchFrom (Cls (eqc q)) (Some c) (S i) s with
              | Some m => m :: execLoop (Cls (eqc q)) fuel (prev (mend m))
                                (pos (mend m)) (rest (mend m))
              | None => []
              end)
        with (execLoop (Cls (eqc q)) (S fuel) (Some c) (S i) s).
      rewrite IH by lia. simpl. destruct (N.eq_dec c q); congruence.
Qed.

Lemma countMatches_char (q : char) (s : jstring) :
  countMatches (Chr q) s = quoteCount q s.
Proof.
  unfold countMatches, quoteCount, execAll, Chr. f_equal.
  apply execLoop_char_count. lia.
Qed.

Lemma tripleCount_miss (q a : char) (s1 : jstring) :
  startsWith [q; q; q] (a :: s1) = false ->
  tripleCount q (a :: s1) = tripleCount q s1.
Proof.
  destruct s1 as [|b [|c s3]]; try reflexivity.
  cbn [startsWith tripleCount]. now intros ->.
Qed.

Lemma startsWith_length (p s : jstring) :
  startsWith p s = true -> List.length p <= List.length s.
Proof.
  revert s. induction p as [|x p IH]; intros [|y s]; simpl;
    try lia; try discriminate.
  intros H. apply andb_true_iff in H as [_ H]. specialize (IH s H). lia.
Qed.

Lemma execLoop_triple_count (q : char) (n : nat) :
  forall (s : jstring) (fuel : nat) (p : option char) (i : nat),
    List.length s <= n -> List.length s < fuel ->
    List.length (execLoop (Lit [q; q; q]) fuel p i s) = tripleCount q s.
Proof.
  induction n as [|n IH]; intros s fuel p i Hn Hf;
    (destruct fuel as [|fuel]; [lia|]).
  - destruct s; [reflexivity|simpl in Hn; lia].
  - destruct s as [|a s1]; [reflexivity|]. simpl in Hn, Hf.
    cbn [execLoop searchFrom]. rewrite run_Lit. cbn [rest].
    destruct (startsWith [q; q; q] (a :: s1)) eqn:E.
    + pose proof (startsWith_length _ _ E) as HL.
      destruct s1 as [|b [|c s3]]; try (simpl in HL; lia).
      cbv [advanceN advance mend prev pos rest List.length].
      simpl in Hn, Hf. rewrite IH by lia.
      cbn [startsWith] in E. cbn [tripleCount]. now rewrite E.
    + change (match searchFrom (Lit [q; q; q]) (Some a) (S i) s1 with
              | Some m => m :: execLoop (Lit [q; q; q]) fuel (prev (mend m))
                                (pos (mend m)) (rest (mend m))
              | None => []
              end)
        with (execLoop (Lit [q; q; q]) (S fuel) (Some a) (S i) s1).
      rewrite IH by lia. symmetry. now apply tripleCount_miss.
Qed.

Lemma countMatches_triple (q : char) (s : jstring) :
  countMatches (Lit [q; q; q]) s = Z.of_nat (tripleCount q s).
Proof.
  unfold countMatches, execAll. f_equal.
  apply (execLoop_triple_count q (List.length s)); lia.
Qed.

Lemma rem2_odd (x : Z) : negb (Z.rem x 2 =? 0)%Z = Z.odd x.
Proof.
  destruct (Z.odd x) eqn:E.
  - apply negb_true_iff, Z.eqb_neq. intros H.
    apply Z.rem_divide in H; [|lia]. destruct H as [k ->].
    rewrite Z.mul_comm, Z.odd_mul in E. discriminate.
  - apply negb_false_iff, Z.eqb_eq.
    rewrite <- Z.negb_even in E. apply negb_false_iff, Z.even_spec in E.
    destruct E as [k ->]. rewrite Z.mul_comm. apply Z.rem_mul. lia.
Qed.

(** ** The comment and string test *)

Lemma isWithinCommentOrString_unfold (position : nat) (text : jstring) :
  isWithinCommentOrString position text
  = let lineStart := (lastIndexOf LF text (Z.of_nat position - 1) + 1)%Z in
    let lineEnd := indexOfFrom LF text (Z.of_nat position) in
    lineVerdict
      (substring text lineStart
                 (if (lineEnd =? -1)%Z then zlen text else lineEnd))
      (Z.of_nat position - lineStart).
Proof. reflexivity. Qed.

Lemma indexOf_lower (c : char) (s : jstring) : (-1 <= indexOf c s)%Z.
Proof.
  induction s as [|x s IH]; simpl; [lia|].
  destruct (eqc x c); [lia|]. destruct (Z.ltb_spec (indexOf c s) 0); lia.
Qed.

Lemma lastIndexIn_absent (c : char) (s : jstring) :
  forall i : Z, includes c s = false -> lastIndexIn c s i = (-1)%Z.
Proof.
  induction s as [|x s IH]; intros i; [reflexivity|].
  unfold includes. cbn [existsb lastIndexIn]. rewrite eqc_sym.
  destruct (eqc x c); [discriminate|]. cbn [orb]. intros H.
  rewrite (IH (i + 1)%Z H). reflexivity.
Qed.

Lemma lastIndexIn_last (c : char) (u v : jstring) :
  includes c v = false ->
  forall i : Z, (0 <= i)%Z ->
    lastIndexIn c (u ++ c :: v) i = (i + Z.of_nat (List.length u))%Z.
Proof.
  intros Hv. induction u as [|x u IH]; intros i Hi.
  - cbn [app lastIndexIn]. rewrite (lastIndexIn_absent c v (i + 1)%Z Hv).
    rewrite eqc_refl. simpl. lia.
  - cbn [app lastIndexIn]. rewrite IH by lia.
    destruct (Z.leb_spec 0 (i + 1 + Z.of_nat (List.length u))); [|lia].
    simpl List.length. lia.
Qed.

Lemma lastIndexIn_lower (c : char) (s : jstring) :
  forall i : Z, (0 <= i)%Z -> (-1 <= lastIndexIn c s i)%Z.
Proof.
  induction s as [|x s IH]; intros i Hi; cbn [lastIndexIn]; [lia|].
  specialize (IH (i + 1)%Z ltac:(lia)).
  destruct (Z.leb_spec 0 (lastIndexIn c s (i + 1))); [lia|].
  destruct (eqc x c); lia.
Qed.

Lemma substring_middle (a m c : jstring) :
  substring (a ++ m ++ c) (Z.of_nat (List.length a))
            (Z.of_nat (List.length a + List.length m)) = m.
Proof.
  unfold substring, clamp, zlen. rewrite !length_app.
  replace (Z.min (Z.max (Z.of_nat (List.length a)) 0) _)
    with (Z.of_nat (List.length a)) by lia.
  replace (Z.min (Z.max (Z.of_nat (List.length a + List.length m)) 0) _)
    with (Z.of_nat (List.length a + List.length m)) by lia.
  replace (Z.min _ _) with (Z.of_nat (List.length a)) by lia.
  replace (Z.max _ _) with (Z.of_nat (List.length a + List.length m)) by lia.
  replace (Z.of_nat (List.length a + List.length m) - Z.of_nat (List.length a))%Z
    with (Z.of_nat (List.length m)) by lia.
  rewrite !Nat2Z.id, skipn_app, skipn_all, Nat.sub_diag. simpl.
  rewrite firstn_app, firstn_all, Nat.sub_diag. simpl. apply app_nil_r.
Qed.

Lemma substring_nothing (s : jstring) (z : Z) :
  (z <= 0)%Z -> substring s 0 z = [].
Proof.
  intros Hz. unfold substring, clamp.
  replace (Z.max _ _ - Z.min _ _)%Z with 0%Z; [reflexivity|].
  unfold zlen. lia.
Qed.

Lemma hash_before (c : char) (b u : jstring) :
  negb (indexOf c (b ++ u) =? -1)%Z
  && (Z.of_nat (List.length b) >? indexOf c (b ++ u))%Z
  = includes c b.
Proof.
  destruct (first_occurrence c b) as [Hb | (x & y & -> & Hx)].
  - rewrite Hb. destruct (first_occurrence c u) as [Hu | (x & y & -> & Hx)].
    + rewrite indexOf_absent; [reflexivity|].
      now rewrite includes_false_app, Hb, Hu.
    + rewrite app_assoc, indexOf_first
        by (now rewrite includes_false_app, Hb, Hx).
      rewrite length_app. apply andb_false_iff. right.
      rewrite Z.gtb_ltb. apply Z.ltb_ge. lia.
  - rewrite <- app_assoc. cbn [app]. rewrite (indexOf_first c x (y ++ u) Hx).
    rewrite includes_false_app. unfold includes at 2. cbn [existsb].
    rewrite eqc_refl, orb_true_r. rewrite length_app. simpl List.length.
    apply andb_true_iff. split.
    + apply negb_true_iff, Z.eqb_neq. lia.
    + apply Z.gtb_lt. lia.
Qed.

Lemma lineVerdict_spec (before u : jstring) :
  lineVerdict (before ++ u) (Z.of_nat (List.length before))
  = includes (ch "#") before
    || oddQuotes SQUOTE before || oddQuotes DQUOTE before.
Proof.
  unfold lineVerdict. cbv zeta. rewrite hash_before.
  destruct (includes (ch "#") before); [reflexivity|]. cbn [orb].
  rewrite substring_prefix, !countMatches_char, !countMatches_triple.
  rewrite !rem2_odd. fold (oddQuotes SQUOTE before).
  fold (oddQuotes DQUOTE before).
  destruct (oddQuotes SQUOTE before); [reflexivity|].
  destruct (oddQuotes DQUOTE before); reflexivity.
Qed.

Lemma lineVerdict_at_start (line : jstring) (z : Z) :
  (z <= 0)%Z -> lineVerdict line z = false.
Proof.
  intros Hz. unfold lineVerdict. cbv zeta.
  pose proof (indexOf_lower (ch "#") line) as Hl.
  replace (negb (indexOf (ch "#") line =? -1)%Z
           && (z >? indexOf (ch "#") line)%Z) with false.
  - now rewrite (substring_nothing line z Hz).
  - symmetry. apply andb_false_iff.
    destruct (Z.eqb_spec (indexOf (ch "#") line) (-1)); [now left|].
    right. rewrite Z.gtb_ltb. apply Z.ltb_ge. lia.
Qed.

Lemma lastIndexOf_lower (c : char) (s : jstring) (from : Z) :
  (-1 <= lastIndexOf c s from)%Z.
Proof. unfold lastIndexOf. apply lastIndexIn_lower. lia. Qed.

(** The start of the line of a position that is not the start of the
    text. *)
Lemma lineStart_found (pre before post : jstring) :
  includes LF before = false ->
  pre = [] \/ (exists pre', pre = pre' ++ [LF]) ->
  0 < List.length (pre ++ before) ->
  (lastIndexOf LF (pre ++ before ++ post)
               (Z.of_nat (List.length (pre ++ before)) - 1) + 1)%Z
  = Z.of_nat (List.length pre).
Proof.
  intros Hb Hpre Hpos. unfold lastIndexOf, clamp, zlen.
  rewrite app_assoc. rewrite (length_app (pre ++ before) post).
  replace (Z.min _ _ + 1)%Z with (Z.of_nat (List.length (pre ++ before)))
    by lia.
  rewrite Nat2Z.id, firstn_app, firstn_all, Nat.sub_diag. cbn [firstn].
  rewrite app_nil_r.
  destruct Hpre as [-> | (pre' & ->)].
  - cbn [app]. now rewrite (lastIndexIn_absent LF before 0 Hb).
  - rewrite <- app_assoc. cbn [app].
    rewrite (lastIndexIn_last LF pre' before Hb 0) by lia.
    rewrite length_app. simpl List.length. lia.
Qed.

(** The line of a position: what precedes the position on its line, then
    the text up to the next line feed. *)
Lemma line_found (pre before post : jstring) :
  let text := pre ++ before ++ post in
  let lineEnd := indexOfFrom LF text (Z.of_nat (List.length (pre ++ before))) in
  exists u,
    substring text (Z.of_nat (List.length pre))
              (if (lineEnd =? -1)%Z then zlen text else lineEnd)
    = before ++ u.
Proof.
  intros text lineEnd. subst lineEnd text. unfold indexOfFrom, clamp.
  replace (Z.min (Z.max (Z.of_nat (List.length (pre ++ before))) 0)
                 (zlen (pre ++ before ++ post)))
    with (Z.of_nat (List.length (pre ++ before)))
    by (unfold zlen; rewrite !length_app; lia).
  rewrite Nat2Z.id.
  replace (skipn (List.length (pre ++ before)) (pre ++ before ++ post))
    with post
    by (rewrite app_assoc, skipn_app, skipn_all, Nat.sub_diag; reflexivity).
  destruct (first_occurrence LF post) as [Hno | (u & v & E & Hu)].
  - rewrite (indexOf_absent LF post Hno). cbn [Z.ltb Z.compare Z.eqb].
    exists post. unfold zlen.
    replace (List.length (pre ++ before ++ post))
      with (List.length pre + List.length (before ++ post))
      by (rewrite !length_app; lia).
    rewrite <- (app_nil_r (pre ++ before ++ post)), <- !app_assoc.
    rewrite (app_assoc before post []).
    apply (substring_middle pre (before ++ post) []).
  - rewrite E, (indexOf_first LF u v Hu).
    destruct (Z.ltb_spec (Z.of_nat (List.length u)) 0); [lia|].
    destruct (Z.eqb_spec
                (Z.of_nat (List.length (pre ++ before)) + Z.of_nat (List.length u))
                (-1)); [lia|].
    exists u.
    replace (Z.of_nat (List.length (pre ++ before)) + Z.of_nat (List.length u))%Z
      with (Z.of_nat (List.length pre + List.length (before ++ u)))
      by (rewrite !length_app; lia).
    rewrite (app_assoc before u (LF :: v)).
    apply (substring_middle pre (before ++ u) (LF :: v)).
Qed.

(** X20. Let the text be [pre ++ before ++ post] where
    [before] is the part of the line that precedes the match position: it
    holds no line feed, and [pre] is empty or ends with a line feed.  The
    match is discarded exactly when a hash sign occurs in [before], whether
    or not it lies in a string literal or behind a backslash, or the count
    of single quotes minus three per triple single quote in [before] is odd,
    or the same count for double quotes is. *)
Theorem isWithinCommentOrString_rule (pre before post : jstring) :
  includes LF before = false ->
  pre = [] \/ (exists pre', pre = pre' ++ [LF]) ->
  isWithinCommentOrString (List.length (pre ++ before)) (pre ++ before ++ post)
  = includes (ch "#") before
    || oddQuotes SQUOTE before || oddQuotes DQUOTE before.
Proof.
  intros Hb Hpre. rewrite isWithinCommentOrString_unfold. cbv zeta.
  destruct (Nat.eq_dec (List.length (pre ++ before)) 0) as [Hz | Hnz].
  - rewrite Hz. apply length_zero_iff_nil, app_eq_nil in Hz as [-> ->].
    cbn [app]. pose proof (lastIndexOf_lower LF post (Z.of_nat 0 - 1)).
    rewrite lineVerdict_at_start by lia. reflexivity.
  - rewrite (lineStart_found pre before post Hb Hpre) by lia.
    destruct (line_found pre before post) as [u ->].
    replace (Z.of_nat (List.length (pre ++ before)) - Z.of_nat (List.length pre))%Z
      with (Z.of_nat (List.length before)) by (rewrite length_app; lia).
    apply lineVerdict_spec.
Qed.

Lemma isWithinCommentOrString_rule_witness :
  let pre := str "import os" ++ [LF] in
  let before := str "s = '#' + " in
  let post := str "os.getcwd()" ++ LF :: str "print(s)" in
  isWithinCommentOrString (List.length (pre ++ before)) (pre ++ before ++ post)
  = includes (ch "#") before
    || oddQuotes SQUOTE before || oddQuotes DQUOTE before.
Proof.
  exact (isWithinCommentOrString_rule
           (str "import os" ++ [LF]) (str "s = '#' + ")
           (str "os.getcwd()" ++ LF :: str "print(s)")
           eq_refl (or_intror (ex_intro _ (str "import os") eq_refl))).
Defined.

(** C4 at its failing input. The function is to tell whether a position
    lies in a comment or in a string; it takes the first hash sign of the
    line for the start of a comment without looking whether the hash sign
    lies in a string literal.  In
    [r = requests.get('http://x/#top') + requests.get(u)] the hash sign is
    part of a string, the second call of [requests] lies after the string
    in neither a comment nor a string, with balanced quotes before it, and
    the code discards it: of the two calls only the first is reported. *)
Theorem hash_in_string_drops_call :
  let text := str "import requests" ++ LF
              :: str "r = requests.get('http://x/#top') + requests.get(u)" in
  let d := mkDocument (str "python") (str "file:///a.py") text in
  let before := firstn 36 (skipn 16 text) in
  map index (execAll (usagePattern (str "requests")) text) = [7; 20; 52]
  /\ before = str "r = requests.get('http://x/#top') + "
  /\ hashOutsideString None false before = false
  /\ discarded_as_specified before = false
  /\ isWithinCommentOrString 52 text = true
  /\ isWithinCommentOrString 20 text = false
  /\ map (fun l => (urange l, usageType l)) (usages_of_first_import d)
     = [(RangeOf (mkPosition 1 4) (mkPosition 1 12), attribute_access)].
Proof. vm_compute. repeat split. Qed.

(** The same on a shorter line: in [s = '#' + os.getcwd()] the only hash
    sign before [os] lies between two quotes and the quotes before [os] are
    balanced, and the code discards the match. *)
Remark hash_in_string_discards :
  let text := str "s = '#' + os.getcwd()" in
  isWithinCommentOrString 10 text = true
  /\ discarded_as_specified (firstn 10 text) = false
  /\ firstn 2 (skipn 10 text) = str "os".
Proof. vm_compute. repeat split. Qed.

(** ** The fuel of the matcher is never used up *)

Lemma reaches_pos (st st' : mstate) : reaches st st' -> pos st <= pos st'.
Proof. intros (n & _ & -> & _). lia. Qed.

Lemma reaches_shorter (st st' : mstate) :
  reaches st st' -> pos st < pos st' ->
  List.length (rest st') < List.length (rest st).
Proof.
  intros (n & Hn & Hp & ->) Hlt. rewrite length_skipn. lia.
Qed.

Lemma starLoop_cont_ext (body : mstate -> cont -> option mstate) :
  (forall st k1 k2, (forall st', reaches st st' -> k1 st' = k2 st') ->
                    body st k1 = body st k2) ->
  forall (fuel : nat) (st : mstate) (k1 k2 : cont),
    (forall st', reaches st st' -> k1 st' = k2 st') ->
    starLoop body fuel k1 st = starLoop body fuel k2 st.
Proof.
  intros Hbody. induction fuel as [|fuel IH]; intros st k1 k2 Hk; simpl.
  - apply Hk, reaches_refl.
  - rewrite (Hk st (reaches_refl st)).
    rewrite (Hbody st _ (fun st' => if pos st <? pos st'
                                    then starLoop body fuel k2 st' else None));
      [reflexivity|].
    intros st' Hst'. destruct (pos st <? pos st'); [|reflexivity].
    apply IH. intros st'' Hst''. apply Hk. now apply (reaches_trans st st' st'').
Qed.

(** The result of a pattern depends on its continuation only at the states
    further along the text. *)
Lemma run_cont_ext (r : regex) :
  forall (st : mstate) (k1 k2 : cont),
    (forall st', reaches st st' -> k1 st' = k2 st') ->
    run r st k1 = run r st k2.
Proof.
  induction r as [ | p | a IHa b IHb | a IHa b IHb | a IHa | n a IHa
                 | | | | p | a IHa ]; intros st k1 k2 Hk; cbn [run].
  - apply Hk, reaches_refl.
  - destruct (rest st) as [|c t]; [reflexivity|].
    destruct (p c); [|reflexivity]. apply Hk, reaches_advance.
  - apply IHa. intros st' Hst'. apply IHb. intros st'' Hst''.
    apply Hk. now apply (reaches_trans st st' st'').
  - now rewrite (IHa st k1 k2 Hk), (IHb st k1 k2 Hk).
  - now apply starLoop_cont_ext.
  - apply IHa. intros st' Hst'. apply Hk.
    apply (reaches_trans st st'); [exact Hst'|]. now apply reaches_same_text.
  - destruct (pos st =? 0); [|reflexivity]. apply Hk, reaches_refl.
  - destruct (rest st); [|reflexivity]. apply Hk, reaches_refl.
  - destruct (atWordBoundary st); [|reflexivity]. apply Hk, reaches_refl.
  - destruct (prev st) as [c|]; [destruct (p c); [reflexivity|]|];
      apply Hk, reaches_refl.
  - destruct (run a st Some); [|reflexivity]. apply Hk.
    now apply reaches_same_text.
Qed.

(** The iterations of a star stop by themselves: above the length of the
    text still to read, the fuel has no influence. *)
Lemma starLoop_fuel (r : regex) (k : cont) (fuel : nat) :
  forall (fuel' : nat) (st : mstate),
    List.length (rest st) < fuel -> List.length (rest st) < fuel' ->
    starLoop (run r) fuel k st = starLoop (run r) fuel' k st.
Proof.
  induction fuel as [|fuel IH]; intros fuel' st Hf Hf'; [lia|].
  destruct fuel' as [|fuel']; [lia|]. cbn [starLoop].
  rewrite (run_cont_ext r st _
             (fun st' => if pos st <? pos st'
                         then starLoop (run r) fuel' k st' else None));
    [reflexivity|].
  intros st' Hst'. destruct (Nat.ltb_spec (pos st) (pos st')); [|reflexivity].
  pose proof (reaches_shorter st st' Hst' H). apply IH; lia.
Qed.

Lemma run_consumes (r : regex) :
  consumes r = true ->
  forall (st : mstate) (k : cont) (e : mstate),
    run r st k = Some e ->
    exists st', reaches st st' /\ pos st < pos st' /\ k st' = Some e.
Proof.
  induction r as [ | p | a IHa b IHb | a IHa b IHb | a IHa | n a IHa
                 | | | | p | a IHa ]; cbn [consumes]; try discriminate;
    intros Hc st k e; cbn [run].
  - destruct (rest st) as [|c t] eqn:E; [discriminate|].
    destruct (p c); [|discriminate]. intros H. exists (advance st).
    split; [apply reaches_advance|]. split; [|exact H].
    unfold advance. rewrite E. simpl. lia.
  - intros H. apply orb_true_iff in Hc as [Hc | Hc].
    + apply (IHa Hc) in H as (st1 & H1 & Hlt & H).
      apply run_reaches in H as (st2 & H2 & H). exists st2.
      split; [now apply (reaches_trans st st1 st2)|]. split; [|exact H].
      apply reaches_pos in H2. lia.
    + apply run_reaches in H as (st1 & H1 & H).
      apply (IHb Hc) in H as (st2 & H2 & Hlt & H). exists st2.
      split; [now apply (reaches_trans st st1 st2)|]. split; [|exact H].
      apply reaches_pos in H1. lia.
  - apply andb_true_iff in Hc as [Ha Hb].
    destruct (run a st k) as [x|] eqn:E.
    + intros [= ->]. now apply (IHa Ha).
    + now apply (IHb Hb).
  - intros H. apply (IHa Hc) in H as (st1 & H1 & Hlt & H). eexists.
    split; [|split; [|exact H]].
    + apply (reaches_trans st st1); [exact H1|]. now apply reaches_same_text.
    + exact Hlt.
Qed.

(** The global loop stops by itself for a pattern that cannot match the
    empty string: above the length of the text, the fuel has no influence. *)
Lemma execLoop_fuel (r : regex) (fuel : nat) :
  consumes r = true ->
  forall (fuel' : nat) (p : option char) (i : nat) (s : jstring),
    List.length s < fuel -> List.length s < fuel' ->
    execLoop r fuel p i s = execLoop r fuel' p i s.
Proof.
  intros Hc. induction fuel as [|fuel IH]; intros fuel' p i s Hf Hf'; [lia|].
  destruct fuel' as [|fuel']; [lia|]. cbn [execLoop].
  destruct (searchFrom r p i s) as [m|] eqn:E; [|reflexivity]. f_equal.
  apply searchFrom_spec in E as (n & Hn & Hp & Hr & Hrun).
  apply (run_consumes r Hc) in Hrun as (st' & Hreach & Hlt & [= ->]).
  pose proof (reaches_shorter _ _ Hreach Hlt) as Hshort.
  rewrite Hr, length_skipn in Hshort. apply IH; lia.
Qed.

Lemma usagePattern_consumes (identifier : jstring) :
  identifier <> [] -> consumes (usagePattern identifier) = true.
Proof.
  intros H. unfold usagePattern. rewrite patternOfEscaped_escapeRegex.
  destruct identifier; [congruence|reflexivity].
Qed.

(** The patterns scanned with the global flag all read something. *)
Lemma global_patterns_consume :
  consumes JsTsParser.ES6_IMPORT_REGEX = true
  /\ consumes JsTsParser.REQUIRE_REGEX = true
  /\ consumes JsTsParser.DYNAMIC_IMPORT_REGEX = true
  /\ consumes JsTsParser.REEXPORT_REGEX = true
  /\ consumes (Chr SQUOTE) = true /\ consumes (Chr DQUOTE) = true
  /\ consumes (Lit [SQUOTE; SQUOTE; SQUOTE]) = true
  /\ consumes (Lit [DQUOTE; DQUOTE; DQUOTE]) = true.
Proof. repeat split. Qed.

(** The two continuation loops of a from-import stop by themselves. *)
Lemma parenLoop_fuel (lines : list jstring) (fuel : nat) :
  forall (fuel' e : nat) (c : jstring),
    List.length lines - e <= fuel -> List.length lines - e <= fuel' ->
    PythonParser.parenLoop fuel lines e c = PythonParser.parenLoop fuel' lines e c.
Proof.
  induction fuel as [|fuel IH]; intros fuel' e c H H'.
  - destruct fuel' as [|fuel']; [reflexivity|]. cbn [PythonParser.parenLoop].
    destruct (Nat.ltb_spec e (List.length lines - 1)); [lia|reflexivity].
  - destruct fuel' as [|fuel']; cbn [PythonParser.parenLoop];
      destruct (Nat.ltb_spec e (List.length lines - 1)); try reflexivity;
      try lia.
    destruct (negb _); [|reflexivity]. cbn [andb]. apply IH; lia.
Qed.

Lemma backslashLoop_fuel (lines : list jstring) (fuel : nat) :
  forall (fuel' e : nat) (c : jstring),
    List.length lines - e <= fuel -> List.length lines - e <= fuel' ->
    PythonParser.backslashLoop fuel lines e c
    = PythonParser.backslashLoop fuel' lines e c.
Proof.
  induction fuel as [|fuel IH]; intros fuel' e c H H'.
  - destruct fuel' as [|fuel']; [reflexivity|].
    cbn [PythonParser.backslashLoop].
    destruct (Nat.ltb_spec e (List.length lines - 1)); [lia|].
    now rewrite andb_false_r.
  - destruct fuel' as [|fuel']; cbn [PythonParser.backslashLoop];
      destruct (Nat.ltb_spec e (List.length lines - 1));
      rewrite ?andb_false_r; try reflexivity; try lia.
    destruct (endsWith _ _); [|reflexivity]. cbn [andb]. apply IH; lia.
Qed.

(** ** Two remarks on the JS/TS parser *)

(** The first occurrence that deduplication keeps is the first in the order
    of the passes, which need not be the first in the text: a [require]
    on the first line gives way to an ES module import on the second. *)
Remark dedup_follows_pass_order :
  map importStatement
    (imports (parseImports
       (mkDocument (str "javascript") (str "file:///a.js")
          (str "const a = require('x')" ++ LF :: str "import b from 'x'"))))
  = [str "import b from 'x'"].
Proof. vm_compute. reflexivity. Qed.

(** The four passes scan the same text independently, so that records of
    different passes can lie inside one another. *)
Remark jsts_passes_may_overlap :
  let recs := imports (parseImports
                (mkDocument (str "javascript") (str "file:///a.js")
                   (str "import {import('y')} from 'x'"))) in
  map packageName recs = [str "x"; str "y"]
  /\ map range recs = [RangeOf (mkPosition 0 0) (mkPosition 0 29);
                       RangeOf (mkPosition 0 8) (mkPosition 0 19)].
Proof. vm_compute. split; reflexivity. Qed.

(** ** Ranges of the records of one pattern scan (JS/TS) *)

Lemma execLoop_ordered (r : regex) (fuel : nat) :
  forall (p : option char) (i : nat) (s : jstring),
    orderedPairs (fun m1 m2 => lastIndex m1 <= index m2)
                 (execLoop r fuel p i s)
    /\ Forall (fun m => i <= index m) (execLoop r fuel p i s).
Proof.
  induction fuel as [|fuel IH]; intros p i s; cbn [execLoop];
    [split; [exact I|constructor]|].
  destruct (searchFrom r p i s) as [m|] eqn:E; [|split; [exact I|constructor]].
  apply searchFrom_spec in E as (n & Hn & Hp & Hr & Hrun).
  apply run_reaches in Hrun as (st' & Hreach & [= ->]).
  apply reaches_pos in Hreach.
  destruct (IH (prev (mend m)) (pos (mend m)) (rest (mend m))) as [IH1 IH2].
  split.
  - cbn [orderedPairs]. split; [exact IH2|exact IH1].
  - constructor; [unfold index; lia|].
    revert IH2. apply Forall_impl. intros m' H. unfold index in *. lia.
Qed.

Lemma matched_length (r : regex) (s : jstring) (m : rmatch) :
  In m (execAll r s) ->
  index m + List.length (matched m) = lastIndex m.
Proof.
  intros H. unfold execAll in H.
  apply execLoop_spec in H as (n & _ & _ & _ & Hrun).
  apply run_reaches in Hrun as (st' & (k & Hk & Hp & _) & [= ->]).
  unfold matched, consumed, index, lastIndex. rewrite length_firstn. lia.
Qed.

Lemma positionFrom_lower (s : jstring) :
  forall n ln col : nat,
    ln < line (positionFrom s n ln col)
    \/ (ln = line (positionFrom s n ln col)
        /\ col <= character (positionFrom s n ln col)).
Proof.
  induction s as [|c s IH]; intros n ln col; destruct n as [|n];
    cbn [positionFrom line character]; try (right; split; lia).
  destruct (eqc c LF); [|destruct (eqc c CR && startsWith [LF] s)].
  - specialize (IH n (S ln) 0). lia.
  - specialize (IH n ln col). lia.
  - specialize (IH n ln (S col)). lia.
Qed.

Lemma positionFrom_mono (s : jstring) :
  forall a b ln col : nat,
    a <= b ->
    line (positionFrom s a ln col) < line (positionFrom s b ln col)
    \/ (line (positionFrom s a ln col) = line (positionFrom s b ln col)
        /\ character (positionFrom s a ln col)
           <= character (positionFrom s b ln col)).
Proof.
  induction s as [|c s IH]; intros a b ln col Hab.
  - destruct a, b; cbn [positionFrom]; right; split; lia.
  - destruct a as [|a].
    + change (positionFrom (c :: s) 0 ln col) with (mkPosition ln col).
      cbn [line character].
      apply (positionFrom_lower (c :: s) b ln col).
    + destruct b as [|b]; [lia|]. cbn [positionFrom].
      destruct (eqc c LF); [|destruct (eqc c CR && startsWith [LF] s)];
        apply IH; lia.
Qed.

Lemma positionAt_mono (d : TextDocument) (a b : nat) :
  a <= b -> isBeforeOrEqual (positionAt d a) (positionAt d b) = true.
Proof.
  intros Hab. unfold isBeforeOrEqual, isBefore, positionAt.
  destruct (positionFrom_mono (getText d) a b 0 0 Hab) as [H | [H1 H2]];
    apply negb_true_iff, orb_false_iff; split.
  - apply Nat.ltb_ge. lia.
  - apply andb_false_iff. left. apply Nat.eqb_neq. lia.
  - apply Nat.ltb_ge. lia.
  - apply andb_false_iff. right. apply Nat.ltb_ge. lia.
Qed.

Lemma matchRange_ends (d : TextDocument) (r : regex) (m : rmatch) :
  In m (execAll r (getText d)) ->
  JsTsParser.matchRange d m
  = RangeOf (positionAt d (index m)) (positionAt d (lastIndex m)).
Proof.
  intros H. unfold JsTsParser.matchRange.
  rewrite (matched_length r (getText d) m H). unfold mkRange.
  pose proof (matched_length r (getText d) m H) as Hl.
  assert (Hle : index m <= lastIndex m) by lia.
  apply (positionAt_mono d) in Hle. unfold isBeforeOrEqual in Hle.
  apply negb_true_iff in Hle. now rewrite Hle.
Qed.

(** The records built from the successive matches of one pattern, at most
    one a match and with the range of the match, follow one another in the
    text. *)
Lemma scan_records_ordered (d : TextDocument) (r : regex)
    (record : rmatch -> list ImportInfo) :
  (forall m x, In x (record m) ->
     record m = [x] /\ range x = JsTsParser.matchRange d m) ->
  orderedPairs endsBeforeStart (flat_map record (execAll r (getText d))).
Proof.
  intros Hrec.
  assert (G : forall ms,
             (forall m, In m ms -> In m (execAll r (getText d))) ->
             orderedPairs (fun m1 m2 => lastIndex m1 <= index m2) ms ->
             orderedPairs endsBeforeStart (flat_map record ms)).
  { induction ms as [|m ms IH]; intros Hin Hord; [exact I|].
    destruct Hord as [Hm Hms]. cbn [flat_map]. apply orderedPairs_app.
    - destruct (record m) as [|x l] eqn:E; [exact I|].
      destruct (Hrec m x) as [E' _]; [rewrite E; now left|].
      rewrite E in E'. injection E' as ->. split; [constructor|exact I].
    - apply IH; [|exact Hms]. intros m' H. apply Hin. now right.
    - intros x y Hx Hy. apply in_flat_map in Hy as (m' & Hm' & Hy).
      destruct (Hrec m x Hx) as [_ Rx]. destruct (Hrec m' y Hy) as [_ Ry].
      unfold endsBeforeStart. rewrite Rx, Ry.
      rewrite (matchRange_ends d r m) by (apply Hin; now left).
      rewrite (matchRange_ends d r m') by (apply Hin; now right).
      cbn [rend rstart]. apply positionAt_mono.
      rewrite Forall_forall in Hm. now apply Hm. }
  apply G; [trivial|].
  apply (execLoop_ordered r (S (List.length (getText d))) None 0 (getText d)).
Qed.

Lemma es6Record_range (d : TextDocument) (m : rmatch) (x : ImportInfo) :
  In x (JsTsParser.es6Record d m) ->
  JsTsParser.es6Record d m = [x] /\ range x = JsTsParser.matchRange d m.
Proof.
  unfold JsTsParser.es6Record.
  destruct (BaseParser.isRelativeImport _); [intros []|].
  intros [<- | []]. now split.
Qed.

Lemma requireRecord_range (d : TextDocument) (m : rmatch) (x : ImportInfo) :
  In x (JsTsParser.requireRecord d m) ->
  JsTsParser.requireRecord d m = [x] /\ range x = JsTsParser.matchRange d m.
Proof.
  unfold JsTsParser.requireRecord.
  destruct (BaseParser.isRelativeImport _); [intros []|].
  intros [<- | []]. now split.
Qed.

Lemma plainRecord_range (d : TextDocument) (m : rmatch) (x : ImportInfo) :
  In x (JsTsParser.plainRecord d m) ->
  JsTsParser.plainRecord d m = [x] /\ range x = JsTsParser.matchRange d m.
Proof.
  unfold JsTsParser.plainRecord.
  destruct (BaseParser.isRelativeImport _); [intros []|].
  intros [<- | []]. now split.
Qed.

(** Each of the four scans of the JS/TS parser pushes records that follow
    one another in the text: a record ends where or before the next one
    starts. *)
Lemma jsts_scans_ordered (d : TextDocument) :
  orderedPairs endsBeforeStart (JsTsParser.parseES6Imports d (getText d))
  /\ orderedPairs endsBeforeStart (JsTsParser.parseRequires d (getText d))
  /\ orderedPairs endsBeforeStart (JsTsParser.parseDynamicImports d (getText d))
  /\ orderedPairs endsBeforeStart (JsTsParser.parseReexports d (getText d)).
Proof.
  repeat split; apply scan_records_ordered.
  - apply es6Record_range.
  - apply requireRecord_range.
  - apply plainRecord_range.
  - apply plainRecord_range.
Qed.

(** ** Ranges of the records of one pass *)

(** C3, as the code has it. Of any two records of the Python scan, the
    earlier one ends on a line above the line where the later one starts,
    so that their ranges share no position, unless both come from one
    multi-import line: those carry the same range, the range of that line.
    Of any two records of one of the four passes of the JS/TS parser, the
    earlier one ends where or before the later one starts. *)
Theorem extractor_pass_ranges_separated (d : TextDocument) :
  (forall l1 x l2 y l3,
     imports (PythonParser.parse d) = l1 ++ x :: l2 ++ y :: l3 ->
     separated x y)
  /\ (forall pass, In pass jstsPasses ->
      forall l1 x l2 y l3,
        pass d (getText d) = l1 ++ x :: l2 ++ y :: l3 ->
        endsBeforeStart x y).
Proof.
  split.
  - intros l1 x l2 y l3. apply python_pairs_separated.
  - destruct (jsts_scans_ordered d) as (H1 & H2 & H3 & H4).
    intros pass Hpass l1 x l2 y l3 E.
    apply (orderedPairs_split _ endsBeforeStart l1 l2 l3). rewrite <- E.
    destruct Hpass as [<- | [<- | [<- | [<- | []]]]]; assumption.
Qed.

Lemma extractor_pass_ranges_separated_witness :
  (exists x y z,
     imports (PythonParser.parse
                (mkDocument (str "python") (str "file:///a.py")
                   (str "import a, b" ++ LF :: str "from c import d")))
     = [x; y; z]
     /\ separated x y /\ separated y z)
  /\ (exists x y,
        JsTsParser.parseES6Imports
          (mkDocument (str "javascript") (str "file:///a.js")
             (str "import 'a'import 'b'"))
          (str "import 'a'import 'b'")
        = [x; y]
        /\ endsBeforeStart x y).
Proof.
  split.
  - eexists _, _, _. split; [vm_compute; reflexivity|]. split.
    + eapply (proj1 (extractor_pass_ranges_separated
                       (mkDocument (str "python") (str "file:///a.py")
                          (str "import a, b" ++ LF :: str "from c import d")))
                    [] _ [] _ [_]).
      vm_compute. reflexivity.
    + eapply (proj1 (extractor_pass_ranges_separated
                       (mkDocument (str "python") (str "file:///a.py")
                          (str "import a, b" ++ LF :: str "from c import d")))
                    [_] _ [] _ []).
      vm_compute. reflexivity.
  - eexists _, _. split; [vm_compute; reflexivity|].
    eapply (proj2 (extractor_pass_ranges_separated
                     (mkDocument (str "javascript") (str "file:///a.js")
                        (str "import 'a'import 'b'")))
                  JsTsParser.parseES6Imports (or_introl eq_refl)
                  [] _ [] _ []).
    vm_compute. reflexivity.
Defined.
(** C3 as worded fails on a multi-import line: [import a, b] gives two
    records that both carry the range of the whole line. *)
Lemma python_multi_import_ranges_overlap :
  let recs := imports (parseImports
                (mkDocument (str "python") (str "file:///a.py")
                   (str "import a, b"))) in
  let whole := RangeOf (mkPosition 0 0) (mkPosition 0 11) in
  map packageName recs = [str "a"; str "b"]
  /\ map range recs = [whole; whole]
  /\ overlaps whole whole = true.
Proof. repeat split. Qed.

(** * Further properties of the code *)

(** ** The resolver returns a prefix *)

Lemma getTopLevelPackage_head (p : jstring) :
  (exists rest, p = getTopLevelPackage p ++ rest)
  /\ hd_error (getTopLevelPackage p) = hd_error p.
Proof.
  destruct (startsWith (str "@") p) eqn:Hs.
  - destruct (first_occurrence (ch "/") p) as [Hno | (u & v & -> & Hu)].
    + rewrite (getTopLevelPackage_scoped_short p p Hs (split_absent _ _ Hno)).
      split; [exists []; now rewrite app_nil_r|reflexivity].
    + assert (Hne : u <> []) by (intros ->; discriminate).
      destruct (first_occurrence (ch "/") v) as [Hv | (b & w & -> & Hb)].
      * rewrite (getTopLevelPackage_scoped _ u v [] Hs)
          by (now apply split_two).
        split; [exists []; now rewrite app_nil_r|].
        destruct u; [congruence|reflexivity].
      * rewrite (getTopLevelPackage_scoped _ u b (split (ch "/") w) Hs)
          by (now rewrite (split_first _ u _ Hu), (split_first _ b _ Hb)).
        split; [|destruct u; [congruence|reflexivity]].
        exists (ch "/" :: w). now rewrite <- !app_assoc.
  - destruct (first_occurrence (ch "/") p) as [Hno | (u & v & -> & Hu)].
    + rewrite (getTopLevelPackage_no_slash p Hs Hno).
      split; [exists []; now rewrite app_nil_r|reflexivity].
    + destruct u as [|x u].
      * change ([] ++ ch "/" :: v) with (ch "/" :: v).
        rewrite (getTopLevelPackage_leading_slash (ch "/" :: v)) by reflexivity.
        split; [exists []; now rewrite app_nil_r|reflexivity].
      * rewrite (getTopLevelPackage_cut (x :: u) v Hs Hu) by discriminate.
        split; [now exists (ch "/" :: v)|reflexivity].
Qed.

(** X1. The resolved name is always a prefix of the module path and
    begins with the same character; so it is empty only for the empty path,
    and it is relative exactly when the path is. *)
Theorem getTopLevelPackage_prefix (p : jstring) :
  (exists rest, p = getTopLevelPackage p ++ rest)
  /\ hd_error (getTopLevelPackage p) = hd_error p
  /\ isRelativeImport (getTopLevelPackage p) = isRelativeImport p.
Proof.
  destruct (getTopLevelPackage_head p) as [H1 H2].
  split; [exact H1|]. split; [exact H2|].
  unfold isRelativeImport.
  destruct (getTopLevelPackage p) as [|a r], p as [|b q]; try discriminate;
    [reflexivity|]. injection H2 as ->. reflexivity.
Qed.

(** ** The two lists of supported languages agree *)

(** X2. [isSupportedLanguage] holds exactly for the documents for which
    [getParser] finds a parser, and those are the documents that
    [parseImports] hands to a parser. *)
Theorem isSupportedLanguage_getParser (d : TextDocument) :
  (isSupportedLanguage d = true <-> getParser d <> None)
  /\ (isSupportedLanguage d = true ->
      exists parser, getParser d = Some parser
                     /\ parseImports d = parseWith parser d).
Proof.
  assert (H : isSupportedLanguage d = true <-> getParser d <> None).
  { split.
    - intros H E. unfold isSupportedLanguage, supportedLanguages in H.
      unfold getParser in E. cbn [existsb] in H.
      destruct (eqs (languageId d) (str "python")); [discriminate|].
      cbn [orb] in H. rewrite orb_false_r in H.
      rewrite <- !orb_assoc in E.
      destruct (eqs (languageId d) (str "javascript")
                || (eqs (languageId d) (str "typescript")
                    || (eqs (languageId d) (str "javascriptreact")
                        || eqs (languageId d) (str "typescriptreact"))));
        discriminate.
    - intros H. destruct (isSupportedLanguage d) eqn:E; [reflexivity|].
      now apply getParser_unsupported in E. }
  split; [exact H|]. intros Hs. apply H in Hs. unfold parseImports.
  destruct (getParser d) as [parser|]; [|congruence]. now exists parser.
Qed.

Lemma isSupportedLanguage_getParser_witness :
  let d := mkDocument (str "typescriptreact") (str "file:///a.tsx")
             (str "import x from 'y'") in
  exists parser, getParser d = Some parser
                 /\ parseImports d = parseWith parser d.
Proof.
  exact (proj2 (isSupportedLanguage_getParser
                  (mkDocument (str "typescriptreact") (str "file:///a.tsx")
                     (str "import x from 'y'"))) eq_refl).
Defined.

(** ** Deduplication composes *)

Lemma dedupLoop_distinct (imps : list ImportInfo) :
  forall seen : list (jstring * ImportInfo),
    NoDup (map fst seen ++ map packageName imps) ->
    JsTsParser.dedupLoop imps seen
    = seen ++ map (fun imp => (packageName imp, imp)) imps.
Proof.
  induction imps as [|x imps IH]; intros seen Hnd; cbn [JsTsParser.dedupLoop map].
  - now rewrite app_nil_r.
  - assert (Hx : has (packageName x) seen = false).
    { apply has_not_In. intros Hin.
      apply (NoDup_remove_2 _ _ _ Hnd). apply in_or_app. now left. }
    rewrite Hx, IH.
    + now rewrite <- app_assoc.
    + rewrite map_app. cbn [map fst]. rewrite <- app_assoc. exact Hnd.
Qed.

Lemma deduplicateImports_distinct (imps : list ImportInfo) :
  NoDup (map packageName imps) -> JsTsParser.deduplicateImports imps = imps.
Proof.
  intros Hnd. unfold JsTsParser.deduplicateImports.
  rewrite (dedupLoop_distinct imps [] Hnd). cbn [app].
  rewrite map_map. cbn [snd]. apply map_id.
Qed.

(** X3. Deduplicating twice is deduplicating once, and a list whose
    package names are pairwise distinct is returned as it is, in the same
    order. *)
Theorem deduplicateImports_idempotent (imps : list ImportInfo) :
  JsTsParser.deduplicateImports (JsTsParser.deduplicateImports imps)
  = JsTsParser.deduplicateImports imps
  /\ (NoDup (map packageName imps) ->
      JsTsParser.deduplicateImports imps = imps).
Proof.
  split; [|apply deduplicateImports_distinct].
  apply deduplicateImports_distinct.
  exact (proj1 (deduplicateImports_spec imps)).
Qed.

Lemma deduplicateImports_idempotent_witness :
  let a := mkImportInfo (str "a") (str "import 'a'") javascript
             (RangeOf (mkPosition 0 0) (mkPosition 0 10)) (str "u")
             None None (Some false) in
  let b := mkImportInfo (str "b") (str "import 'b'") javascript
             (RangeOf (mkPosition 1 0) (mkPosition 1 10)) (str "u")
             None None (Some false) in
  JsTsParser.deduplicateImports [a; b] = [a; b].
Proof.
  intros a b. apply (proj2 (deduplicateImports_idempotent [a; b])).
  repeat constructor; simpl; intuition discriminate.
Defined.

(** ** Deduplication of the workspace scan *)

Lemma dedupKey_pair (a b : ImportInfo) :
  ScanWorkspace.dedupKey a = ScanWorkspace.dedupKey b <->
  language a = language b /\ packageName a = packageName b.
Proof.
  unfold ScanWorkspace.dedupKey. split.
  - destruct (language a), (language b); cbn [ScanWorkspace.languageText];
      intros H; try discriminate H;
      (split; [reflexivity|]);
      repeat (injection H as H); exact H.
  - intros [-> ->]. reflexivity.
Qed.

Lemma workspace_dedupLoop_spec (imps : list ImportInfo) :
  forall seen : list (jstring * ImportInfo),
    NoDup (map fst seen) ->
    (forall kv, In kv seen -> fst kv = ScanWorkspace.dedupKey (snd kv)) ->
    NoDup (map fst (ScanWorkspace.dedupLoop imps seen))
    /\ (forall kv, In kv (ScanWorkspace.dedupLoop imps seen) ->
          fst kv = ScanWorkspace.dedupKey (snd kv))
    /\ (forall imp, In imp (map snd (ScanWorkspace.dedupLoop imps seen)) <->
          In imp (map snd seen)
          \/ exists l1 l2, imps = l1 ++ imp :: l2
               /\ ~ In (ScanWorkspace.dedupKey imp)
                       (map ScanWorkspace.dedupKey l1)
               /\ ~ In (ScanWorkspace.dedupKey imp) (map fst seen)).
Proof.
  induction imps as [|x imps IH]; intros seen Hnd Hkey;
    cbn [ScanWorkspace.dedupLoop].
  - split; [exact Hnd|]. split; [exact Hkey|]. intros imp. split.
    + now left.
    + intros [H | (l1 & l2 & E & _)]; [exact H|]. now destruct l1.
  - destruct (has (ScanWorkspace.dedupKey x) seen) eqn:Hhas.
    + destruct (IH seen Hnd Hkey) as (I1 & I2 & I3).
      split; [exact I1|]. split; [exact I2|]. intros imp. rewrite I3.
      apply has_In in Hhas. split.
      * intros [H | (l1 & l2 & -> & Hl1 & Hs)]; [now left|]. right.
        exists (x :: l1), l2. split; [reflexivity|]. split; [|exact Hs].
        simpl. intros [E | Hin]; [|now apply Hl1].
        apply Hs. now rewrite <- E.
      * intros [H | (l1 & l2 & E & Hl1 & Hs)]; [now left|].
        destruct l1 as [|y l1]; simpl in E; injection E as -> ->.
        -- contradiction.
        -- right. exists l1, l2. split; [reflexivity|]. split; [|exact Hs].
           intros Hin. apply Hl1. now right.
    + apply has_not_In in Hhas.
      assert (Hnd' : NoDup (map fst (seen ++ [(ScanWorkspace.dedupKey x, x)]))).
      { rewrite map_app. simpl. apply NoDup_app; [exact Hnd | | ].
        - constructor; [intros []|constructor].
        - intros k Hk [<- | []]. contradiction. }
      assert (Hkey' : forall kv,
                 In kv (seen ++ [(ScanWorkspace.dedupKey x, x)]) ->
                 fst kv = ScanWorkspace.dedupKey (snd kv)).
      { intros kv Hin. apply in_app_or in Hin as [Hin | [<- | []]];
          [now apply Hkey | reflexivity]. }
      destruct (IH _ Hnd' Hkey') as (I1 & I2 & I3).
      split; [exact I1|]. split; [exact I2|]. intros imp. rewrite I3.
      rewrite !map_app. simpl. split.
      * intros [H | (l1 & l2 & -> & Hl1 & Hs)].
        -- apply in_app_or in H as [H | [<- | []]]; [now left|].
           right. exists [], imps. split; [reflexivity|]. now split.
        -- right. exists (x :: l1), l2. split; [reflexivity|].
           split.
           ++ simpl. intros [E | Hin]; [|now apply Hl1].
              apply Hs. apply in_or_app. right. now left.
           ++ intros Hin. apply Hs. apply in_or_app. now left.
      * intros [H | (l1 & l2 & E & Hl1 & Hs)].
        -- left. apply in_or_app. now left.
        -- destruct l1 as [|y l1]; simpl in E; injection E as -> ->.
           ++ left. apply in_or_app. right. now left.
           ++ right. exists l1, l2. split; [reflexivity|]. split.
              ** intros Hin. apply Hl1. now right.
              ** intros Hin. apply in_app_or in Hin as [Hin | [E | []]].
                 --- now apply Hs.
                 --- apply Hl1. now left.
Qed.

(** X4. The workspace scan keeps one record for every pair of a language
    and a package name, the first one met: the key [language:package]
    tells two such pairs apart, so that a Python and a JavaScript package of
    one name are both kept. *)
Theorem workspace_deduplicateImports_spec (imps : list ImportInfo) :
  NoDup (map (fun imp => (language imp, packageName imp))
             (ScanWorkspace.deduplicateImports imps))
  /\ (forall imp, In imp (ScanWorkspace.deduplicateImports imps) <->
        exists l1 l2, imps = l1 ++ imp :: l2
          /\ forall x, In x l1 ->
               ~ (language x = language imp /\ packageName x = packageName imp)).
Proof.
  destruct (workspace_dedupLoop_spec imps [] (NoDup_nil _)) as (I1 & I2 & I3).
  { intros kv []. }
  unfold ScanWorkspace.deduplicateImports. split.
  - assert (Hk : NoDup (map ScanWorkspace.dedupKey
                            (map snd (ScanWorkspace.dedupLoop imps [])))).
    { rewrite map_map.
      replace (map (fun kv => ScanWorkspace.dedupKey (snd kv))
                   (ScanWorkspace.dedupLoop imps []))
        with (map fst (ScanWorkspace.dedupLoop imps [])); [exact I1|].
      apply map_ext_in. exact I2. }
    revert Hk. generalize (map snd (ScanWorkspace.dedupLoop imps [])) as out.
    induction out as [|x out IH]; cbn [map]; intros Hk; [constructor|].
    inversion Hk as [|? ? Hx Hout]; subst. constructor; [|now apply IH].
    intros Hin. apply Hx. apply in_map_iff in Hin as (y & E & Hy).
    apply in_map_iff. exists y. split; [|exact Hy].
    apply dedupKey_pair. injection E as E1 E2. now split.
  - intros imp. rewrite I3. simpl. split.
    + intros [[] | (l1 & l2 & E & H & _)]. exists l1, l2. split; [exact E|].
      intros x Hx Hp. apply H. apply in_map_iff. exists x.
      split; [|exact Hx]. now apply dedupKey_pair.
    + intros (l1 & l2 & E & H). right. exists l1, l2. split; [exact E|].
      split; [|tauto]. intros Hin. apply in_map_iff in Hin as (x & Ex & Hx).
      apply (H x Hx). now apply dedupKey_pair.
Qed.

Lemma workspace_deduplicateImports_spec_witness :
  let py := mkImportInfo (str "requests") (str "import requests") python
              (RangeOf (mkPosition 0 0) (mkPosition 0 15)) (str "a.py")
              None None None in
  let js := mkImportInfo (str "requests") (str "import 'requests'") javascript
              (RangeOf (mkPosition 0 0) (mkPosition 0 17)) (str "a.js")
              None None (Some false) in
  In js (ScanWorkspace.deduplicateImports [py; js; py]).
Proof.
  intros py js.
  apply (proj2 (proj2 (workspace_deduplicateImports_spec [py; js; py]) js)).
  exists [py], [py]. split; [reflexivity|].
  intros x [<- | []] [H _]. discriminate H.
Defined.

(** ** The usage records follow the imports *)

Lemma trackLoop_filter (d : TextDocument) (imps : list ImportInfo) :
  forall (us : list UsageInfo) (total : nat),
    fst (trackLoop d imps us total)
    = us ++ map (fun imp => mkUsageInfo imp (findUsagesForImport d imp))
                (filter (fun imp =>
                           0 <? List.length (findUsagesForImport d imp)) imps).
Proof.
  induction imps as [|imp imps IH]; intros us total; cbn [trackLoop filter map].
  - now rewrite app_nil_r.
  - destruct (0 <? List.length (findUsagesForImport d imp)).
    + rewrite IH. cbn [map]. now rewrite <- app_assoc.
    + apply IH.
Qed.

(** X5. The usage records come in the order of the imports, one for every
    import that has at least one usage location and none for the others;
    each holds all the locations found for its import. *)
Theorem trackUsages_follows_imports (d : TextDocument)
    (imps : list ImportInfo) :
  usages (trackUsages d imps)
  = map (fun imp => mkUsageInfo imp (findUsagesForImport d imp))
        (filter (fun imp => negb (Nat.eqb (List.length
                                             (findUsagesForImport d imp)) 0))
                imps).
Proof.
  unfold trackUsages. pose proof (trackLoop_filter d imps [] 0) as H.
  destruct (trackLoop d imps [] 0) as [us total]. cbn [fst usages] in *.
  rewrite H. cbn [app]. f_equal. apply filter_ext. intros imp.
  now destruct (List.length (findUsagesForImport d imp)).
Qed.

(** ** The names of a named-import list *)

Lemma trimStart_In (c : char) (s : jstring) : In c (trimStart s) -> In c s.
Proof.
  induction s as [|x s IH]; simpl; [trivial|].
  destruct (isSpace x); [intros H; right; now apply IH|trivial].
Qed.

Lemma trimEnd_In (c : char) (s : jstring) : In c (trimEnd s) -> In c s.
Proof.
  unfold trimEnd. intros H. apply in_rev in H. apply trimStart_In in H.
  now apply in_rev.
Qed.

Lemma trim_In (c : char) (s : jstring) : In c (trim s) -> In c s.
Proof. unfold trim. intros H. now apply trimStart_In, trimEnd_In. Qed.

Lemma firstn_In_list (c : char) (n : nat) (s : jstring) :
  In c (firstn n s) -> In c s.
Proof.
  revert n. induction s as [|x s IH]; intros [|n]; simpl; try tauto.
  intros [H | H]; [now left|right; now apply (IH n)].
Qed.

Lemma splitHead_In (r : regex) (c : char) (s : jstring) :
  In c (splitHead r s) -> In c s.
Proof.
  unfold splitHead. destruct (exec r s); [apply firstn_In_list|trivial].
Qed.

Lemma itemName_In (c : char) (item : jstring) :
  In c (PythonParser.itemName item) -> In c item.
Proof.
  unfold PythonParser.itemName. intros H.
  now apply trim_In, splitHead_In, trim_In in H.
Qed.

Lemma split_pieces (c : char) (s seg : jstring) :
  In seg (split c s) -> ~ In c seg /\ (forall x, In x seg -> In x s).
Proof.
  revert seg. induction s as [|x s IH]; intros seg; cbn [split].
  - intros [<- | []]. split; [intros []|trivial].
  - destruct (eqc x c) eqn:E.
    + intros [<- | H]; [split; [intros []|intros ? []]|].
      destruct (IH seg H) as [H1 H2]. split; [exact H1|].
      intros y Hy. right. now apply H2.
    + destruct (split c s) as [|seg0 segs] eqn:Es;
        [now apply split_nonempty in Es|].
      intros [<- | H].
      * destruct (IH seg0 (or_introl eq_refl)) as [H1 H2]. split.
        -- intros [H | H]; [subst; now rewrite eqc_refl in E|contradiction].
        -- intros y [<- | Hy]; [now left|right; now apply H2].
      * destruct (IH seg (or_intror H)) as [H1 H2]. split; [exact H1|].
        intros y Hy. right. now apply H2.
Qed.

Lemma trimStart_head (s : jstring) (x : char) (r : jstring) :
  trimStart s = x :: r -> isSpace x = false.
Proof.
  induction s as [|y s IH]; simpl; [discriminate|].
  destruct (isSpace y) eqn:E; [exact IH|]. intros [= <- _]. exact E.
Qed.

Lemma trimStart_keeps_last (l : jstring) (x : char) :
  isSpace x = false -> exists t, trimStart (l ++ [x]) = t ++ [x].
Proof.
  intros Hx. induction l as [|y l IH]; simpl.
  - rewrite Hx. now exists [].
  - destruct (isSpace y); [exact IH|]. now exists (y :: l).
Qed.

Lemma trim_tidy (s : jstring) : tidy (trim s).
Proof.
  unfold trim, trimEnd. split.
  - intros x r E. destruct (trimStart s) as [|a t] eqn:Es; [discriminate|].
    pose proof (trimStart_head s a t Es) as Ha.
    cbn [rev] in E. destruct (trimStart_keeps_last (rev t) a Ha) as [u Eu].
    rewrite Eu, rev_app_distr in E. cbn in E. injection E as <- _. exact Ha.
  - intros r y E. apply (f_equal (@rev char)) in E.
    rewrite rev_involutive, rev_app_distr in E. cbn in E.
    now apply trimStart_head in E.
Qed.

(** X6. Whatever text they are given, both [parseNamedImports] return
    names that are not empty, have no white space at either end and hold no
    comma; the names of the Python parser are never a lone star and hold no
    parenthesis. *)
Theorem parseNamedImports_names (content name : jstring) :
  (In name (JsTsParser.parseNamedImports content) ->
     name <> [] /\ tidy name /\ ~ In (ch ",") name)
  /\ (In name (PythonParser.parseNamedImports content) ->
     name <> [] /\ tidy name /\ ~ In (ch ",") name
     /\ name <> str "*" /\ ~ In (ch "(") name /\ ~ In (ch ")") name).
Proof.
  split.
  - unfold JsTsParser.parseNamedImports. intros H.
    apply filter_In in H as [H Hlen].
    apply in_map_iff in H as (item & <- & Hitem).
    split; [intros E; rewrite E in Hlen; discriminate|].
    split; [apply trim_tidy|]. intros Hc. apply itemName_In in Hc.
    now apply (proj1 (split_pieces _ _ _ Hitem)).
  - unfold PythonParser.parseNamedImports. intros H.
    apply filter_In in H as [H Hkeep].
    apply andb_true_iff in Hkeep as [Hne Hstar].
    apply in_map_iff in H as (item & <- & Hitem).
    split; [intros E; rewrite E in Hne; discriminate|].
    split; [apply trim_tidy|].
    split; [intros Hc; apply itemName_In in Hc;
            now apply (proj1 (split_pieces _ _ _ Hitem))|].
    split; [intros E; rewrite E in Hstar; discriminate|].
    assert (Hp : forall c, PythonParser.isParen c = true ->
                           ~ In c (PythonParser.itemName item)).
    { intros c Hc Hin. apply itemName_In in Hin.
      apply (proj2 (split_pieces _ _ _ Hitem)) in Hin.
      apply filter_In in Hin as [_ Hin]. now rewrite Hc in Hin. }
    split; apply Hp; reflexivity.
Qed.

Lemma parseNamedImports_names_witness :
  let content := str "( a as b , *, c )" in
  PythonParser.parseNamedImports content = [str "a"; str "c"]
  /\ tidy (str "a") /\ (In (ch ",") (str "c") -> False).
Proof.
  intros content. split; [vm_compute; reflexivity|].
  assert (H : In (str "a") (PythonParser.parseNamedImports content))
    by (vm_compute; now left).
  assert (H' : In (str "c") (PythonParser.parseNamedImports content))
    by (vm_compute; right; now left).
  split.
  - exact (proj1 (proj2 (proj2 (parseNamedImports_names content (str "a")) H))).
  - exact (proj1 (proj2 (proj2 (proj2 (parseNamedImports_names content (str "c"))
                                      H')))).
Defined.

(** ** The continuation loops of a from-import *)

Lemma parenLoop_spec (lines : list jstring) (fuel : nat) :
  forall (e : nat) (c : jstring),
    List.length lines - e <= fuel ->
    let e' := fst (parenLoop fuel lines e c) in
    e <= e'
    /\ (e < List.length lines -> e' < List.length lines)
    /\ (forall j, e <= j < e' -> includes (ch ")") (nth j lines []) = false)
    /\ (e' < List.length lines - 1 ->
        includes (ch ")") (nth e' lines []) = true)
    /\ snd (parenLoop fuel lines e c)
       = c ++ flat_map (fun l => str " " ++ trim l)
                       (slice lines (S e) (S e')).
Proof.
  induction fuel as [|fuel IH]; intros e c Hf; cbn [parenLoop].
  - cbn [fst snd]. unfold slice. rewrite Nat.sub_diag. cbn [firstn flat_map].
    rewrite app_nil_r. repeat split; try lia.
  - destruct (Nat.ltb_spec e (List.length lines - 1)) as [Hlt | Hge].
    + destruct (includes (ch ")") (nth e lines [])) eqn:Hin; cbn [negb andb].
      * cbn [fst snd]. unfold slice. rewrite Nat.sub_diag.
        cbn [firstn flat_map]. rewrite app_nil_r. repeat split; try lia.
        intros _. exact Hin.
      * destruct (IH (S e) (c ++ str " " ++ trim (nth (S e) lines []))
                    ltac:(lia)) as (H1 & H2 & H3 & H4 & H5).
        cbv zeta in *. split; [lia|]. split; [intros _; apply H2; lia|].
        split; [|split; [exact H4|]].
        -- intros j Hj. destruct (Nat.eq_dec j e) as [-> | Hne];
             [exact Hin|apply H3; lia].
        -- rewrite H5. rewrite <- app_assoc. f_equal.
           unfold slice.
           replace (S (fst (parenLoop fuel lines (S e)
                              (c ++ str " " ++ trim (nth (S e) lines []))))
                    - S e)
             with (S (S (fst (parenLoop fuel lines (S e)
                                (c ++ str " " ++ trim (nth (S e) lines []))))
                      - S (S e))) by lia.
           assert (Hs : skipn (S e) lines
                        = nth (S e) lines [] :: skipn (S (S e)) lines).
           { clear - Hlt. revert e Hlt.
             induction lines as [|l lines IHl]; intros e Hlt;
               [simpl in Hlt; lia|].
             destruct e as [|e].
             - destruct lines; [simpl in Hlt; lia|reflexivity].
             - change (skipn (S (S e)) (l :: lines)) with (skipn (S e) lines).
               change (nth (S (S e)) (l :: lines) [])
                 with (nth (S e) lines []).
               change (skipn (S (S (S e))) (l :: lines))
                 with (skipn (S (S e)) lines).
               apply IHl. simpl in Hlt. lia. }
           rewrite Hs. cbn [firstn flat_map]. now rewrite <- app_assoc.
    + cbn [andb fst snd]. unfold slice. rewrite Nat.sub_diag.
      cbn [firstn flat_map]. rewrite app_nil_r. repeat split; try lia.
Qed.

Lemma skipn_next (lines : list jstring) (e : nat) :
  e < List.length lines - 1 ->
  skipn (S e) lines = nth (S e) lines [] :: skipn (S (S e)) lines.
Proof.
  revert e. induction lines as [|l lines IHl]; intros e Hlt;
    [simpl in Hlt; lia|].
  destruct e as [|e].
  - destruct lines; [simpl in Hlt; lia|reflexivity].
  - change (skipn (S (S e)) (l :: lines)) with (skipn (S e) lines).
    change (nth (S (S e)) (l :: lines) []) with (nth (S e) lines []).
    change (skipn (S (S (S e))) (l :: lines)) with (skipn (S (S e)) lines).
    apply IHl. simpl in Hlt. lia.
Qed.

Lemma backslashLoop_spec (lines : list jstring) (fuel : nat) :
  forall (e : nat) (c : jstring),
    List.length lines - e <= fuel ->
    let e' := fst (backslashLoop fuel lines e c) in
    e <= e'
    /\ (e < List.length lines -> e' < List.length lines)
    /\ (forall j, e <= j < e' ->
          endsWith (str "\") (trimEnd (nth j lines [])) = true)
    /\ (e' < List.length lines - 1 ->
        endsWith (str "\") (trimEnd (nth e' lines [])) = false)
    /\ snd (backslashLoop fuel lines e c)
       = c ++ flat_map (fun l => str " " ++ trim l)
                       (slice lines (S e) (S e')).
Proof.
  induction fuel as [|fuel IH]; intros e c Hf; cbn [backslashLoop].
  - cbn [fst snd]. unfold slice. rewrite Nat.sub_diag. cbn [firstn flat_map].
    rewrite app_nil_r. repeat split; try lia.
  - destruct (Nat.ltb_spec e (List.length lines - 1)) as [Hlt | Hge].
    + destruct (endsWith (str "\") (trimEnd (nth e lines []))) eqn:Hin;
        cbn [andb].
      * destruct (IH (S e) (c ++ str " " ++ trim (nth (S e) lines []))
                    ltac:(lia)) as (H1 & H2 & H3 & H4 & H5).
        cbv zeta in *. split; [lia|]. split; [intros _; apply H2; lia|].
        split; [|split; [exact H4|]].
        -- intros j Hj. destruct (Nat.eq_dec j e) as [-> | Hne];
             [exact Hin|apply H3; lia].
        -- rewrite H5. rewrite <- app_assoc. f_equal.
           unfold slice.
           replace (S (fst (backslashLoop fuel lines (S e)
                              (c ++ str " " ++ trim (nth (S e) lines []))))
                    - S e)
             with (S (S (fst (backslashLoop fuel lines (S e)
                                (c ++ str " " ++ trim (nth (S e) lines []))))
                      - S (S e))) by lia.
           rewrite (skipn_next lines e Hlt). cbn [firstn flat_map].
           now rewrite <- app_assoc.
      * cbn [fst snd]. unfold slice. rewrite Nat.sub_diag.
        cbn [firstn flat_map]. rewrite app_nil_r. repeat split; try lia.
        intros _. exact Hin.
    + rewrite andb_false_r. cbn [fst snd]. unfold slice. rewrite Nat.sub_diag.
      cbn [firstn flat_map]. rewrite app_nil_r. repeat split; try lia.
Qed.

(** X7. The parenthesis loop of a from-import, started on a line of the
    file, takes in the following lines up to the first line that holds a
    closing parenthesis, that line included, or up to the last line of the
    file when there is none; the content grows by a blank and the trimmed
    text of every line taken in. *)
Theorem parenLoop_takes_lines (lines : list jstring) (e : nat) (c : jstring) :
  e < List.length lines ->
  let e' := fst (parenLoop (List.length lines) lines e c) in
  e <= e' < List.length lines
  /\ (forall j, e <= j < e' -> includes (ch ")") (nth j lines []) = false)
  /\ (e' < List.length lines - 1 -> includes (ch ")") (nth e' lines []) = true)
  /\ snd (parenLoop (List.length lines) lines e c)
     = c ++ flat_map (fun l => str " " ++ trim l) (slice lines (S e) (S e')).
Proof.
  intros He.
  destruct (parenLoop_spec lines (List.length lines) e c ltac:(lia))
    as (H1 & H2 & H3 & H4 & H5).
  cbv zeta in *. repeat split; auto.
Qed.

Lemma parenLoop_takes_lines_witness :
  let lines := [str "from x import ("; str "  a,"; str "  b)"; str "import y"] in
  parenLoop (List.length lines) lines 0 (str "(")
  = (2, str "( a, b)")
  /\ includes (ch ")") (nth 1 lines []) = false.
Proof.
  intros lines. split; [vm_compute; reflexivity|].
  apply (proj1 (proj2 (parenLoop_takes_lines lines 0 (str "(")
                         ltac:(vm_compute; repeat constructor)))).
  vm_compute. split; repeat constructor.
Defined.

(** X8. The backslash loop of a from-import, started on a line of the
    file, takes in the next line as long as the current one ends with a
    backslash, trailing white space aside, and stops on the first line that
    does not or on the last line of the file. *)
Theorem backslashLoop_takes_lines (lines : list jstring) (e : nat)
    (c : jstring) :
  e < List.length lines ->
  let e' := fst (backslashLoop (List.length lines) lines e c) in
  e <= e' < List.length lines
  /\ (forall j, e <= j < e' ->
        endsWith (str "\") (trimEnd (nth j lines [])) = true)
  /\ (e' < List.length lines - 1 ->
      endsWith (str "\") (trimEnd (nth e' lines [])) = false)
  /\ snd (backslashLoop (List.length lines) lines e c)
     = c ++ flat_map (fun l => str " " ++ trim l) (slice lines (S e) (S e')).
Proof.
  intros He.
  destruct (backslashLoop_spec lines (List.length lines) e c ltac:(lia))
    as (H1 & H2 & H3 & H4 & H5).
  cbv zeta in *. repeat split; auto.
Qed.

Lemma backslashLoop_takes_lines_witness :
  let lines := [str "from x import a, \  "; str "  b"; str "import y"] in
  fst (backslashLoop (List.length lines) lines 0 (str "a, \")) = 1
  /\ endsWith (str "\") (trimEnd (nth 0 lines [])) = true.
Proof.
  intros lines. split; [vm_compute; reflexivity|].
  apply (proj1 (proj2 (backslashLoop_takes_lines lines 0 (str "a, \")
                         ltac:(vm_compute; repeat constructor)))).
  vm_compute. split; repeat constructor.
Defined.

(** ** Records come from import lines only *)

Lemma exec_anchored_literal (kw : jstring) (tail : regex) (s : jstring)
    (m : rmatch) :
  exec (Seq Bol (Seq (Lit kw) tail)) s = Some m ->
  startsWith kw s = true /\ index m = 0.
Proof.
  intros H. unfold exec in H.
  apply searchFrom_spec in H as (n & Hn & Hp & Hr & Hrun).
  cbn [run] in Hrun. unfold index.
  destruct (Nat.eqb_spec (pos (mstart m)) 0) as [E | NE]; [|discriminate].
  assert (n = 0) by lia. subst n. rewrite run_Lit in Hrun.
  destruct (startsWith kw (rest (mstart m))) eqn:Es; [|discriminate].
  rewrite Hr in Es. now split.
Qed.

Lemma parseLine_keyword (d : TextDocument) (lines : list jstring) (i : nat) :
  fst (parseLine d lines i) <> [] ->
  startsWith (str "from") (trim (nth i lines [])) = true
  \/ startsWith (str "import") (trim (nth i lines [])) = true.
Proof.
  unfold parseLine.
  destruct (negb _ || _); [intros H; now contradiction H|].
  destruct (exec FROM_IMPORT_REGEX _) as [fromMatch|] eqn:Ef.
  - intros _. left.
    apply (exec_anchored_literal (str "from")) in Ef. apply Ef.
  - destruct (exec MULTI_IMPORT_REGEX _) as [multiMatch|] eqn:Em.
    + intros _. right.
      apply (exec_anchored_literal (str "import")) in Em. apply Em.
    + destruct (exec IMPORT_REGEX _) as [importMatch|] eqn:Ei;
        [|intros H; now contradiction H].
      intros _. right.
      apply (exec_anchored_literal (str "import")) in Ei. apply Ei.
Qed.

Lemma parseLoop_import_lines (d : TextDocument) (fuel : nat) :
  forall (i : nat) (acc : list ImportInfo),
    Forall (startsOnImportLine d) acc ->
    Forall (startsOnImportLine d)
           (parseLoop fuel d (split LF (getText d)) i acc).
Proof.
  induction fuel as [|fuel IH]; intros i acc Hacc; cbn [parseLoop];
    [exact Hacc|].
  destruct (i <? List.length (split LF (getText d))); [|exact Hacc].
  pose proof (parseLine_keyword d (split LF (getText d)) i) as Hkw.
  destruct (parseLine_ranges d (split LF (getText d)) i) as (_ & Hstart & _).
  destruct (parseLine d (split LF (getText d)) i) as [found next].
  cbn [fst snd] in *. apply IH. apply Forall_app. split; [exact Hacc|].
  apply Forall_forall. intros r Hr. unfold startsOnImportLine. cbv zeta.
  rewrite (proj1 (Hstart r Hr)). apply Hkw. intros E. now rewrite E in Hr.
Qed.

(** X10. Every record of the Python parser starts on a line whose text,
    once trimmed, begins with [from] or with [import]: blank lines, comment
    lines and all other lines give no record. *)
Theorem python_records_start_on_import_lines (d : TextDocument)
    (r : ImportInfo) :
  In r (imports (PythonParser.parse d)) -> startsOnImportLine d r.
Proof.
  unfold PythonParser.parse. cbn [imports].
  pose proof (parseLoop_import_lines d (List.length (split LF (getText d)))
                0 [] (Forall_nil _)) as H.
  rewrite Forall_forall in H. apply H.
Qed.

Lemma python_records_start_on_import_lines_witness :
  let d := mkDocument (str "python") (str "file:///a.py")
             (str "# import requests" ++ LF :: str "  import os") in
  exists r, imports (PythonParser.parse d) = [r]
            /\ line (rstart (range r)) = 1
            /\ startsOnImportLine d r.
Proof.
  intros d. eexists. split; [vm_compute; reflexivity|].
  split; [reflexivity|].
  apply (python_records_start_on_import_lines d). vm_compute. left. reflexivity.
Defined.

(** ** The shape of the records of the JS/TS parser *)

Lemma match_extent (r : regex) (s : jstring) (m : rmatch) :
  consumes r = true -> In m (execAll r s) ->
  index m < lastIndex m <= List.length s
  /\ matched m = firstn (lastIndex m - index m) (skipn (index m) s).
Proof.
  intros Hc H. unfold execAll in H.
  apply execLoop_spec in H as (n & Hn & Hp & Hr & Hrun).
  apply (run_consumes r Hc) in Hrun as (st' & (k & Hk & Hpk & _) & Hlt & [= ->]).
  unfold index, lastIndex, matched, consumed. simpl in Hp.
  rewrite Hr in Hk |- *. rewrite length_skipn in Hk. rewrite Hp.
  split; [lia|reflexivity].
Qed.

Lemma scan_record_shape (d : TextDocument) (r : regex)
    (record : rmatch -> list ImportInfo) (x : ImportInfo) :
  consumes r = true ->
  (forall m y, In y (record m) ->
     importStatement y = matched m /\ range y = JsTsParser.matchRange d m
     /\ language y = JsTsParser.getLanguage d /\ fileUri y = uri d) ->
  In x (flat_map record (execAll r (getText d))) ->
  jstsRecordShape d x.
Proof.
  intros Hc Hrec Hx. apply in_flat_map in Hx as (m & Hm & Hx).
  destruct (Hrec m x Hx) as (Hs & Hr & Hl & Hu).
  destruct (match_extent r (getText d) m Hc Hm) as [Hext Hmt].
  exists (index m), (lastIndex m). split; [exact Hext|].
  split; [now rewrite Hs|]. split; [|now split].
  rewrite Hr. now apply (matchRange_ends d r).
Qed.

Lemma es6Record_fields (d : TextDocument) (m : rmatch) (y : ImportInfo) :
  In y (JsTsParser.es6Record d m) ->
  importStatement y = matched m /\ range y = JsTsParser.matchRange d m
  /\ language y = JsTsParser.getLanguage d /\ fileUri y = uri d.
Proof.
  unfold JsTsParser.es6Record.
  destruct (BaseParser.isRelativeImport _); [intros []|].
  intros [<- | []]. now repeat split.
Qed.

Lemma requireRecord_fields (d : TextDocument) (m : rmatch) (y : ImportInfo) :
  In y (JsTsParser.requireRecord d m) ->
  importStatement y = matched m /\ range y = JsTsParser.matchRange d m
  /\ language y = JsTsParser.getLanguage d /\ fileUri y = uri d.
Proof.
  unfold JsTsParser.requireRecord.
  destruct (BaseParser.isRelativeImport _); [intros []|].
  intros [<- | []]. now repeat split.
Qed.

Lemma plainRecord_fields (d : TextDocument) (m : rmatch) (y : ImportInfo) :
  In y (JsTsParser.plainRecord d m) ->
  importStatement y = matched m /\ range y = JsTsParser.matchRange d m
  /\ language y = JsTsParser.getLanguage d /\ fileUri y = uri d.
Proof.
  unfold JsTsParser.plainRecord.
  destruct (BaseParser.isRelativeImport _); [intros []|].
  intros [<- | []]. now repeat split.
Qed.

Lemma allImports_shape (d : TextDocument) (x : ImportInfo) :
  In x (allImports d) -> jstsRecordShape d x.
Proof.
  unfold allImports. cbv zeta. intros H.
  repeat (apply in_app_or in H as [H | H]).
  - apply (scan_record_shape d ES6_IMPORT_REGEX (JsTsParser.es6Record d));
      [reflexivity|apply es6Record_fields|exact H].
  - apply (scan_record_shape d REQUIRE_REGEX (JsTsParser.requireRecord d));
      [reflexivity|apply requireRecord_fields|exact H].
  - apply (scan_record_shape d DYNAMIC_IMPORT_REGEX (JsTsParser.plainRecord d));
      [reflexivity|apply plainRecord_fields|exact H].
  - apply (scan_record_shape d REEXPORT_REGEX (JsTsParser.plainRecord d));
      [reflexivity|apply plainRecord_fields|exact H].
Qed.

Lemma parse_subset_allImports (d : TextDocument) (x : ImportInfo) :
  In x (imports (JsTsParser.parse d)) -> In x (allImports d).
Proof.
  cbn [JsTsParser.parse imports]. intros H.
  apply (proj2 (deduplicateImports_spec (allImports d))) in H
    as (l1 & l2 & -> & _).
  apply in_or_app. right. now left.
Qed.

(** X11. The range of every record of the JS/TS parser bounds its
    statement exactly: the statement is the text of the document between
    two offsets, not empty, and the range runs from the position of the
    first offset to the position of the second.  The record carries the
    language derived from the tag of the document, and its uri. *)
Theorem jsts_records_shape (d : TextDocument) (r : ImportInfo) :
  In r (imports (JsTsParser.parse d)) -> jstsRecordShape d r.
Proof.
  intros H. now apply allImports_shape, parse_subset_allImports.
Qed.

Lemma jsts_records_shape_witness :
  let d := mkDocument (str "typescript") (str "file:///a.ts")
             (str "// x" ++ LF :: str "const a = require('b');") in
  exists r, imports (JsTsParser.parse d) = [r]
            /\ importStatement r = str "const a = require('b')"
            /\ jstsRecordShape d r.
Proof.
  intros d. eexists. split; [vm_compute; reflexivity|].
  split; [reflexivity|].
  apply (jsts_records_shape d). vm_compute. left. reflexivity.
Defined.

(** ** The matcher stays in the text *)

Lemma skipn_cons_nth (s : jstring) :
  forall (i : nat) (c : char) (t : jstring),
    skipn i s = c :: t ->
    nth_error s i = Some c /\ skipn (S i) s = t /\ i < List.length s.
Proof.
  induction s as [|x s IH]; intros i c t H.
  - destruct i; discriminate.
  - destruct i as [|i].
    + injection H as -> ->. simpl. split; [reflexivity|].
      split; [reflexivity|lia].
    + destruct (IH i c t H) as (H1 & H2 & H3). simpl.
      split; [exact H1|]. split; [exact H2|lia].
Qed.

Lemma aligned_advance (s : jstring) (st : mstate) :
  aligned s st -> aligned s (advance st).
Proof.
  intros (Hp & Hr & Hv). unfold advance.
  destruct (rest st) as [|c t] eqn:E;
    [rewrite <- E in Hr; exact (conj Hp (conj Hr Hv))|].
  destruct (skipn_cons_nth s _ c t (eq_sym Hr)) as (H1 & H2 & H3).
  unfold aligned. cbn [pos rest prev].
  split; [lia|]. split; [now symmetry|now symmetry].
Qed.

Lemma aligned_same (s : jstring) (st st' : mstate) :
  aligned s st -> pos st' = pos st -> rest st' = rest st ->
  prev st' = prev st -> aligned s st'.
Proof.
  intros (Hp & Hr & Hv) E1 E2 E3. unfold aligned.
  rewrite E1, E2, E3. exact (conj Hp (conj Hr Hv)).
Qed.

Lemma starLoop_aligned (s : jstring)
    (body : mstate -> cont -> option mstate) (k : cont) :
  (forall st k' e, aligned s st -> body st k' = Some e ->
     exists st', aligned s st' /\ k' st' = Some e) ->
  forall (fuel : nat) (st e : mstate),
    aligned s st -> starLoop body fuel k st = Some e ->
    exists st', aligned s st' /\ k st' = Some e.
Proof.
  intros Hbody. induction fuel as [|fuel IH]; intros st e Ha; simpl.
  - intros H. now exists st.
  - destruct (body st _) as [r|] eqn:E.
    + intros [= ->]. apply (Hbody st _ _ Ha) in E as (st1 & H1 & E).
      destruct (pos st <? pos st1); [|discriminate].
      now apply (IH st1 e H1).
    + intros H. now exists st.
Qed.

Lemma run_aligned (s : jstring) (r : regex) :
  forall (st : mstate) (k : cont) (e : mstate),
    aligned s st -> run r st k = Some e ->
    exists st', aligned s st' /\ k st' = Some e.
Proof.
  induction r as [ | p | a IHa b IHb | a IHa b IHb | a IHa | n a IHa
                 | | | | p | a IHa ]; intros st k e Ha; cbn [run].
  - intros H. now exists st.
  - destruct (rest st) as [|c t] eqn:E; [discriminate|].
    destruct (p c); [|discriminate]. intros H. exists (advance st).
    split; [now apply aligned_advance|exact H].
  - intros H. apply (IHa st _ _ Ha) in H as (st1 & H1 & H).
    now apply (IHb st1 _ _ H1).
  - destruct (run a st k) as [x|] eqn:E.
    + intros [= ->]. now apply (IHa st k).
    + now apply IHb.
  - apply starLoop_aligned; [|exact Ha]. intros st0 k' e0 Ha0.
    now apply IHa.
  - intros H. apply (IHa st _ _ Ha) in H as (st1 & H1 & H). eexists.
    split; [|exact H]. now apply (aligned_same s st1).
  - destruct (pos st =? 0); [|discriminate]. intros H. now exists st.
  - destruct (rest st); [|discriminate]. intros H. now exists st.
  - destruct (atWordBoundary st); [|discriminate]. intros H. now exists st.
  - destruct (prev st) as [c|] eqn:E; [destruct (p c); [discriminate|]|];
      intros H; now exists st.
  - destruct (run a st Some) as [x|]; [|discriminate]. intros H. eexists.
    split; [|exact H]. now apply (aligned_same s st).
Qed.

Lemma searchFrom_aligned (s : jstring) (r : regex) (t : jstring) :
  forall (p : option char) (i : nat) (m : rmatch),
    aligned s (MState p i t []) ->
    searchFrom r p i t = Some m ->
    aligned s (mstart m) /\ aligned s (mend m)
    /\ run r (mstart m) Some = Some (mend m).
Proof.
  induction t as [|c t IH]; intros p i m Ha; cbn [searchFrom].
  - destruct (run r _ Some) as [e|] eqn:E; [|discriminate].
    intros [= <-]. cbn [mstart mend]. split; [exact Ha|]. split; [|exact E].
    apply (run_aligned s r _ _ _ Ha) in E as (st' & H & [= ->]). exact H.
  - destruct (run r _ Some) as [e|] eqn:E.
    + intros [= <-]. cbn [mstart mend]. split; [exact Ha|]. split; [|exact E].
      apply (run_aligned s r _ _ _ Ha) in E as (st' & H & [= ->]). exact H.
    + apply IH. apply aligned_advance in Ha. exact Ha.
Qed.

(** Every result of the global loop starts and ends at an offset of the
    text, with the code unit before it in view. *)
Lemma execLoop_aligned (s : jstring) (r : regex) (fuel : nat) :
  forall (p : option char) (i : nat) (t : jstring) (m : rmatch),
    aligned s (MState p i t []) ->
    In m (execLoop r fuel p i t) ->
    aligned s (mstart m) /\ aligned s (mend m)
    /\ run r (mstart m) Some = Some (mend m).
Proof.
  induction fuel as [|fuel IH]; intros p i t m Ha; cbn [execLoop]; [intros []|].
  destruct (searchFrom r p i t) as [m0|] eqn:E; [|intros []].
  apply (searchFrom_aligned s r t p i m0 Ha) in E as (H1 & H2 & H3).
  intros [<- | Hin]; [exact (conj H1 (conj H2 H3))|].
  apply (IH _ _ _ m) in Hin; [exact Hin|].
  now apply (aligned_same s (mend m0)).
Qed.

Lemma execAll_aligned (s : jstring) (r : regex) (m : rmatch) :
  In m (execAll r s) ->
  aligned s (mstart m) /\ aligned s (mend m)
  /\ run r (mstart m) Some = Some (mend m).
Proof.
  apply execLoop_aligned. unfold aligned. cbn [pos rest prev].
  split; [lia|]. split; reflexivity.
Qed.

(** ** Where the usages of one identifier lie *)

Lemma pos_advanceN (n : nat) :
  forall st : mstate,
    n <= List.length (rest st) -> pos (advanceN n st) = pos st + n.
Proof.
  induction n as [|n IH]; intros st Hn; cbn [advanceN]; [lia|].
  destruct st as [p i [|c r] cs]; [simpl in Hn; lia|].
  unfold advance. cbn [rest]. rewrite IH by (simpl in *; lia). simpl. lia.
Qed.

Lemma usagePattern_ends (identifier : jstring) (st e : mstate) :
  run (usagePattern identifier) st Some = Some e ->
  isWordOpt (prev st) = false /\ pos e = pos st + List.length identifier.
Proof.
  unfold usagePattern. rewrite patternOfEscaped_escapeRegex.
  cbn [Seqs run]. intros H.
  assert (Hw : isWordOpt (prev st) = false).
  { destruct (prev st) as [c|]; [|reflexivity]. cbn [isWordOpt].
    destruct (isWord c); [discriminate|reflexivity]. }
  split; [exact Hw|].
  assert (H' : run (Lit identifier) st
                 (fun st' => match run (Seq (Star space) (Cls isFollow)) st' Some with
                             | Some e0 => Some (MState (prev st') (pos st')
                                                  (rest st') (caps e0))
                             | None => None
                             end) = Some e).
  { destruct (prev st) as [c|]; [destruct (isWord c); [discriminate|]|];
      exact H. }
  clear H. rewrite run_Lit in H'.
  destruct (startsWith identifier (rest st)) eqn:Es; [|discriminate].
  destruct (run (Seq (Star space) (Cls isFollow)) _ Some) as [e0|];
    [|discriminate].
  injection H' as <-. cbn [pos]. apply pos_advanceN.
  now apply startsWith_length.
Qed.

Lemma orderedPairs_In_weaken (A : Type) (R S : A -> A -> Prop) (l : list A) :
  (forall x y, In x l -> R x y -> S x y) ->
  orderedPairs R l -> orderedPairs S l.
Proof.
  induction l as [|a l IH]; intros H; cbn [orderedPairs]; [trivial|].
  intros [H1 H2]. split.
  - revert H1. apply Forall_impl. intros y. apply H. now left.
  - apply IH; [|exact H2]. intros x y Hx. apply H. now right.
Qed.

Lemma orderedPairs_map (A B : Type) (f : A -> B) (R : B -> B -> Prop)
    (l : list A) :
  orderedPairs (fun x y => R (f x) (f y)) l -> orderedPairs R (map f l).
Proof.
  induction l as [|a l IH]; cbn [orderedPairs map]; [trivial|].
  intros [H1 H2]. split; [|now apply IH].
  apply Forall_map. exact H1.
Qed.

Lemma orderedPairs_filter (A : Type) (f : A -> bool) (R : A -> A -> Prop)
    (l : list A) :
  orderedPairs R l -> orderedPairs R (filter f l).
Proof.
  induction l as [|a l IH]; cbn [orderedPairs filter]; [trivial|].
  intros [H1 H2]. destruct (f a); [|now apply IH].
  cbn [orderedPairs]. split; [|now apply IH].
  apply Forall_forall. intros y Hy. apply filter_In in Hy as [Hy _].
  rewrite Forall_forall in H1. now apply H1.
Qed.

Lemma usage_matches_ordered (identifier text : jstring) :
  orderedPairs (fun m1 m2 => index m1 + List.length identifier <= index m2)
               (execAll (usagePattern identifier) text).
Proof.
  apply (orderedPairs_In_weaken _ (fun m1 m2 => lastIndex m1 <= index m2)).
  - intros m1 m2 Hm1 H. apply execAll_aligned in Hm1 as (_ & _ & Hrun).
    apply usagePattern_ends in Hrun as [_ Hp]. unfold lastIndex, index in *.
    lia.
  - apply (execLoop_ordered (usagePattern identifier)
             (S (List.length text)) None 0 text).
Qed.

(** X12. The usages found for one identifier are listed in the order of
    the text and do not overlap: each later one starts at or after the end
    of the earlier one. *)
Theorem usageOffsets_ordered (d : TextDocument) (identifier : jstring)
    (imp : ImportInfo) (l1 l2 l3 : list nat) (a b : nat) :
  usageOffsets d identifier imp = l1 ++ a :: l2 ++ b :: l3 ->
  a + List.length identifier <= b.
Proof.
  intros E.
  apply (orderedPairs_split _
           (fun a b => a + List.length identifier <= b) l1 l2 l3).
  rewrite <- E. unfold usageOffsets.
  destruct (negb (truthy identifier)); [exact I|].
  apply orderedPairs_filter, orderedPairs_map, usage_matches_ordered.
Qed.

Lemma usageOffsets_ordered_witness :
  let d := mkDocument (str "python") (str "file:///a.py")
             (str "import os" ++ LF :: str "os.x(os.y)") in
  let imp := mkImportInfo (str "os") (str "import os") python
               (RangeOf (mkPosition 0 0) (mkPosition 0 9)) (uri d)
               None None None in
  usageOffsets d (str "os") imp = [10; 15] /\ 10 + 2 <= 15.
Proof.
  intros d imp. split; [vm_compute; reflexivity|].
  apply (usageOffsets_ordered d (str "os") imp [] [] [] 10 15).
  vm_compute. reflexivity.
Defined.

(** X13. A reported usage is never the tail of a longer word, and it lies
    within the text: the code unit before it, if there is one, is not a
    word character, and the identifier ends at or before the end of the
    text. *)
Theorem usageOffsets_left_boundary (d : TextDocument) (identifier : jstring)
    (imp : ImportInfo) (offset : nat) :
  In offset (usageOffsets d identifier imp) ->
  offset + List.length identifier <= List.length (getText d)
  /\ match offset with
     | O => True
     | S n => exists c, nth_error (getText d) n = Some c /\ isWord c = false
     end.
Proof.
  intros H. apply usageOffsets_matches in H as (m & Hm & <-).
  apply execAll_aligned in Hm as ((Hp & Hr & Hv) & (Hpe & _) & Hrun).
  apply usagePattern_ends in Hrun as [Hw He]. unfold index.
  split; [lia|]. destruct (pos (mstart m)) as [|n]; [exact I|].
  rewrite Hv in Hw. destruct (nth_error (getText d) n) as [c|] eqn:E.
  - exists c. split; [reflexivity|exact Hw].
  - apply nth_error_None in E. lia.
Qed.

Lemma usageOffsets_left_boundary_witness :
  let d := mkDocument (str "python") (str "file:///a.py")
             (str "import os" ++ LF :: str "myos.x + os.y") in
  let imp := mkImportInfo (str "os") (str "import os") python
               (RangeOf (mkPosition 0 0) (mkPosition 0 9)) (uri d)
               None None None in
  usageOffsets d (str "os") imp = [19]
  /\ exists c, nth_error (getText d) 18 = Some c /\ isWord c = false.
Proof.
  intros d imp. split; [vm_compute; reflexivity|].
  apply (proj2 (usageOffsets_left_boundary d (str "os") imp 19
                  ltac:(vm_compute; left; reflexivity))).
Defined.

(** ** The kind of a usage *)

Lemma plus_class (p : char -> bool) (k : cont) (st e : mstate) :
  run (Plus (Cls p)) st k = Some e ->
  exists ws st', ws <> [] /\ rest st = ws ++ rest st'
                 /\ forallb p ws = true /\ k st' = Some e.
Proof.
  unfold Plus. cbn [run]. destruct (rest st) as [|c t] eqn:Er; [discriminate|].
  destruct (p c) eqn:Ec; [|discriminate]. intros H.
  apply starLoop_class in H as (ws & st' & Hr & Hws & Hk).
  exists (c :: ws), st'. unfold advance in Hr. rewrite Er in Hr.
  cbn [rest] in Hr. cbn [app forallb]. rewrite <- Hr, Ec, Hws.
  repeat split; [discriminate|exact Hk].
Qed.

(** A greedy run over one class reads all the code units of the class that
    lie ahead when what remains of the pattern matches after them. *)
Lemma starLoop_class_greedy (p : char -> bool) (k : cont) (e : mstate)
    (t : jstring) :
  match t with [] => True | c :: _ => p c = false end ->
  forall (ws : jstring) (fuel : nat) (st : mstate),
    rest st = ws ++ t -> forallb p ws = true -> List.length ws <= fuel ->
    k (advanceN (List.length ws) st) = Some e ->
    starLoop (run (Cls p)) fuel k st = Some e.
Proof.
  intros Ht. induction ws as [|c ws IH]; intros fuel st Hr Hws Hf Hk.
  - cbn [List.length advanceN] in Hk. destruct fuel as [|fuel];
      cbn [starLoop]; [exact Hk|].
    cbn [run]. rewrite Hr. cbn [app].
    destruct t as [|c t]; [exact Hk|]. rewrite Ht. exact Hk.
  - destruct fuel as [|fuel]; [simpl in Hf; lia|]. cbn [starLoop run].
    rewrite Hr. cbn [app]. cbn [forallb] in Hws.
    apply andb_true_iff in Hws as [Hc Hws]. rewrite Hc.
    assert (Ea : advance st = MState (Some c) (S (pos st)) (ws ++ t) (caps st)).
    { unfold advance. rewrite Hr. reflexivity. }
    rewrite Ea. cbn [pos].
    replace (pos st <? S (pos st)) with true
      by (symmetry; apply Nat.ltb_lt; lia).
    change (match starLoop (run (Cls p)) fuel k
                    (MState (Some c) (S (pos st)) (ws ++ t) (caps st)) with
            | Some r => Some r
            | None => k st
            end = Some e).
    rewrite (IH fuel (MState (Some c) (S (pos st)) (ws ++ t) (caps st))
               eq_refl Hws ltac:(simpl in Hf; lia)); [reflexivity|].
    rewrite <- Ea. exact Hk.
Qed.

Lemma plus_class_greedy (p : char -> bool) (k : cont) (e : mstate)
    (c : char) (ws t : jstring) (st : mstate) :
  match t with [] => True | x :: _ => p x = false end ->
  rest st = c :: ws ++ t -> p c = true -> forallb p ws = true ->
  k (advanceN (S (List.length ws)) st) = Some e ->
  run (Plus (Cls p)) st k = Some e.
Proof.
  intros Ht Hr Hc Hws Hk. unfold Plus. cbn [run]. rewrite Hr, Hc.
  apply (starLoop_class_greedy p k e t Ht ws); [| exact Hws | | exact Hk].
  - unfold advance. rewrite Hr. reflexivity.
  - unfold advance. rewrite Hr. cbn [rest]. rewrite length_app. lia.
Qed.

Lemma forallb_last (p : char -> bool) (u : jstring) (c : char) :
  forallb p (u ++ [c]) = true -> p c = true.
Proof.
  rewrite forallb_app. intros H. apply andb_true_iff in H as [_ H].
  cbn in H. now rewrite andb_true_r in H.
Qed.

(** The last-word pattern needs word characters and then white space up to
    the end: it finds nothing from a place that has a code unit outside of
    words before a final word. *)
Lemma last_word_no_match (u w : jstring) (c : char) (st : mstate) (k : cont) :
  w <> [] -> forallb isWord w = true -> isWord c = false ->
  rest st = u ++ c :: w ->
  run LAST_WORD_REGEX st k = None.
Proof.
  intros Hne Hw Hc Hr.
  destruct (run LAST_WORD_REGEX st k) as [e|] eqn:E; [exfalso|reflexivity].
  unfold LAST_WORD_REGEX in E. cbn [Seqs] in E.
  change (run (Seq (Grp 1 (Plus word)) (Seq (Star space) Eol)) st k)
    with (run (Plus word) st
            (fun st' => run (Seq (Star space) Eol) (setCap 1 st st') k)) in E.
  apply plus_class in E as (ws & st' & _ & Hr1 & Hws & E).
  cbn [run] in E. apply starLoop_class in E as (ws2 & st2 & Hr2 & Hws2 & E).
  destruct (rest st2) eqn:E2; [|discriminate]. clear E.
  cbn [setCap rest] in Hr2. rewrite app_nil_r in Hr2.
  rewrite Hr2, Hr in Hr1. clear Hr2 Hr.
  destruct (exists_last Hne) as (w' & z & ->).
  pose proof (forallb_last _ _ _ Hw) as Hz.
  destruct ws2 as [|y ws2] using rev_ind.
  - rewrite app_nil_r in Hr1. rewrite <- Hr1 in Hws.
    rewrite forallb_app in Hws. apply andb_true_iff in Hws as [_ Hws].
    cbn [forallb] in Hws. now rewrite Hc in Hws.
  - clear IHws2.
    change (u ++ c :: w' ++ [z]) with (u ++ (c :: w') ++ [z]) in Hr1.
    rewrite !app_assoc in Hr1. apply app_inj_tail in Hr1 as [_ <-].
    apply forallb_last in Hws2. apply isWord_not_space in Hz. congruence.
Qed.

Lemma last_word_match (w : jstring) (st : mstate) :
  w <> [] -> forallb isWord w = true -> rest st = w ->
  exists e, run LAST_WORD_REGEX st Some = Some e
            /\ lookupCap 1 (caps e) = Some w.
Proof.
  intros Hne Hw Hr. destruct w as [|c w]; [congruence|].
  cbn [forallb] in Hw. apply andb_true_iff in Hw as [Hc Hw].
  set (stE := advanceN (S (List.length w)) st).
  assert (HrE : rest stE = []).
  { unfold stE. rewrite rest_advanceN, Hr. apply skipn_all. }
  assert (HpE : pos stE = pos st + S (List.length w)).
  { unfold stE. apply pos_advanceN. rewrite Hr. simpl. lia. }
  exists (setCap 1 st stE). split.
  - unfold LAST_WORD_REGEX. cbn [Seqs].
    change (run (Seq (Grp 1 (Plus word)) (Seq (Star space) Eol)) st Some)
      with (run (Plus word) st
              (fun st' => run (Seq (Star space) Eol) (setCap 1 st st') Some)).
    apply (plus_class_greedy isWord _ _ c w []); try assumption;
      [exact I|now rewrite app_nil_r|].
    fold stE. unfold space. cbn [run starLoop].
    change (rest (setCap 1 st stE)) with (rest stE). rewrite HrE.
    reflexivity.
  - cbn [setCap caps lookupCap]. cbn [Nat.eqb]. unfold consumed.
    rewrite HpE, Hr. replace (pos st + S (List.length w) - pos st)
      with (List.length (c :: w)) by (simpl; lia).
    now rewrite firstn_all.
Qed.

Lemma endsOutsideWord_tail (x : char) (s : jstring) :
  endsOutsideWord (x :: s) -> endsOutsideWord s.
Proof.
  intros [H | (u & c & E & Hc)]; [discriminate|].
  destruct s as [|y s]; [now left|]. right.
  destruct u as [|x' u]; [discriminate|]. injection E as _ E.
  now exists u, c.
Qed.

Lemma searchFrom_last_word (w : jstring) :
  w <> [] -> forallb isWord w = true ->
  forall (pre : jstring) (p : option char) (i : nat),
    endsOutsideWord pre ->
    exists m, searchFrom LAST_WORD_REGEX p i (pre ++ w) = Some m
              /\ groupStr 1 m = w.
Proof.
  intros Hne Hw. induction pre as [|x pre IH]; intros p i Hpre.
  - cbn [app]. destruct (last_word_match w (MState p i w []) Hne Hw eq_refl)
      as (e & He & Hc).
    exists (RMatch (MState p i w []) e). split.
    + destruct w; [congruence|]. cbn [searchFrom]. now rewrite He.
    + unfold groupStr, group. cbn [mend]. now rewrite Hc.
  - destruct (IH (Some x) (S i) (endsOutsideWord_tail _ _ Hpre)) as (m & Hm & Hg).
    exists m. split; [|exact Hg].
    destruct Hpre as [H | (u & c & E & Hc)]; [discriminate|].
    assert (Er : (x :: pre) ++ w = u ++ c :: w)
      by (rewrite E, <- app_assoc; reflexivity).
    cbn [app searchFrom].
    rewrite (last_word_no_match u w c); [exact Hm|assumption..|exact Er].
Qed.

Lemma substring_window (s : jstring) (a b : nat) :
  a <= b <= List.length s ->
  substring s (Z.of_nat a) (Z.of_nat b) = firstn (b - a) (skipn a s).
Proof.
  intros H. unfold substring, clamp, zlen.
  replace (Z.min (Z.max (Z.of_nat a) 0) _) with (Z.of_nat a) by lia.
  replace (Z.min (Z.max (Z.of_nat b) 0) _) with (Z.of_nat b) by lia.
  replace (Z.min _ _) with (Z.of_nat a) by lia.
  replace (Z.max _ _) with (Z.of_nat b) by lia.
  replace (Z.of_nat b - Z.of_nat a)%Z with (Z.of_nat (b - a)) by lia.
  now rewrite !Nat2Z.id.
Qed.

Lemma substring_beyond (s : jstring) (a n : nat) :
  a <= List.length s ->
  substring s (Z.of_nat a) (Z.of_nat a + Z.of_nat n) = firstn n (skipn a s).
Proof.
  intros H. unfold substring, clamp, zlen.
  replace (Z.min (Z.max (Z.of_nat a) 0) _) with (Z.of_nat a) by lia.
  destruct (Nat.le_gt_cases (a + n) (List.length s)) as [L | G].
  - replace (Z.min (Z.max (Z.of_nat a + Z.of_nat n) 0) _)
      with (Z.of_nat (a + n)) by lia.
    replace (Z.min _ _) with (Z.of_nat a) by lia.
    replace (Z.max _ _) with (Z.of_nat (a + n)) by lia.
    replace (Z.of_nat (a + n) - Z.of_nat a)%Z with (Z.of_nat n) by lia.
    now rewrite !Nat2Z.id.
  - replace (Z.min (Z.max (Z.of_nat a + Z.of_nat n) 0) _)
      with (Z.of_nat (List.length s)) by lia.
    replace (Z.min _ _) with (Z.of_nat a) by lia.
    replace (Z.max _ _) with (Z.of_nat (List.length s)) by lia.
    replace (Z.of_nat (List.length s) - Z.of_nat a)%Z
      with (Z.of_nat (List.length s - a)) by lia.
    rewrite !Nat2Z.id.
    rewrite !firstn_all2; [reflexivity| |]; rewrite length_skipn; lia.
Qed.

Lemma endsOutsideWord_skipn (n : nat) (s : jstring) :
  endsOutsideWord s -> endsOutsideWord (skipn n s).
Proof.
  revert s. induction n as [|n IH]; intros s H; [exact H|].
  destruct s as [|x s]; [now left|]. cbn [skipn].
  apply IH. now apply endsOutsideWord_tail with x.
Qed.

Lemma forallb_skipn (p : char -> bool) (n : nat) (s : jstring) :
  forallb p s = true -> forallb p (skipn n s) = true.
Proof.
  intros H. rewrite <- (firstn_skipn n s), forallb_app in H.
  now apply andb_true_iff in H as [_ H].
Qed.

(** The kind of usage computed for an occurrence of an identifier that
    does not continue a word. *)
Lemma determineUsageType_at (pre identifier post : jstring) :
  isIdentifier identifier -> endsOutsideWord pre ->
  determineUsageType (pre ++ identifier ++ post)
                     (List.length pre + List.length identifier)
  = usageTypeFor identifier post.
Proof.
  intros [Hne Hw] Hpre. unfold determineUsageType, usageTypeFor.
  set (p := List.length pre + List.length identifier).
  assert (Hnext : substring (pre ++ identifier ++ post) (Z.of_nat p)
                            (Z.of_nat p + 10) = firstn 10 post).
  { change 10%Z with (Z.of_nat 10). rewrite substring_beyond
      by (rewrite !length_app; unfold p; lia).
    unfold p. rewrite app_assoc, skipn_app, length_app, Nat.sub_diag.
    rewrite skipn_all2 by (rewrite length_app; lia). reflexivity. }
  rewrite Hnext.
  destruct (startsWith (str "(") (trim (firstn 10 post))); [|reflexivity].
  replace (Z.max 0 (Z.of_nat p - 50)) with (Z.of_nat (p - 50)) by lia.
  rewrite substring_window by (rewrite !length_app; unfold p; lia).
  assert (Hprev : firstn (p - (p - 50)) (skipn (p - 50) (pre ++ identifier ++ post))
                  = skipn (p - 50) pre
                    ++ skipn (List.length identifier - 50) identifier).
  { rewrite app_assoc, skipn_app.
    replace (p - 50 - List.length (pre ++ identifier)) with 0
      by (rewrite length_app; unfold p; lia).
    cbn [skipn]. rewrite firstn_app.
    replace (p - (p - 50) - List.length (skipn (p - 50) (pre ++ identifier)))
      with 0 by (rewrite length_skipn, length_app; unfold p; lia).
    cbn [firstn]. rewrite app_nil_r.
    rewrite firstn_all2
      by (rewrite length_skipn, length_app; unfold p; lia).
    rewrite skipn_app. f_equal. f_equal. unfold p. lia. }
  rewrite Hprev.
  assert (Hlen : List.length identifier - 50 < List.length identifier).
  { destruct identifier; [congruence|]. simpl. lia. }
  destruct (searchFrom_last_word
              (skipn (List.length identifier - 50) identifier)) with
      (pre := skipn (p - 50) pre) (p := @None char) (i := 0)
    as (m & Hm & Hg).
  - intros E. apply (f_equal (@List.length char)) in E.
    rewrite length_skipn in E. simpl in E. lia.
  - now apply forallb_skipn.
  - now apply endsOutsideWord_skipn.
  - unfold exec. rewrite Hm, Hg. reflexivity.
Qed.

(** X14. The kind of every reported usage of an identifier made of word
    characters is read off the text that follows it: an opening
    parenthesis (after optional white space, within ten code units) makes a
    call, a class instantiation when the identifier -- its last fifty code
    units, for a longer one -- starts with a capital letter; a dot makes an
    attribute access; anything else a reference. *)
Theorem usage_type_of_identifier (d : TextDocument) (identifier : jstring)
    (imp : ImportInfo) (loc : UsageLocation) :
  isIdentifier identifier ->
  In loc (findIdentifierUsages d identifier imp) ->
  exists offset,
    In offset (usageOffsets d identifier imp)
    /\ urange loc = mkRange (positionAt d offset)
                            (positionAt d (offset + List.length identifier))
    /\ usageType loc
       = usageTypeFor identifier
           (skipn (offset + List.length identifier) (getText d)).
Proof.
  intros Hid H. unfold findIdentifierUsages in H.
  apply in_map_iff in H as (offset & <- & H). exists offset.
  split; [exact H|]. split; [reflexivity|]. cbn [locationAt usageType].
  pose proof (usageOffsets_followed d identifier imp offset H) as [Hat _].
  apply usageOffsets_matches in H as (m & Hm & <-).
  apply execAll_aligned in Hm as ((Hp & Hr & Hv) & _ & Hrun).
  apply usagePattern_ends in Hrun as [Hw He]. unfold index in *.
  set (o := pos (mstart m)) in *. set (text := getText d) in *.
  assert (Hlen : o + List.length identifier <= List.length text).
  { destruct (Nat.le_gt_cases (o + List.length identifier) (List.length text))
      as [L|G]; [exact L|].
    apply (f_equal (@List.length char)) in Hat.
    rewrite length_firstn, length_skipn in Hat. lia. }
  assert (Etext : text = firstn o text ++ identifier
                         ++ skipn (o + List.length identifier) text).
  { rewrite <- (firstn_skipn o text) at 1. f_equal.
    rewrite <- (firstn_skipn (List.length identifier) (skipn o text)) at 1.
    rewrite Hat, skipn_skipn. f_equal. f_equal. lia. }
  assert (Eo : List.length (firstn o text) = o)
    by (rewrite length_firstn; lia).
  assert (Hpre : endsOutsideWord (firstn o text)).
  { destruct o as [|n] eqn:En; [now left|]. right.
    rewrite Hv in Hw. destruct (nth_error text n) as [c|] eqn:E.
    - exists (firstn n text), c. split; [|exact Hw].
      apply nth_error_split in E as (l1 & l2 & E1 & E2).
      rewrite E1. rewrite <- E2.
      replace (S (List.length l1)) with (List.length (l1 ++ [c]))
        by (rewrite length_app; simpl; lia).
      change (l1 ++ c :: l2) with (l1 ++ [c] ++ l2).
      rewrite app_assoc, firstn_app, firstn_all, Nat.sub_diag. cbn [firstn].
      rewrite app_nil_r, <- app_assoc, firstn_app, firstn_all, Nat.sub_diag.
      cbn [firstn]. now rewrite app_nil_r.
    - apply nth_error_None in E. lia. }
  pose proof (determineUsageType_at (firstn o text) identifier
                (skipn (o + List.length identifier) text) Hid Hpre) as HD.
  rewrite <- Etext, Eo in HD. exact HD.
Qed.

Lemma usage_type_of_identifier_witness :
  let d := mkDocument (str "python") (str "file:///a.py")
             (str "from flask import Flask" ++ LF :: str "app = Flask (1)") in
  let imp := mkImportInfo (str "flask") (str "from flask import Flask") python
               (RangeOf (mkPosition 0 0) (mkPosition 0 23)) (uri d)
               (Some [str "Flask"]) None None in
  let loc := mkUsageLocation (RangeOf (mkPosition 1 6) (mkPosition 1 11))
               (str "Flask") class_instantiation in
  findIdentifierUsages d (str "Flask") imp = [loc]
  /\ exists offset,
       In offset (usageOffsets d (str "Flask") imp)
       /\ urange loc = mkRange (positionAt d offset)
                               (positionAt d (offset + 5))
       /\ usageType loc
          = usageTypeFor (str "Flask") (skipn (offset + 5) (getText d)).
Proof.
  intros d imp loc. split; [vm_compute; reflexivity|].
  apply (usage_type_of_identifier d (str "Flask") imp loc).
  - split; [discriminate|vm_compute; reflexivity].
  - vm_compute. left. reflexivity.
Defined.

(** ** The identifiers tracked for an import *)

Lemma run_Seq (a b : regex) (st : mstate) (k : cont) :
  run (Seq a b) st k = run a st (fun st' => run b st' k).
Proof. reflexivity. Qed.

Lemma startsWith_self (p s : jstring) : startsWith p (p ++ s) = true.
Proof.
  induction p as [|c p IH]; [reflexivity|]. cbn [app startsWith].
  now rewrite eqc_refl, IH.
Qed.

Lemma rest_advanceN_app (u t : jstring) (st : mstate) :
  rest st = u ++ t -> rest (advanceN (List.length u) st) = t.
Proof.
  intros H. rewrite rest_advanceN, H, skipn_app, skipn_all, Nat.sub_diag.
  reflexivity.
Qed.

Lemma pos_advanceN_app (u t : jstring) (st : mstate) :
  rest st = u ++ t -> pos (advanceN (List.length u) st) = pos st + List.length u.
Proof.
  intros H. apply pos_advanceN. rewrite H, length_app. lia.
Qed.

Lemma run_Lit_here (s t : jstring) (st : mstate) (k : cont) :
  rest st = s ++ t ->
  run (Lit s) st k = k (advanceN (List.length s) st).
Proof.
  intros H. now rewrite run_Lit, H, startsWith_self.
Qed.

Lemma run_plus_here (p : char -> bool) (ws t : jstring) (st : mstate)
    (k : cont) (e : mstate) :
  ws <> [] -> forallb p ws = true ->
  match t with [] => True | x :: _ => p x = false end ->
  rest st = ws ++ t ->
  k (advanceN (List.length ws) st) = Some e ->
  run (Plus (Cls p)) st k = Some e.
Proof.
  intros Hne Hws Ht Hr Hk. destruct ws as [|c ws]; [congruence|].
  cbn [forallb] in Hws. apply andb_true_iff in Hws as [Hc Hws].
  now apply (plus_class_greedy p k e c ws t).
Qed.

Lemma isSpace_not_wordOrDot (c : char) :
  isSpace c = true -> isWord c || eqc c (ch ".") = false.
Proof.
  intros H. apply orb_false_iff. split.
  - destruct (isWord c) eqn:E; [|reflexivity].
    apply isWord_not_space in E. congruence.
  - destruct (eqc c (ch ".")) eqn:E; [|reflexivity].
    apply eqc_true in E. subst c. discriminate.
Qed.

Lemma wordOrDot_not_space (c : char) :
  isWord c || eqc c (ch ".") = true -> isSpace c = false.
Proof.
  intros H. destruct (isSpace c) eqn:E; [|reflexivity].
  apply isSpace_not_wordOrDot in E. congruence.
Qed.

(** The alias pattern starts with the keyword and white space. *)
Lemma alias_needs_keyword (st : mstate) (k : cont) :
  importKeywordAt (rest st) = false -> run ALIAS_REGEX st k = None.
Proof.
  unfold importKeywordAt, ALIAS_REGEX. cbn [Seqs]. intros H.
  rewrite run_Seq, run_Lit.
  destruct (startsWith (str "import") (rest st)); [|reflexivity].
  cbn [andb] in H. rewrite run_Seq. unfold Plus, space. cbn [run].
  rewrite rest_advanceN. change (List.length (str "import")) with 6.
  destruct (skipn 6 (rest st)) as [|c t]; [reflexivity|]. now rewrite H.
Qed.

Lemma searchFrom_skip (r : regex) (t : jstring) :
  forall (pre : jstring) (p : option char) (i : nat),
    (forall j q n, j < List.length pre ->
       run r (MState q n (skipn j (pre ++ t)) []) Some = None) ->
    exists p', searchFrom r p i (pre ++ t)
               = searchFrom r p' (i + List.length pre) t.
Proof.
  induction pre as [|x pre IH]; intros p i H.
  - exists p. cbn [app List.length]. now rewrite Nat.add_0_r.
  - destruct (IH (Some x) (S i)) as [p' E].
    { intros j q n Hj. apply (H (S j) q n). simpl. lia. }
    exists p'. pose proof (H 0 p i ltac:(simpl; lia)) as H0.
    cbn [skipn app] in H0. cbn [app searchFrom]. rewrite H0, E. f_equal.
    simpl. lia.
Qed.

(** At the keyword of an aliased import the alias pattern matches, and its
    group holds the alias. *)
Lemma alias_match_here (ws1 m ws2 ws3 a tail : jstring) (st : mstate) :
  isBlank ws1 -> isDottedName m -> isBlank ws2 -> isBlank ws3 ->
  isIdentifier a ->
  match tail with [] => True | c :: _ => isWord c = false end ->
  rest st = str "import" ++ ws1 ++ m ++ ws2 ++ str "as" ++ ws3 ++ a ++ tail ->
  exists e, run ALIAS_REGEX st Some = Some e
            /\ lookupCap 1 (caps e) = Some a.
Proof.
  intros [N1 S1] [Nm Sm] [N2 S2] [N3 S3] [Na Sa] Ht Hr.
  set (st1 := advanceN (List.length (str "import")) st).
  pose proof (rest_advanceN_app _ _ st Hr) as R1. fold st1 in R1.
  set (st2 := advanceN (List.length ws1) st1).
  pose proof (rest_advanceN_app _ _ st1 R1) as R2. fold st2 in R2.
  set (st3 := advanceN (List.length m) st2).
  pose proof (rest_advanceN_app _ _ st2 R2) as R3. fold st3 in R3.
  set (st4 := advanceN (List.length ws2) st3).
  pose proof (rest_advanceN_app _ _ st3 R3) as R4. fold st4 in R4.
  set (st5 := advanceN (List.length (str "as")) st4).
  pose proof (rest_advanceN_app _ _ st4 R4) as R5. fold st5 in R5.
  set (st6 := advanceN (List.length ws3) st5).
  pose proof (rest_advanceN_app _ _ st5 R5) as R6. fold st6 in R6.
  set (st7 := advanceN (List.length a) st6).
  pose proof (pos_advanceN_app _ _ st6 R6) as P7. fold st7 in P7.
  exists (setCap 1 st6 st7). split.
  - unfold ALIAS_REGEX. cbn [Seqs].
    rewrite run_Seq, (run_Lit_here _ _ st _ Hr). fold st1.
    rewrite run_Seq. unfold space.
    refine (run_plus_here isSpace ws1 _ st1 _ _ N1 S1 _ R1 _).
    { destruct m as [|c m]; [congruence|]. cbn [app]. cbn [forallb] in Sm.
      apply andb_true_iff in Sm as [Sm _]. now apply wordOrDot_not_space. }
    fold st2. rewrite run_Seq. unfold wordOrDot.
    refine (run_plus_here _ m _ st2 _ _ Nm Sm _ R2 _).
    { destruct ws2 as [|c ws2]; [congruence|]. cbn [app]. cbn [forallb] in S2.
      apply andb_true_iff in S2 as [S2 _]. now apply isSpace_not_wordOrDot. }
    fold st3. rewrite run_Seq.
    refine (run_plus_here isSpace ws2 _ st3 _ _ N2 S2 _ R3 _).
    { reflexivity. }
    fold st4. rewrite run_Seq, (run_Lit_here _ _ st4 _ R4). fold st5.
    rewrite run_Seq.
    refine (run_plus_here isSpace ws3 _ st5 _ _ N3 S3 _ R5 _).
    { destruct a as [|c a]; [congruence|]. cbn [app]. cbn [forallb] in Sa.
      apply andb_true_iff in Sa as [Sa _]. now apply isWord_not_space. }
    fold st6. unfold word.
    change (run (Grp 1 (Plus (Cls isWord))) st6 Some)
      with (run (Plus (Cls isWord)) st6 (fun st' => Some (setCap 1 st6 st'))).
    apply (run_plus_here isWord a tail st6 _ _ Na Sa Ht R6). reflexivity.
  - cbn [setCap caps lookupCap Nat.eqb]. unfold consumed.
    rewrite P7, R6.
    replace (pos st6 + List.length a - pos st6) with (List.length a) by lia.
    now rewrite firstn_app, firstn_all, Nat.sub_diag, app_nil_r.
Qed.

(** X15. An aliased import is tracked under its alias alone.  When the
    first [import] keyword of the statement is followed by a dotted name,
    [as] and an identifier, the identifiers of the record are that
    identifier and nothing else, whatever the package name and the named
    imports of the record: for [import numpy as np] the alias [np], and
    for [from flask import Flask as F, render_template] the alias [F]
    without [render_template]. *)
Theorem getIdentifiersFromImport_alias (imp : ImportInfo)
    (pre ws1 m ws2 ws3 a tail : jstring) :
  importStatement imp
  = pre ++ str "import" ++ ws1 ++ m ++ ws2 ++ str "as" ++ ws3 ++ a ++ tail ->
  (forall j, j < List.length pre ->
     importKeywordAt (skipn j (importStatement imp)) = false) ->
  isBlank ws1 -> isDottedName m -> isBlank ws2 -> isBlank ws3 ->
  isIdentifier a ->
  match tail with [] => True | c :: _ => isWord c = false end ->
  getIdentifiersFromImport imp = [a].
Proof.
  intros E Hpre H1 Hm H2 H3 Ha Ht. unfold getIdentifiersFromImport, exec.
  rewrite E in Hpre |- *.
  destruct (searchFrom_skip ALIAS_REGEX
              (str "import" ++ ws1 ++ m ++ ws2 ++ str "as" ++ ws3 ++ a ++ tail)
              pre None 0) as [p' Es].
  { intros j q n Hj. apply alias_needs_keyword. cbn [rest]. now apply Hpre. }
  rewrite Es.
  destruct (alias_match_here ws1 m ws2 ws3 a tail
              (MState p' (0 + List.length pre)
                 (str "import" ++ ws1 ++ m ++ ws2 ++ str "as" ++ ws3 ++ a ++ tail)
                 []) H1 Hm H2 H3 Ha Ht eq_refl) as (e & He & Hc).
  change (str "import" ++ ws1 ++ m ++ ws2 ++ str "as" ++ ws3 ++ a ++ tail)
    with (ch "i" :: (str "mport" ++ ws1 ++ m ++ ws2 ++ str "as" ++ ws3 ++ a ++ tail))
    in He |- *.
  cbn [searchFrom]. rewrite He. unfold groupStr, group. cbn [mend].
  now rewrite Hc.
Qed.

Lemma getIdentifiersFromImport_alias_witness :
  let imp := mkImportInfo (str "flask")
               (str "from flask import Flask as F, render_template") python
               (RangeOf (mkPosition 0 0) (mkPosition 0 45)) (str "file:///a.py")
               (Some [str "Flask"; str "render_template"]) None None in
  getIdentifiersFromImport imp = [str "F"].
Proof.
  intros imp.
  apply (getIdentifiersFromImport_alias imp (str "from flask ") (str " ")
           (str "Flask") (str " ") (str " ") (str "F")
           (str ", render_template")).
  - reflexivity.
  - intros j Hj. cbn in Hj.
    do 11 (destruct j as [|j]; [vm_compute; reflexivity|]). lia.
  - split; [discriminate|reflexivity].
  - split; [discriminate|reflexivity].
  - split; [discriminate|reflexivity].
  - split; [discriminate|reflexivity].
  - split; [discriminate|reflexivity].
  - reflexivity.
Defined.

(** ** What the capture groups hold *)

Lemma starLoop_kept (R : mstate -> mstate -> Prop)
    (body : mstate -> cont -> option mstate) (k : cont) :
  (forall st, R st st) ->
  (forall a b c, R a b -> R b c -> R a c) ->
  (forall st k' e, body st k' = Some e ->
     exists st', k' st' = Some e /\ R st st') ->
  forall (fuel : nat) (st e : mstate),
    starLoop body fuel k st = Some e ->
    exists st', k st' = Some e /\ R st st'.
Proof.
  intros Hrefl Htrans Hbody.
  induction fuel as [|fuel IH]; intros st e; cbn [starLoop].
  - intros H. now exists st.
  - destruct (body st _) as [r|] eqn:E.
    + intros [= ->]. apply Hbody in E as (st1 & E & H1).
      destruct (pos st <? pos st1); [|discriminate].
      apply IH in E as (st' & E & H2). exists st'. split; [exact E|].
      now apply (Htrans st st1 st').
    + intros H. now exists st.
Qed.

(** A pattern leaves alone the groups that it does not contain. *)
Lemma run_caps_kept (r : regex) :
  forall (st : mstate) (k : cont) (e : mstate),
    run r st k = Some e ->
    exists st', k st' = Some e
                /\ forall n, hasGroup n r = false ->
                     lookupCap n (caps st') = lookupCap n (caps st).
Proof.
  induction r as [ | p | a IHa b IHb | a IHa b IHb | a IHa | m a IHa
                 | | | | p | a IHa ]; intros st k e; cbn [run hasGroup].
  - intros H. now exists st.
  - destruct (rest st) as [|c t] eqn:E; [discriminate|].
    destruct (p c); [|discriminate]. intros H. exists (advance st).
    split; [exact H|]. intros n _. unfold advance. now rewrite E.
  - intros H. apply IHa in H as (st1 & H & H1).
    apply IHb in H as (st2 & H & H2). exists st2. split; [exact H|].
    intros n Hn. apply orb_false_iff in Hn as [Ha Hb].
    now rewrite (H2 n Hb), (H1 n Ha).
  - destruct (run a st k) as [x|] eqn:E.
    + intros [= ->]. apply IHa in E as (st1 & E & H1). exists st1.
      split; [exact E|]. intros n Hn. apply orb_false_iff in Hn as [Ha _].
      now apply H1.
    + intros H. apply IHb in H as (st1 & H & H1). exists st1.
      split; [exact H|]. intros n Hn. apply orb_false_iff in Hn as [_ Hb].
      now apply H1.
  - apply (starLoop_kept
             (fun s s' => forall n, hasGroup n a = false ->
                            lookupCap n (caps s') = lookupCap n (caps s))).
    + reflexivity.
    + intros x y z H1 H2 n Hn. now rewrite (H2 n Hn), (H1 n Hn).
    + exact IHa.
  - intros H. apply IHa in H as (st1 & H & H1). exists (setCap m st st1).
    split; [exact H|]. intros n Hn. apply orb_false_iff in Hn as [Hm Ha].
    cbn [setCap caps lookupCap]. rewrite Hm. now apply H1.
  - destruct (pos st =? 0); [|discriminate]. intros H. now exists st.
  - destruct (rest st); [|discriminate]. intros H. now exists st.
  - destruct (atWordBoundary st); [|discriminate]. intros H. now exists st.
  - destruct (prev st) as [c|]; [destruct (p c); [discriminate|]|];
      intros H; now exists st.
  - destruct (run a st Some) as [x|] eqn:E; [|discriminate]. intros H.
    apply IHa in E as (st1 & [= ->] & H1). eexists. split; [exact H|].
    exact H1.
Qed.

Lemma starLoop_class_pos (p : char -> bool) (k : cont) (fuel : nat) :
  forall (st e : mstate),
    starLoop (run (Cls p)) fuel k st = Some e ->
    exists ws st', rest st = ws ++ rest st'
                   /\ pos st' = pos st + List.length ws
                   /\ forallb p ws = true /\ k st' = Some e.
Proof.
  induction fuel as [|fuel IH]; intros st e; cbn [starLoop].
  - intros H. exists [], st. cbn. rewrite Nat.add_0_r. now repeat split.
  - destruct (run (Cls p) st _) as [x|] eqn:E.
    + intros [= ->]. cbn [run] in E.
      destruct (rest st) as [|c t] eqn:Er; [discriminate|].
      destruct (p c) eqn:Ec; [|discriminate].
      destruct (pos st <? pos (advance st)); [|discriminate].
      apply IH in E as (ws & st' & Hr & Hp & Hws & Hk).
      exists (c :: ws), st'. unfold advance in Hr, Hp. rewrite Er in Hr, Hp.
      cbn [rest pos] in Hr, Hp. cbn [app forallb List.length].
      rewrite <- Hr, Ec, Hws, Hp. repeat split; [lia|exact Hk].
    + intros H. exists [], st. cbn. rewrite Nat.add_0_r. now repeat split.
Qed.

Lemma grp_plus_captured (n : nat) (p : char -> bool) (st : mstate) (k : cont)
    (e : mstate) :
  run (Grp n (Plus (Cls p))) st k = Some e ->
  exists st', k st' = Some e /\ captured n p st'.
Proof.
  unfold Plus. cbn [run].
  destruct (rest st) as [|c t] eqn:Er; [discriminate|].
  destruct (p c) eqn:Ec; [|discriminate]. intros H.
  apply starLoop_class_pos in H as (ws & st' & Hr & Hp & Hws & Hk).
  exists (setCap n st st'). split; [exact Hk|]. exists (c :: ws).
  split; [discriminate|]. split; [cbn [forallb]; now rewrite Ec, Hws|].
  cbn [setCap caps lookupCap]. rewrite Nat.eqb_refl. unfold consumed.
  unfold advance in Hr, Hp. rewrite Er in Hr, Hp. cbn [rest pos] in Hr, Hp.
  rewrite Er, Hr, Hp.
  replace (S (pos st) + List.length ws - pos st)
    with (List.length (c :: ws)) by (cbn [List.length]; lia).
  change (c :: ws ++ rest st') with ((c :: ws) ++ rest st').
  now rewrite firstn_app, firstn_all, Nat.sub_diag, app_nil_r.
Qed.

Lemma run_sets (n : nat) (p : char -> bool) (r : regex) :
  setsGroup n p r ->
  forall (st : mstate) (k : cont) (e : mstate),
    run r st k = Some e -> exists st', k st' = Some e /\ captured n p st'.
Proof.
  induction r as [ | q | a IHa b IHb | a IHa b IHb | a IHa | m a IHa
                 | | | | q | a IHa ]; cbn [setsGroup]; try solve [intros []].
  - intros [[Ha Hb] | Hb] st k e H; rewrite run_Seq in H.
    + apply (IHa Ha) in H as (st1 & H & (ws & Hne & Hws & Hc)).
      apply run_caps_kept in H as (st2 & H & H2). exists st2.
      split; [exact H|]. exists ws. rewrite (H2 n Hb). now repeat split.
    + apply run_caps_kept in H as (st1 & H & _). now apply (IHb Hb) in H.
  - intros [Ha Hb] st k e. cbn [run]. destruct (run a st k) as [x|] eqn:E.
    + intros [= ->]. now apply (IHa Ha) in E.
    + now apply (IHb Hb).
  - intros [-> ->] st k e. apply grp_plus_captured.
Qed.

Lemma captured_groupStr (n : nat) (p : char -> bool) (m : rmatch) :
  captured n p (mend m) ->
  groupStr n m <> [] /\ forallb p (groupStr n m) = true.
Proof.
  intros (ws & Hne & Hws & Hc). unfold groupStr, group. rewrite Hc.
  now split.
Qed.

Lemma exec_sets (n : nat) (p : char -> bool) (r : regex) (s : jstring)
    (m : rmatch) :
  setsGroup n p r -> exec r s = Some m ->
  groupStr n m <> [] /\ forallb p (groupStr n m) = true.
Proof.
  intros Hs H. unfold exec in H.
  apply searchFrom_spec in H as (_ & _ & _ & _ & Hrun).
  apply (run_sets n p r Hs) in Hrun as (st' & [= ->] & Hc).
  now apply captured_groupStr with (p := p).
Qed.

Lemma execAll_sets (n : nat) (p : char -> bool) (r : regex) (s : jstring)
    (m : rmatch) :
  setsGroup n p r -> In m (execAll r s) ->
  groupStr n m <> [] /\ forallb p (groupStr n m) = true.
Proof.
  intros Hs H. apply execAll_aligned in H as (_ & _ & Hrun).
  apply (run_sets n p r Hs) in Hrun as (st' & [= ->] & Hc).
  now apply captured_groupStr with (p := p).
Qed.

Ltac find_group :=
  first [ split; reflexivity
        | left; split; [find_group | reflexivity]
        | right; find_group ].

Lemma from_import_sets_package :
  setsGroup 1 (fun c => isWord c || eqc c (ch ".")) FROM_IMPORT_REGEX.
Proof. cbn. find_group. Qed.

Lemma import_sets_package :
  setsGroup 1 (fun c => isWord c || eqc c (ch ".")) IMPORT_REGEX.
Proof. cbn. find_group. Qed.

Lemma es6_sets_path :
  setsGroup 4 (fun c => negb (eqc c (ch "'") || eqc c 34%N)) ES6_IMPORT_REGEX.
Proof. cbn. find_group. Qed.

Lemma require_sets_path :
  setsGroup 3 (fun c => negb (eqc c (ch "'") || eqc c 34%N)) REQUIRE_REGEX.
Proof. cbn. find_group. Qed.

Lemma dynamic_sets_path :
  setsGroup 1 (fun c => negb (eqc c (ch "'") || eqc c 34%N))
            DYNAMIC_IMPORT_REGEX.
Proof. cbn. find_group. Qed.

Lemma reexport_sets_path :
  setsGroup 1 (fun c => negb (eqc c (ch "'") || eqc c 34%N)) REEXPORT_REGEX.
Proof. cbn. find_group. Qed.

(** ** Package names *)

Lemma resolved_namesPackage (p : jstring) :
  p <> [] -> isRelativeImport p = false ->
  getTopLevelPackage p <> [] /\ isRelativeImport (getTopLevelPackage p) = false.
Proof.
  intros Hne Hrel. destruct (getTopLevelPackage_head p) as [_ Hh].
  destruct p as [|c p]; [congruence|].
  destruct (getTopLevelPackage (c :: p)) as [|c' q]; [discriminate|].
  injection Hh as ->. split; [discriminate|exact Hrel].
Qed.

Lemma es6Record_names (d : TextDocument) (m : rmatch) (y : ImportInfo) :
  groupStr 4 m <> [] -> In y (JsTsParser.es6Record d m) -> namesPackage y.
Proof.
  unfold JsTsParser.es6Record. intros Hne.
  destruct (isRelativeImport _) eqn:E; [intros []|].
  intros [<- | []]. now apply resolved_namesPackage.
Qed.

Lemma requireRecord_names (d : TextDocument) (m : rmatch) (y : ImportInfo) :
  groupStr 3 m <> [] -> In y (JsTsParser.requireRecord d m) -> namesPackage y.
Proof.
  unfold JsTsParser.requireRecord. intros Hne.
  destruct (isRelativeImport _) eqn:E; [intros []|].
  intros [<- | []]. now apply resolved_namesPackage.
Qed.

Lemma plainRecord_names (d : TextDocument) (m : rmatch) (y : ImportInfo) :
  groupStr 1 m <> [] -> In y (JsTsParser.plainRecord d m) -> namesPackage y.
Proof.
  unfold JsTsParser.plainRecord. intros Hne.
  destruct (isRelativeImport _) eqn:E; [intros []|].
  intros [<- | []]. now apply resolved_namesPackage.
Qed.

Lemma allImports_names (d : TextDocument) (x : ImportInfo) :
  In x (allImports d) -> namesPackage x.
Proof.
  unfold allImports. cbv zeta. intros H.
  repeat (apply in_app_or in H as [H | H]);
    apply in_flat_map in H as (m & Hm & H).
  - apply (es6Record_names d m); [|exact H].
    exact (proj1 (execAll_sets _ _ _ _ m es6_sets_path Hm)).
  - apply (requireRecord_names d m); [|exact H].
    exact (proj1 (execAll_sets _ _ _ _ m require_sets_path Hm)).
  - apply (plainRecord_names d m); [|exact H].
    exact (proj1 (execAll_sets _ _ _ _ m dynamic_sets_path Hm)).
  - apply (plainRecord_names d m); [|exact H].
    exact (proj1 (execAll_sets _ _ _ _ m reexport_sets_path Hm)).
Qed.

Lemma dotted_not_relative (w : jstring) :
  w <> [] -> forallb (fun c => isWord c || eqc c (ch ".")) w = true ->
  startsWith (str ".") w = false -> isRelativeImport w = false.
Proof.
  intros Hne Hw Hdot. unfold isRelativeImport. rewrite Hdot. cbn [orb].
  destruct w as [|c w]; [congruence|]. cbn [forallb] in Hw.
  apply andb_true_iff in Hw as [Hc _].
  change (startsWith (str ".") (c :: w)) with (eqc (ch ".") c && true) in Hdot.
  change (startsWith (str "/") (c :: w)) with (eqc (ch "/") c && true).
  rewrite andb_true_r in *. rewrite eqc_sym in Hdot. rewrite Hdot in Hc.
  rewrite orb_false_r in Hc. apply isWord_range in Hc.
  unfold eqc, ch. simpl N_of_ascii. settle_comparisons. reflexivity.
Qed.

Lemma parseLine_names (d : TextDocument) (lines : list jstring) (i : nat)
    (r : ImportInfo) :
  In r (fst (parseLine d lines i)) -> namesPackage r.
Proof.
  unfold parseLine. destruct (negb _ || _); [intros []|].
  destruct (exec FROM_IMPORT_REGEX _) as [fromMatch|] eqn:Ef.
  - apply (exec_sets _ _ _ _ _ from_import_sets_package) in Ef as [Hne Hw].
    unfold parseFromImport.
    destruct (startsWith (str ".") (groupStr 1 fromMatch)) eqn:Ed;
      [intros []|].
    destruct (if _ && _ then _ else _) as [e1 c1].
    destruct (backslashLoop _ _ e1 c1) as [e2 c2]. cbn [fst].
    intros [<- | []]. split; [exact Hne|].
    now apply dotted_not_relative.
  - destruct (exec MULTI_IMPORT_REGEX _) as [multiMatch|].
    + cbn [fst]. unfold parseMultiImport. intros H.
      apply in_map_iff in H as (name & <- & H).
      apply filter_In in H as [_ H]. apply andb_true_iff in H as [Ht Hr].
      apply negb_true_iff in Hr. split; [|exact Hr].
      cbn [packageName]. intros ->. discriminate.
    + destruct (exec IMPORT_REGEX _) as [importMatch|] eqn:Ei; [|intros []].
      apply (exec_sets _ _ _ _ _ import_sets_package) in Ei as [Hne _].
      cbn [fst]. unfold simpleImport.
      destruct (isRelativeImport _) eqn:Er; [intros []|].
      intros [<- | []]. now split.
Qed.

Lemma parseLoop_Forall (P : ImportInfo -> Prop) (d : TextDocument)
    (lines : list jstring) :
  (forall i r, In r (fst (parseLine d lines i)) -> P r) ->
  forall (fuel i : nat) (acc : list ImportInfo),
    Forall P acc -> Forall P (parseLoop fuel d lines i acc).
Proof.
  intros Hline. induction fuel as [|fuel IH]; intros i acc Hacc;
    cbn [parseLoop]; [exact Hacc|].
  destruct (i <? List.length lines); [|exact Hacc].
  pose proof (Hline i) as Hi.
  destruct (parseLine d lines i) as [found next]. cbn [fst] in Hi.
  apply IH. apply Forall_app. split; [exact Hacc|].
  now apply Forall_forall.
Qed.

(** X16. Whatever the document, every record that [parseImports] returns
    names a package: the package name is not empty and it is not a relative
    path, it starts neither with a dot nor with a slash. *)
Theorem parseImports_names_packages (d : TextDocument) (r : ImportInfo) :
  In r (imports (parseImports d)) -> namesPackage r.
Proof.
  unfold parseImports. destruct (getParser d) as [[|]|]; cbn [parseWith].
  - cbn [PythonParser.parse imports]. revert r. apply Forall_forall.
    apply parseLoop_Forall; [|constructor].
    intros i r. apply parseLine_names.
  - intros H. now apply (allImports_names d), parse_subset_allImports.
  - intros [].
Qed.

Lemma parseImports_names_packages_witness :
  let d := mkDocument (str "javascript") (str "file:///a.js")
             (str "import a from './local';" ++ LF
              :: str "import { b } from 'lodash/map';") in
  exists r, imports (parseImports d) = [r]
            /\ packageName r = str "lodash"
            /\ namesPackage r.
Proof.
  intros d. eexists. split; [vm_compute; reflexivity|].
  split; [reflexivity|].
  apply (parseImports_names_packages d). vm_compute. left. reflexivity.
Defined.

(** ** The third branch of the line scan *)

Lemma starLoop_succeeds (body : mstate -> cont -> option mstate) (k : cont) :
  (forall st, exists e, k st = Some e) ->
  forall (fuel : nat) (st : mstate),
    exists e, starLoop body fuel k st = Some e.
Proof.
  intros Hk. induction fuel as [|fuel IH]; intros st; cbn [starLoop].
  - apply Hk.
  - destruct (body st _) as [r|]; [now exists r|apply Hk].
Qed.

Lemma plus_class_succeeds (p : char -> bool) (k : cont) (st : mstate)
    (c : char) (t : jstring) :
  (forall st', exists e, k st' = Some e) ->
  rest st = c :: t -> p c = true ->
  exists e, run (Plus (Cls p)) st k = Some e.
Proof.
  intros Hk Hr Hc. unfold Plus. cbn [run]. rewrite Hr, Hc.
  now apply starLoop_succeeds.
Qed.

Lemma run_Bol (st : mstate) (k : cont) :
  run Bol st k = if pos st =? 0 then k st else None.
Proof. reflexivity. Qed.

(** A line on which the single-import pattern matches begins with the
    keyword, white space and a character of a dotted name. *)
Lemma import_match_shape (line : jstring) (m : rmatch) :
  exec IMPORT_REGEX line = Some m ->
  exists ws c t, line = str "import" ++ ws ++ c :: t
                 /\ isBlank ws /\ isWord c || eqc c (ch ".") = true.
Proof.
  intros H. unfold exec in H.
  apply searchFrom_spec in H as (n & Hn & Hp & Hr & Hrun).
  unfold IMPORT_REGEX in Hrun. cbn [Seqs] in Hrun.
  rewrite run_Seq, run_Bol in Hrun.
  destruct (Nat.eqb_spec (pos (mstart m)) 0) as [E0|]; [|discriminate].
  assert (n = 0) by lia. subst n. cbn [skipn] in Hr.
  rewrite run_Seq, run_Lit in Hrun.
  destruct (startsWith (str "import") (rest (mstart m))) eqn:Es;
    [|discriminate].
  apply startsWith_firstn in Es. rewrite run_Seq in Hrun. unfold space in Hrun.
  apply plus_class in Hrun as (ws & st1 & Hne & Hr1 & Hws & Hrun).
  rewrite run_Seq in Hrun. unfold wordOrDot in Hrun.
  change (run (Grp 1 (Plus (Cls (fun c => isWord c || eqc c (ch "."))))) st1
            ?k) with
    (run (Plus (Cls (fun c => isWord c || eqc c (ch ".")))) st1
       (fun st' => k (setCap 1 st1 st'))) in Hrun.
  apply plus_class in Hrun as (w & st2 & Hnw & Hr2 & Hw & _).
  destruct w as [|c w]; [congruence|]. cbn [forallb] in Hw.
  apply andb_true_iff in Hw as [Hc _].
  exists ws, c, (w ++ rest st2). split; [|split; [now split|exact Hc]].
  rewrite rest_advanceN in Hr1. rewrite Hr in Es, Hr1.
  rewrite <- (firstn_skipn (List.length (str "import")) line), Es, Hr1, Hr2.
  reflexivity.
Qed.

Lemma multi_matches_shape (ws t : jstring) (c : char) :
  isBlank ws -> isWord c || eqc c (ch ".") = true ->
  exists m, exec MULTI_IMPORT_REGEX (str "import" ++ ws ++ c :: t) = Some m.
Proof.
  intros [Hne Hws] Hc.
  set (line := str "import" ++ ws ++ c :: t).
  set (st := MState None 0 line []).
  assert (H : exists e, run MULTI_IMPORT_REGEX st Some = Some e).
  { unfold MULTI_IMPORT_REGEX. cbn [Seqs]. rewrite run_Seq, run_Bol.
    change (pos st =? 0) with true. cbv iota.
    rewrite run_Seq, (run_Lit_here (str "import") (ws ++ c :: t) st _ eq_refl).
    set (st1 := advanceN (List.length (str "import")) st).
    assert (R1 : rest st1 = ws ++ c :: t)
      by (apply (rest_advanceN_app (str "import")); reflexivity).
    rewrite run_Seq.
    set (st2 := advanceN (List.length ws) st1).
    pose proof (rest_advanceN_app _ _ st1 R1) as R2. fold st2 in R2.
    destruct (plus_class_succeeds
                (fun x => isWord x || eqc x (ch ".") || isSpace x
                          || eqc x (ch ","))
                (fun st' => Some (setCap 1 st2 st')) st2 c t) as [e He].
    - intros st'. now eexists.
    - exact R2.
    - now rewrite Hc.
    - exists e. unfold space.
      refine (run_plus_here isSpace ws _ st1 _ _ Hne Hws _ R1 _).
      + now apply wordOrDot_not_space.
      + fold st2. exact He. }
  destruct H as [e He]. exists (RMatch st e). unfold exec.
  unfold line in *. change (str "import" ++ ws ++ c :: t)
    with (ch "i" :: (str "mport" ++ ws ++ c :: t)) in *.
  cbn [searchFrom]. fold st. now rewrite He.
Qed.

(** X17. The branch of [parse] for a single import is never taken: a
    line on which [IMPORT_REGEX] matches is matched by
    [MULTI_IMPORT_REGEX] already, which is tried first.  So a line that is
    neither a from-import nor a multi-import gives no record, and a line
    such as [import numpy as np] is read by [parseMultiImport]. *)
Theorem single_import_branch_unreachable (d : TextDocument)
    (lines : list jstring) (i : nat) (m : rmatch) :
  exec IMPORT_REGEX (trim (nth i lines [])) = Some m ->
  (exists m', exec MULTI_IMPORT_REGEX (trim (nth i lines [])) = Some m')
  /\ (exec FROM_IMPORT_REGEX (trim (nth i lines [])) = None ->
      exists m', parseLine d lines i = (parseMultiImport d m' i, S i)).
Proof.
  intros H. apply import_match_shape in H as (ws & c & t & E & Hws & Hc).
  destruct (multi_matches_shape ws t c Hws Hc) as [m' Hm'].
  rewrite <- E in Hm'. split; [now exists m'|]. intros Hf. exists m'.
  unfold parseLine. rewrite Hf, Hm'.
  assert (Hl : negb (truthy (trim (nth i lines [])))
               || startsWith (str "#") (trim (nth i lines [])) = false)
    by (rewrite E; reflexivity).
  now rewrite Hl.
Qed.

Lemma single_import_branch_unreachable_witness :
  let d := mkDocument (str "python") (str "file:///a.py")
             (str "import numpy as np") in
  (exists m', exec MULTI_IMPORT_REGEX (trim (nth 0 (docLines d) [])) = Some m')
  /\ map packageName (imports (PythonParser.parse d)) = [str "numpy"].
Proof.
  intros d. split; [|vm_compute; reflexivity].
  assert (H : exists m, exec IMPORT_REGEX (trim (nth 0 (docLines d) [])) = Some m)
    by (vm_compute; eexists; reflexivity).
  destruct H as [m H].
  exact (proj1 (single_import_branch_unreachable d (docLines d) 0 m H)).
Defined.

(** ** The identifier of a plain import *)

Lemma last_cons_nonempty (A : Type) (x : A) (l : list A) (dflt : A) :
  l <> [] -> last (x :: l) dflt = last l dflt.
Proof. destruct l; [congruence|reflexivity]. Qed.

(** The last piece of a split is what follows the last separator. *)
Lemma split_last (c : char) (n : nat) :
  forall s : jstring,
    List.length s <= n ->
    exists pre, s = pre ++ last (split c s) []
                /\ includes c (last (split c s) []) = false
                /\ (pre = [] \/ exists pre', pre = pre' ++ [c]).
Proof.
  induction n as [|n IH]; intros s Hn.
  - destruct s; [|simpl in Hn; lia]. exists []. cbn. now repeat split; left.
  - destruct (first_occurrence c s) as [Hno | (u & v & -> & Hu)].
    + rewrite (split_absent c s Hno). exists []. cbn [last app].
      split; [reflexivity|]. split; [exact Hno|now left].
    + rewrite (split_first c u v Hu).
      rewrite last_cons_nonempty by apply split_nonempty.
      destruct (IH v) as (pre & E & Hx & Hpre).
      { rewrite length_app in Hn. simpl in Hn. lia. }
      exists (u ++ c :: pre). split; [|split; [exact Hx|right]].
      * rewrite <- app_assoc. cbn [app]. now rewrite <- E.
      * destruct Hpre as [-> | (pre' & ->)].
        -- now exists u.
        -- exists (u ++ c :: pre'). now rewrite <- app_assoc.
Qed.

(** X18. A record without named imports whose statement holds no alias
    is tracked under one identifier: what follows the last dot of its
    package name, the whole name when it has no dot.  For
    [import google.generativeai] this is [generativeai]. *)
Theorem getIdentifiersFromImport_plain (imp : ImportInfo) :
  exec ALIAS_REGEX (importStatement imp) = None ->
  namedImports imp = None \/ namedImports imp = Some [] ->
  exists pre x,
    getIdentifiersFromImport imp = [x]
    /\ packageName imp = pre ++ x
    /\ includes (ch ".") x = false
    /\ (pre = [] \/ exists pre', pre = pre' ++ str ".").
Proof.
  intros Ha Hn. unfold getIdentifiersFromImport. rewrite Ha.
  destruct (split_last (ch ".") (List.length (packageName imp))
              (packageName imp) (le_n _)) as (pre & E & Hx & Hpre).
  exists pre, (last (split (ch ".") (packageName imp)) []).
  split; [|split; [exact E|split; [exact Hx|exact Hpre]]].
  now destruct Hn as [-> | ->].
Qed.

Lemma getIdentifiersFromImport_plain_witness :
  let imp := mkImportInfo (str "google.generativeai")
               (str "import google.generativeai") python
               (RangeOf (mkPosition 0 0) (mkPosition 0 26)) (str "file:///a.py")
               None None None in
  getIdentifiersFromImport imp = [str "generativeai"]
  /\ exists pre x,
       getIdentifiersFromImport imp = [x]
       /\ packageName imp = pre ++ x
       /\ includes (ch ".") x = false
       /\ (pre = [] \/ exists pre', pre = pre' ++ str ".").
Proof.
  intros imp. split; [vm_compute; reflexivity|].
  apply (getIdentifiersFromImport_plain imp).
  - vm_compute. reflexivity.
  - left. reflexivity.
Defined.

(** ** The keyword of a JS/TS record *)

Lemma startsWith_firstn_ge (kw : jstring) :
  forall (s : jstring) (n : nat),
    startsWith kw s = true -> List.length kw <= n ->
    startsWith kw (firstn n s) = true.
Proof.
  induction kw as [|x kw IH]; intros s n Hs Hn; [reflexivity|].
  destruct s as [|y s]; [discriminate|].
  destruct n as [|n]; [simpl in Hn; lia|]. cbn [startsWith firstn] in *.
  apply andb_true_iff in Hs as [Hx Hs]. rewrite Hx. cbn [andb].
  apply IH; [exact Hs|simpl in Hn; lia].
Qed.

(** A match of a pattern that begins with a literal begins with the text
    of the literal. *)
Lemma lit_opens (kw : jstring) (r : regex) (st e : mstate) :
  run (Seq (Lit kw) r) st Some = Some e ->
  startsWith kw (consumed st e) = true.
Proof.
  rewrite run_Seq, run_Lit.
  destruct (startsWith kw (rest st)) eqn:Es; [|discriminate]. intros H.
  apply run_reaches in H as (st' & Hreach & [= ->]).
  apply reaches_pos in Hreach.
  rewrite pos_advanceN in Hreach by now apply startsWith_length.
  unfold consumed. apply startsWith_firstn_ge; [exact Es|lia].
Qed.

Lemma alt3_opens (a b c : jstring) (rest' : regex) (st e : mstate) :
  run (Seq (Alt (Lit a) (Alt (Lit b) (Lit c))) rest') st Some = Some e ->
  opensWith [a; b; c] (consumed st e) = true.
Proof.
  rewrite run_Seq. cbn [run opensWith existsb]. intros H.
  destruct (run (Lit a) st _) as [x|] eqn:Ea.
  - injection H as ->. change (run (Seq (Lit a) rest') st Some = Some e) in Ea.
    now rewrite (lit_opens a rest' st e Ea).
  - destruct (run (Lit b) st _) as [x|] eqn:Eb.
    + injection H as ->.
      change (run (Seq (Lit b) rest') st Some = Some e) in Eb.
      rewrite (lit_opens b rest' st e Eb). now rewrite orb_true_r.
    + change (run (Seq (Lit c) rest') st Some = Some e) in H.
      rewrite (lit_opens c rest' st e H). now rewrite !orb_true_r.
Qed.

Lemma allImports_keyword (d : TextDocument) (x : ImportInfo) :
  In x (allImports d) -> keywordMatchesFlag x.
Proof.
  unfold allImports. cbv zeta. intros H.
  repeat (apply in_app_or in H as [H | H]);
    apply in_flat_map in H as (m & Hm & H);
    apply execAll_aligned in Hm as (_ & _ & Hrun).
  - unfold JsTsParser.es6Record in H.
    destruct (isRelativeImport _); [destruct H|]. destruct H as [<- | []].
    unfold keywordMatchesFlag. cbn [isRequire importStatement opensWith existsb].
    unfold matched. unfold ES6_IMPORT_REGEX in Hrun. cbn [Seqs] in Hrun.
    now rewrite (lit_opens _ _ _ _ Hrun).
  - unfold JsTsParser.requireRecord in H.
    destruct (isRelativeImport _); [destruct H|]. destruct H as [<- | []].
    unfold keywordMatchesFlag. cbn [isRequire importStatement].
    unfold matched. unfold REQUIRE_REGEX in Hrun. cbn [Seqs] in Hrun.
    exact (alt3_opens _ _ _ _ _ _ Hrun).
  - unfold JsTsParser.plainRecord in H.
    destruct (isRelativeImport _); [destruct H|]. destruct H as [<- | []].
    unfold keywordMatchesFlag. cbn [isRequire importStatement opensWith existsb].
    unfold matched. unfold DYNAMIC_IMPORT_REGEX in Hrun. cbn [Seqs] in Hrun.
    now rewrite (lit_opens _ _ _ _ Hrun).
  - unfold JsTsParser.plainRecord in H.
    destruct (isRelativeImport _); [destruct H|]. destruct H as [<- | []].
    unfold keywordMatchesFlag. cbn [isRequire importStatement opensWith existsb].
    unfold matched. unfold REEXPORT_REGEX in Hrun. cbn [Seqs] in Hrun.
    rewrite (lit_opens _ _ _ _ Hrun). now rewrite orb_true_r.
Qed.

(** X19. Every record of the JS/TS parser has its [isRequire] flag set,
    and the flag goes with the keyword that opens the statement: a record
    flagged as a require starts with [const], [let] or [var], and every
    other record starts with [import] or with [export]. *)
Theorem jsts_records_keyword (d : TextDocument) (r : ImportInfo) :
  In r (imports (JsTsParser.parse d)) -> keywordMatchesFlag r.
Proof.
  intros H. now apply (allImports_keyword d), parse_subset_allImports.
Qed.

Lemma jsts_records_keyword_witness :
  let d := mkDocument (str "javascript") (str "file:///a.js")
             (str "let fs = require('fs');" ++ LF
              :: str "export * from 'pkg';") in
  exists r1 r2,
    imports (JsTsParser.parse d) = [r1; r2]
    /\ isRequire r1 = Some true /\ isRequire r2 = Some false
    /\ keywordMatchesFlag r1 /\ keywordMatchesFlag r2.
Proof.
  intros d. eexists. eexists. split; [vm_compute; reflexivity|].
  split; [reflexivity|]. split; [reflexivity|]. split.
  - apply (jsts_records_keyword d). vm_compute. left. reflexivity.
  - apply (jsts_records_keyword d). vm_compute. right. left. reflexivity.
Defined.

(** ** The shape of the records of the Python parser *)

Lemma slice_one (lines : list jstring) (i : nat) :
  i < List.length lines -> slice lines i (S i) = [nth i lines []].
Proof.
  intros Hi. unfold slice. replace (S i - i) with 1 by lia.
  revert i Hi. induction lines as [|l lines IH]; intros i Hi;
    [simpl in Hi; lia|].
  destruct i as [|i]; [reflexivity|]. apply IH. simpl in Hi. lia.
Qed.

Lemma line_record_shape (d : TextDocument) (i : nat) (name : jstring) :
  i < List.length (split LF (getText d)) ->
  pythonRecordShape d
    (mkImportInfo name (lineAt d i) python (getLineRange d i) (uri d)
                  None None None).
Proof.
  intros Hi. unfold pythonRecordShape. cbv zeta. cbn [range importStatement
    language fileUri isDefaultImport isRequire namedImports].
  unfold getLineRange. rewrite mkRange_ordered by (right; split; lia).
  cbn [rstart rend line character]. repeat split; try lia.
Qed.

Lemma parseFromImport_shape (d : TextDocument) (m : rmatch) (i : nat)
    (r : ImportInfo) :
  i < List.length (split LF (getText d)) ->
  fst (parseFromImport d m i (split LF (getText d))) = Some r ->
  pythonRecordShape d r.
Proof.
  intros Hi. unfold parseFromImport.
  destruct (startsWith (str ".") (groupStr 1 m)); [discriminate|].
  set (lines := split LF (getText d)) in *.
  set (first := if _ && _ then _ else _).
  assert (H1 : i <= fst first < List.length lines).
  { subst first. destruct (_ && _); [|simpl; lia].
    destruct (parenLoop_spec lines (List.length lines) i (groupStr 2 m)
                ltac:(lia)) as (Ha & Hb & _).
    cbv zeta in *. split; [exact Ha|now apply Hb]. }
  destruct first as [e1 c1]. cbn [fst] in H1.
  destruct (backslashLoop_spec lines (List.length lines) e1 c1 ltac:(lia))
    as (Ha & Hb & _). cbv zeta in *.
  destruct (backslashLoop (List.length lines) lines e1 c1) as [e2 c2].
  cbn [fst snd] in *. intros [= <-].
  unfold pythonRecordShape. cbv zeta. cbn [range importStatement language
    fileUri isDefaultImport isRequire namedImports]. fold lines.
  unfold createRange.
  rewrite mkRange_ordered by lia. cbn [rstart rend line character].
  rewrite Nat.add_1_r. repeat split; try lia.
Qed.

Lemma parseLine_shape (d : TextDocument) (i : nat) (r : ImportInfo) :
  i < List.length (split LF (getText d)) ->
  In r (fst (parseLine d (split LF (getText d)) i)) ->
  pythonRecordShape d r.
Proof.
  intros Hi. unfold parseLine.
  destruct (negb _ || _); [intros []|].
  destruct (exec FROM_IMPORT_REGEX _) as [fromMatch|].
  - pose proof (parseFromImport_shape d fromMatch i) as H.
    destruct (parseFromImport d fromMatch i (split LF (getText d)))
      as [[imp|] next]; cbn [fst]; [|intros []].
    intros [<- | []]. now apply H.
  - destruct (exec MULTI_IMPORT_REGEX _) as [multiMatch|] eqn:Em.
    + cbn [fst]. unfold parseMultiImport. intros H.
      apply in_map_iff in H as (name & <- & _).
      now apply line_record_shape.
    + destruct (exec IMPORT_REGEX _) as [importMatch|] eqn:Ei; [|intros []].
      apply import_match_shape in Ei as (ws & c & t & E & Hws & Hc).
      destruct (multi_matches_shape ws t c Hws Hc) as [m' Hm'].
      rewrite <- E in Hm'. congruence.
Qed.

Lemma parseLoop_shape (d : TextDocument) (fuel : nat) :
  forall (i : nat) (acc : list ImportInfo),
    Forall (pythonRecordShape d) acc ->
    Forall (pythonRecordShape d)
           (parseLoop fuel d (split LF (getText d)) i acc).
Proof.
  induction fuel as [|fuel IH]; intros i acc Hacc; cbn [parseLoop];
    [exact Hacc|].
  destruct (Nat.ltb_spec i (List.length (split LF (getText d))));
    [|exact Hacc].
  pose proof (parseLine_shape d i) as Hline.
  destruct (parseLine d (split LF (getText d)) i) as [found next].
  cbn [fst] in Hline. apply IH. apply Forall_app. split; [exact Hacc|].
  apply Forall_forall. intros r Hr. now apply Hline.
Qed.

Lemma lineText_plain (piece : jstring) :
  includes CR piece = false -> lineText piece = piece.
Proof.
  intros H. unfold lineText. destruct (rev piece) as [|c r] eqn:E;
    [reflexivity|].
  destruct (eqc c CR) eqn:Ec; [|reflexivity]. exfalso.
  apply eqc_true in Ec. subst c.
  assert (Hin : In CR piece) by (apply in_rev; rewrite E; now left).
  unfold includes in H.
  assert (Ht : existsb (eqc CR) piece = true)
    by (apply existsb_exists; exists CR; split; [exact Hin|apply eqc_refl]).
  congruence.
Qed.

Lemma lineAt_plain (d : TextDocument) (i : nat) :
  includes CR (getText d) = false ->
  lineAt d i = nth i (split LF (getText d)) [].
Proof.
  intros H. unfold lineAt, docLines. apply lineText_plain.
  destruct (Nat.lt_ge_cases i (List.length (split LF (getText d))))
    as [Hi | Hi]; [|now rewrite nth_overflow].
  destruct (includes CR (nth i (split LF (getText d)) [])) eqn:E;
    [exfalso|reflexivity].
  unfold includes in E, H. apply existsb_exists in E as (x & Hx & Ex).
  apply eqc_true in Ex. subst x.
  apply (split_pieces LF (getText d)) in Hx; [|now apply nth_In].
  assert (Ht : existsb (eqc CR) (getText d) = true)
    by (apply existsb_exists; exists CR; split; [exact Hx|apply eqc_refl]).
  congruence.
Qed.

(** X9. Every record of the Python parser starts at the head of a line of
    the document and ends on the same or a later line; it is tagged python,
    carries the uri of the document and leaves the JS/TS fields unset.  A
    from-import record holds the pieces of [text.split('\n')] from its
    first to its last line joined by line feeds and ends at the length of
    the last piece, so that in a document with CRLF terminators its
    statement keeps the carriage returns and its range ends one column
    past the line; a record of a multi-import line holds the text of the
    line as the editor gives it, without the terminator, and ends at the
    end of the line.  In a document without carriage returns the statement
    of every record is the text of its lines and its range ends at the end
    of its last line. *)
Theorem python_records_shape (d : TextDocument) (r : ImportInfo) :
  In r (imports (PythonParser.parse d)) ->
  pythonRecordShape d r
  /\ (includes CR (getText d) = false -> holdsWholeLines d r).
Proof.
  intros Hin.
  assert (H : pythonRecordShape d r).
  { revert Hin. unfold PythonParser.parse. cbn [imports].
    pose proof (parseLoop_shape d (List.length (split LF (getText d))) 0 []
                  (Forall_nil _)) as H.
    rewrite Forall_forall in H. apply H. }
  split; [exact H|]. intros Hcr.
  destruct H as (Hse & _ & _ & _ & _ & _ & H). unfold holdsWholeLines.
  cbv zeta in *. destruct (namedImports r); [exact H|].
  destruct H as (E & Hc & Hs). rewrite <- E.
  rewrite slice_one by lia. cbn [join].
  rewrite <- (lineAt_plain d _ Hcr). now split.
Qed.

Lemma python_records_shape_witness :
  let d := mkDocument (str "python") (str "file:///a.py")
             (str "import os, sys" ++ CR :: LF :: str "from a import (b," ++ CR
              :: LF :: str "  c)") in
  exists r1 r2 r3,
    imports (PythonParser.parse d) = [r1; r2; r3]
    /\ importStatement r1 = str "import os, sys"
    /\ range r1 = RangeOf (mkPosition 0 0) (mkPosition 0 14)
    /\ importStatement r3
       = str "from a import (b," ++ CR :: LF :: str "  c)"
    /\ range r3 = RangeOf (mkPosition 1 0) (mkPosition 2 4)
    /\ pythonRecordShape d r1 /\ pythonRecordShape d r3.
Proof.
  intros d. eexists. eexists. eexists. split; [vm_compute; reflexivity|].
  do 4 (split; [reflexivity|]). split.
  - apply (python_records_shape d). vm_compute. left. reflexivity.
  - apply (python_records_shape d). vm_compute. right. right. left.
    reflexivity.
Defined.

(** ** The names of a list of named imports *)









Section Items.

Variable sp : char -> bool.
Hypothesis sp_space : forall c, sp c = true -> isSpace c = true.















End Items.

(** ** Matches that consume a statement *)













(** ** A from-import statement on a line *)












(** ** The ES module pattern and the require pattern on a statement *)













(** ** The records of statements with named imports *)












(** ** The paths that the resolver is given *)

(** The package name of every record that a JS/TS pass pushes is the
    canonical name, as the specification words it, of a module path that
    is not a relative import: the passes skip the relative paths before
    they resolve. *)
Lemma resolver_inputs_not_relative (d : TextDocument) (x : ImportInfo) :
  In x (allImports d) ->
  exists path, isRelativeImport path = false
               /\ packageName x = resolver_as_specified path.
Proof.
  assert (R : forall p, isRelativeImport p = false ->
                getTopLevelPackage p = resolver_as_specified p).
  { intros p H. apply getTopLevelPackage_resolver.
    unfold isRelativeImport in H. now apply orb_false_iff in H as [_ H]. }
  unfold allImports. cbv zeta. intros H.
  repeat (apply in_app_or in H as [H | H]);
    apply in_flat_map in H as (m & _ & H).
  - unfold JsTsParser.es6Record in H.
    destruct (isRelativeImport (groupStr 4 m)) eqn:E; [destruct H|].
    destruct H as [<- | []]. exists (groupStr 4 m).
    split; [exact E|exact (R _ E)].
  - unfold JsTsParser.requireRecord in H.
    destruct (isRelativeImport (groupStr 3 m)) eqn:E; [destruct H|].
    destruct H as [<- | []]. exists (groupStr 3 m).
    split; [exact E|exact (R _ E)].
  - unfold JsTsParser.plainRecord in H.
    destruct (isRelativeImport (groupStr 1 m)) eqn:E; [destruct H|].
    destruct H as [<- | []]. exists (groupStr 1 m).
    split; [exact E|exact (R _ E)].
  - unfold JsTsParser.plainRecord in H.
    destruct (isRelativeImport (groupStr 1 m)) eqn:E; [destruct H|].
    destruct H as [<- | []]. exists (groupStr 1 m).
    split; [exact E|exact (R _ E)].
Qed.
